(** * jasper-chat-bot: the markdown renderer of [ChatBox.vue] and the
      [/api/chat] handler of [chat.post.js]

    The renderer [parseMarkdownToHTML] is a chain of thirteen
    [String.prototype.replace] calls, each with a regular-expression
    literal carrying the [g] flag.  The development embeds

    - JavaScript strings as lists of UTF-16 code units;
    - the fragment of ECMAScript regular expressions the literals use,
      with the backtracking matcher written in continuation-passing
      style as in the language definition;
    - [replace] with a global pattern, with replacement templates
      ([$1], [$2]) and with replacement callbacks;
    - the renderer itself, one [let] per assignment to [text];
    - the server handler as a function over an explicit event state.

    The renderer is modelled on strings, its declared parameter type; what
    the page does with the returned markup is outside the model. *)

From Stdlib Require Import Ascii String.
From Stdlib Require Import List NArith ZArith Bool Arith Lia.
Import ListNotations.

Set Implicit Arguments.

(** ** Strings *)

(** A UTF-16 code unit. *)
Definition char := N.

(** A JavaScript string: a sequence of code units. *)
Definition str := list char.

(** The code units of an ASCII literal. *)
Definition lit (s : string) : str :=
  List.map N_of_ascii (list_ascii_of_string s).

(** The double-quote character, which the templates of the source contain. *)
Definition dq : char := 34%N.

Definition c_star : char := 42%N.
Definition c_tilde : char := 126%N.
Definition c_lbracket : char := 91%N.
Definition c_rbracket : char := 93%N.
Definition c_lparen : char := 40%N.
Definition c_rparen : char := 41%N.
Definition c_hash : char := 35%N.
Definition c_backtick : char := 96%N.
Definition c_gt : char := 62%N.
Definition c_dot : char := 46%N.
Definition c_bang : char := 33%N.
Definition c_pipe : char := 124%N.
Definition c_dollar : char := 36%N.
Definition c_amp : char := 38%N.
Definition c_nl : char := 10%N.
Definition c_tab : char := 9%N.
Definition c_space : char := 32%N.

(** ECMAScript LineTerminator: LF, CR, LS, PS. *)
Definition isLineTerminator (x : char) : bool :=
  ((x =? 10) || (x =? 13) || (x =? 8232) || (x =? 8233))%N.

(** ECMAScript WhiteSpace together with LineTerminator: what [\s] matches
    and what [trim] removes. *)
Definition isWhiteSpace (x : char) : bool :=
  ((x =? 9) || (x =? 10) || (x =? 11) || (x =? 12) || (x =? 13) || (x =? 32)
   || (x =? 160) || (x =? 5760) || ((8192 <=? x) && (x <=? 8202))
   || (x =? 8232) || (x =? 8233) || (x =? 8239) || (x =? 8287)
   || (x =? 12288) || (x =? 65279))%N.

(** [\d] *)
Definition isDigit (x : char) : bool := ((48 <=? x) && (x <=? 57))%N.

Fixpoint drop_ws (s : str) : str :=
  match s with
  | x :: s' => if isWhiteSpace x then drop_ws s' else s
  | [] => []
  end.

(** [String.prototype.trim] *)
Definition trim (s : str) : str := rev (drop_ws (rev (drop_ws s))).

(** [String.prototype.split] with a one-character separator. *)
Fixpoint split (sep : char) (s : str) : list str :=
  match s with
  | [] => [[]]
  | x :: s' =>
      if (x =? sep)%N then [] :: split sep s'
      else match split sep s' with
           | h :: t => (x :: h) :: t
           | [] => [[x]]
           end
  end.

(** [Array.prototype.join('')] *)
Definition join_empty (l : list str) : str := concat l.

Fixpoint uint_to_str (d : Decimal.uint) : str :=
  match d with
  | Decimal.Nil => []
  | Decimal.D0 d' => 48%N :: uint_to_str d'
  | Decimal.D1 d' => 49%N :: uint_to_str d'
  | Decimal.D2 d' => 50%N :: uint_to_str d'
  | Decimal.D3 d' => 51%N :: uint_to_str d'
  | Decimal.D4 d' => 52%N :: uint_to_str d'
  | Decimal.D5 d' => 53%N :: uint_to_str d'
  | Decimal.D6 d' => 54%N :: uint_to_str d'
  | Decimal.D7 d' => 55%N :: uint_to_str d'
  | Decimal.D8 d' => 56%N :: uint_to_str d'
  | Decimal.D9 d' => 57%N :: uint_to_str d'
  end.

(** A number interpolated into a template literal: its decimal digits. *)
Definition number_to_str (n : nat) : str := uint_to_str (Nat.to_uint n).

(** ** Regular expressions *)

(** The character sets the literals of the source use. *)
Inductive cset : Type :=
| CLit (c : char)      (* one literal character: \*  ~  #  ... *)
| CDot                 (* .      *)
| CSpace               (* \s     *)
| CDigit               (* \d     *)
| CNotLit (c : char)   (* [^c]   *)
| CAll.                (* [\s\S] *)

Definition cset_mem (a : cset) (x : char) : bool :=
  match a with
  | CLit c => (x =? c)%N
  | CDot => negb (isLineTerminator x)
  | CSpace => isWhiteSpace x
  | CDigit => isDigit x
  | CNotLit c => negb (x =? c)%N
  | CAll => true
  end.

(** The pattern syntax.  Every quantifier of the source applies to a single
    character set, so [RRep] quantifies a set: [a{lo,hi}], greedy or lazy,
    [hi = None] for no upper bound.  [RBol] and [REol] are [^] and [$] under
    the [m] flag, which every pattern of the source that uses them carries.
    Capture groups carry their number. *)
Inductive regex : Type :=
| RSet (a : cset)
| RRep (a : cset) (lo : nat) (hi : option nat) (greedy : bool)
| RBol
| REol
| RGroup (i : nat) (r : regex)
| RSeq (r1 r2 : regex).

Declare Scope regex_scope.
Delimit Scope regex_scope with re.
Notation "r1 ;; r2" := (RSeq r1 r2) (at level 61, right associativity) : regex_scope.

Definition rch (c : char) : regex := RSet (CLit c).
Definition rstar (a : cset) : regex := RRep a 0 None true.        (* a*  *)
Definition rplus (a : cset) : regex := RRep a 1 None true.        (* a+  *)
Definition rstar_lazy (a : cset) : regex := RRep a 0 None false.  (* a*? *)
Definition rplus_lazy (a : cset) : regex := RRep a 1 None false.  (* a+? *)

(** The captures of a match: group number and captured substring, the most
    recent binding first. *)
Definition caps := list (nat * str).

Fixpoint cap (n : nat) (c : caps) : option str :=
  match c with
  | [] => None
  | (i, v) :: c' => if Nat.eqb i n then Some v else cap n c'
  end.

(** A capture as a replacement sees it: a group that did not take part
    contributes the empty string. *)
Definition cap_str (n : nat) (c : caps) : str :=
  match cap n c with Some v => v | None => [] end.

Definition more_allowed (hi : option nat) : bool :=
  match hi with Some 0 => false | _ => true end.

Definition dec (hi : option nat) : option nat := option_map Nat.pred hi.

Section Matcher.

Variable A : Type.

(** The matcher threads, besides the rest of the input, the flag [bol]:
    whether the current position is the start of the input or follows a
    line terminator, which is what [^] tests under the [m] flag. *)

(** Greedy repetition of a character set: take a character when allowed,
    fall back to the continuation at the current position. *)
Fixpoint rep_greedy (p : char -> bool) (lo : nat) (hi : option nat)
         (bol : bool) (s : str) (k : bool -> str -> option A) {struct s}
  : option A :=
  let stop := match lo with O => k bol s | S _ => None end in
  match s with
  | x :: s' =>
      if p x && more_allowed hi then
        match rep_greedy p (Nat.pred lo) (dec hi) (isLineTerminator x) s' k with
        | Some r => Some r
        | None => stop
        end
      else stop
  | [] => stop
  end.

(** Lazy repetition: try the continuation first, take a character only
    when it fails. *)
Fixpoint rep_lazy (p : char -> bool) (lo : nat) (hi : option nat)
         (bol : bool) (s : str) (k : bool -> str -> option A) {struct s}
  : option A :=
  match s with
  | x :: s' =>
      let more :=
        if p x && more_allowed hi
        then rep_lazy p (Nat.pred lo) (dec hi) (isLineTerminator x) s' k
        else None in
      match lo with
      | O => match k bol s with Some r => Some r | None => more end
      | S _ => more
      end
  | [] => match lo with O => k bol s | S _ => None end
  end.

Fixpoint rmatch (r : regex) (bol : bool) (s : str) (c : caps)
         (k : bool -> str -> caps -> option A) {struct r} : option A :=
  match r with
  | RSet a =>
      match s with
      | x :: s' => if cset_mem a x then k (isLineTerminator x) s' c else None
      | [] => None
      end
  | RRep a lo hi g =>
      (if g then rep_greedy else rep_lazy)
        (cset_mem a) lo hi bol s (fun b s' => k b s' c)
  | RBol => if bol then k bol s c else None
  | REol =>
      match s with
      | [] => k bol s c
      | x :: _ => if isLineTerminator x then k bol s c else None
      end
  | RGroup i r' =>
      rmatch r' bol s c
        (fun b s' c' => k b s' ((i, firstn (length s - length s') s) :: c'))
  | RSeq r1 r2 =>
      rmatch r1 bol s c (fun b s' c' => rmatch r2 b s' c' k)
  end.

End Matcher.

(** One attempt at the current position: the length of the match and its
    captures. *)
Definition exec_at (r : regex) (bol : bool) (s : str) : option (nat * caps) :=
  rmatch r bol s [] (fun _ s' c => Some (length s - length s', c)).

(** ** Replacement *)

(** GetSubstitution for the forms a template can contain here: [$$], [$&]
    and [$d] with one digit.  (No template of the source has a [$] followed
    by two digits.)  Any other [$] is literal. *)
Fixpoint expand (tpl : str) (matched : str) (c : caps) : str :=
  match tpl with
  | [] => []
  | x :: t =>
      if (x =? c_dollar)%N then
        match t with
        | y :: t' =>
            if (y =? c_dollar)%N then c_dollar :: expand t' matched c
            else if (y =? c_amp)%N then matched ++ expand t' matched c
            else if ((49 <=? y) && (y <=? 57))%N then
              cap_str (N.to_nat (y - 48)) c ++ expand t' matched c
            else x :: expand t matched c
        | [] => [x]
        end
      else x :: expand t matched c
  end.

(** A replacement: what to put for a match, given the matched text and the
    captures.  A template is [expand tpl]; a callback is a function. *)
Definition replacement := str -> caps -> str.

(** [String.prototype.replace] with a pattern that has the [g] flag.  The
    loop of the language definition keeps [lastIndex]; here the position is
    the rest of the input, and [skip] counts the characters of the last
    match still to be passed over.  At a position where the pattern fails
    the character is copied and the search moves on by one; after an empty
    match [lastIndex] advances by one, so the character is copied too. *)
Fixpoint replace_go (r : regex) (f : replacement) (skip : nat) (bol : bool)
         (s : str) {struct s} : str :=
  match skip with
  | S n =>
      match s with
      | x :: s' => replace_go r f n (isLineTerminator x) s'
      | [] => []
      end
  | O =>
      match exec_at r bol s with
      | Some (len, c) =>
          f (firstn len s) c ++
          match s with
          | x :: s' =>
              match len with
              | O => x :: replace_go r f 0 (isLineTerminator x) s'
              | S n => replace_go r f n (isLineTerminator x) s'
              end
          | [] => []
          end
      | None =>
          match s with
          | x :: s' => x :: replace_go r f 0 (isLineTerminator x) s'
          | [] => []
          end
      end
  end.

Definition replace (r : regex) (f : replacement) (s : str) : str :=
  replace_go r f 0 true s.

(** ** The renderer: [parseMarkdownToHTML]

    In the comments below the tokens of each pattern are separated by
    spaces, which are not part of the pattern. *)

Local Open Scope regex_scope.

(** Bold.  Pattern, token by token:  \*  \*  ( .*? )  \*  \*   with flag g. *)
Definition bold_re : regex :=
  rch c_star ;; rch c_star ;; RGroup 1 (rstar_lazy CDot) ;; rch c_star ;; rch c_star.

(** Italic.  Pattern:  \*  ( .*? )  \*   with flag g. *)
Definition italic_re : regex :=
  rch c_star ;; RGroup 1 (rstar_lazy CDot) ;; rch c_star.

(** Strikethrough.  Pattern:  ~  ~  ( .*? )  ~  ~   with flag g. *)
Definition strike_re : regex :=
  rch c_tilde ;; rch c_tilde ;; RGroup 1 (rstar_lazy CDot) ;; rch c_tilde ;; rch c_tilde.

(** Links.  Pattern:  \[  ( [^\]]+ )  \]  \(  ( [^)]+ )  \)   with flag g. *)
Definition link_re : regex :=
  rch c_lbracket ;; RGroup 1 (rplus (CNotLit c_rbracket)) ;; rch c_rbracket ;;
  rch c_lparen ;; RGroup 2 (rplus (CNotLit c_rparen)) ;; rch c_rparen.

(** Headings.  Pattern:  ^  ( #{1,6} )  \s*  ( .* )  $   with flags gm. *)
Definition heading_re : regex :=
  RBol ;; RGroup 1 (RRep (CLit c_hash) 1 (Some 6) true) ;; rstar CSpace ;;
  RGroup 2 (rstar CDot) ;; REol.

(** Inline code.  Pattern:  `  ( [^`]+ )  `   with flag g. *)
Definition code_re : regex :=
  rch c_backtick ;; RGroup 1 (rplus (CNotLit c_backtick)) ;; rch c_backtick.

(** Code blocks.  Pattern:  `  `  `  ( [\s\S]+? )  `  `  `   with flag g. *)
Definition fence_re : regex :=
  rch c_backtick ;; rch c_backtick ;; rch c_backtick ;;
  RGroup 1 (rplus_lazy CAll) ;;
  rch c_backtick ;; rch c_backtick ;; rch c_backtick.

(** Blockquotes.  Pattern:  ^  >  \s*  ( .* )  $   with flags gm. *)
Definition quote_re : regex :=
  RBol ;; rch c_gt ;; rstar CSpace ;; RGroup 1 (rstar CDot) ;; REol.

(** Unordered lists.  Pattern:  ^  \*  \s  ( .* )  $   with flags gm. *)
Definition ul_re : regex :=
  RBol ;; rch c_star ;; RSet CSpace ;; RGroup 1 (rstar CDot) ;; REol.

(** Ordered lists.  Pattern:  ^  \d+  \.  \s  ( .* )  $   with flags gm. *)
Definition ol_re : regex :=
  RBol ;; rplus CDigit ;; rch c_dot ;; RSet CSpace ;; RGroup 1 (rstar CDot) ;; REol.

(** Images.  Pattern:  !  \[  ( [^\]]* )  \]  \(  ( [^)]+ )  \)   with flag g. *)
Definition image_re : regex :=
  rch c_bang ;; rch c_lbracket ;; RGroup 1 (rstar (CNotLit c_rbracket)) ;;
  rch c_rbracket ;; rch c_lparen ;; RGroup 2 (rplus (CNotLit c_rparen)) ;;
  rch c_rparen.

(** Tables, both rules.  Pattern:  ^  \|  ( .+ )  \|  $   with flags gm. *)
Definition table_re : regex :=
  RBol ;; rch c_pipe ;; RGroup 1 (rplus CDot) ;; rch c_pipe ;; REol.

Local Close Scope regex_scope.

(** The callback of the heading rule, with parameters _, level and content:
    the tag is h followed by level.length, the result is the content
    between the opening and the closing tag. *)
Definition heading_cb : replacement := fun _ c =>
  let level := cap_str 1 c in
  let content := cap_str 2 c in
  let tag := lit "h" ++ number_to_str (length level) in
  lit "<" ++ tag ++ lit ">" ++ content ++ lit "</" ++ tag ++ lit ">".

(** The cells of a row: the content split at the bars, each cell trimmed
    and wrapped in the given tag, the results joined with no separator. *)
Definition cells (tag : str) (content : str) : str :=
  join_empty
    (List.map (fun cell => lit "<" ++ tag ++ lit ">" ++ trim cell ++
                           lit "</" ++ tag ++ lit ">")
              (split c_pipe content)).

(** The callback of the first table rule. *)
Definition table_head_cb : replacement := fun _ c =>
  let content := cap_str 1 c in
  lit "<thead><tr>" ++ cells (lit "th") content ++ lit "</tr></thead><tbody>".

(** The callback of the second table rule. *)
Definition table_row_cb : replacement := fun _ c =>
  let content := cap_str 1 c in
  lit "<tr>" ++ cells (lit "td") content ++ lit "</tr></tbody></table>".

Definition bold_rule := replace bold_re (expand (lit "<strong>$1</strong>")).
Definition italic_rule := replace italic_re (expand (lit "<em>$1</em>")).
Definition strike_rule := replace strike_re (expand (lit "<del>$1</del>")).
Definition link_rule :=
  replace link_re
    (expand (lit "<a href=" ++ [dq] ++ lit "$2" ++ [dq] ++ lit ">$1</a>")).
Definition heading_rule := replace heading_re heading_cb.
Definition code_rule := replace code_re (expand (lit "<code>$1</code>")).
Definition fence_rule :=
  replace fence_re (expand (lit "<pre><code>$1</code></pre>")).
Definition quote_rule :=
  replace quote_re (expand (lit "<blockquote>$1</blockquote>")).
Definition ul_rule := replace ul_re (expand (lit "<ul><li>$1</li></ul>")).
Definition ol_rule := replace ol_re (expand (lit "<ol><li>$1</li></ol>")).
Definition image_rule :=
  replace image_re
    (expand (lit "<img src=" ++ [dq] ++ lit "$2" ++ [dq] ++ lit " alt=" ++
             [dq] ++ lit "$1" ++ [dq] ++ lit "/>")).
Definition table_head_rule := replace table_re table_head_cb.
Definition table_row_rule := replace table_re table_row_cb.

Definition parseMarkdownToHTML (text : str) : str :=
  let text := bold_rule text in
  let text := italic_rule text in
  let text := strike_rule text in
  let text := link_rule text in
  let text := heading_rule text in
  let text := code_rule text in
  let text := fence_rule text in
  let text := quote_rule text in
  let text := ul_rule text in
  let text := ol_rule text in
  let text := image_rule text in
  let text := table_head_rule text in
  let text := table_row_rule text in
  text.


(** ** The handler of [/api/chat] (chat.post.js) *)

Module ChatApi.

(** The JavaScript values the handler receives and tests for truthiness.
    A number is modelled by an integer: the handler only tests whether it
    is zero. *)
Inductive value : Type :=
| VUndefined
| VNull
| VBool (b : bool)
| VNumber (z : Z)
| VString (s : str)
| VObject.

(** ToBoolean *)
Definition truthy (v : value) : bool :=
  match v with
  | VUndefined | VNull => false
  | VBool b => b
  | VNumber z => negb (Z.eqb z 0)
  | VString s => match s with [] => false | _ :: _ => true end
  | VObject => true
  end.

(** What [readBody] resolves to: nothing (reading a property of it
    throws), or a value with the two properties the handler reads. *)
Inductive body : Type :=
| BodyMissing
| BodyOf (message history : value).

(** What the provider call and the reading of
    [response.candidates[0].content.parts[0].text] come to: the text, or an
    exception with its [message] and its
    [response.promptFeedback.blockReason]. *)
Inductive sdk_result : Type :=
| SdkText (text : value)
| SdkThrows (message : value) (blockReason : option str).

(** The part of the event the handler acts on: the response status that
    [setResponseStatus] sets, and whether [readBody] has been called. *)
Record event : Type := { status : nat; bodyRead : bool }.

Definition fresh : event := {| status := 200; bodyRead := false |}.

Definition setResponseStatus (ev : event) (code : nat) : event :=
  {| status := code; bodyRead := bodyRead ev |}.

Definition readBody (ev : event) : event :=
  {| status := status ev; bodyRead := true |}.

(** The object the handler returns: [{reply}] or [{error: true, message}]. *)
Inductive payload : Type :=
| Reply (text : value)
| Error (message : value).

Inductive outcome : Type :=
| Returns (p : payload)
| Throws.

Definition msg_no_key : str :=
  lit "API key not configured. Please set GEMINI_API_KEY in your .env file.".
Definition msg_no_message : str := lit "No message provided in the request.".
Definition msg_failed : str := lit "Failed to get a response from the AI.".
Definition msg_blocked (reason : str) : str :=
  lit "Your message was blocked. Reason: " ++ reason ++
  lit ". Please rephrase your message.".

Section Handler.

(** The provider: [ai.models.generateContent] of a client built from the
    key, applied to the message and the history.  Building the client
    is taken not to throw. *)
Variable generateContent : value -> value -> value -> sdk_result.

(** The handler, statement by statement.  [privateCfg] is [config.private]:
    [None] when the runtime configuration has no such object, so that
    reading its [apiKey] throws, else the value of its [apiKey].  The key
    is tested before [readBody] is called.  Reading [body.message] of a
    missing body throws.  A falsy [body.history] is replaced by an empty
    array, which is an object. *)
Definition handler (privateCfg : option value) (req : body) (ev : event)
  : outcome * event :=
  match privateCfg with
  | None => (Throws, ev)
  | Some apiKey =>
      if negb (truthy apiKey) then
        (Returns (Error (VString msg_no_key)), setResponseStatus ev 500)
      else
        let ev := readBody ev in
        match req with
        | BodyMissing => (Throws, ev)
        | BodyOf userMessage history0 =>
            let history := if truthy history0 then history0 else VObject in
            if negb (truthy userMessage) then
              (Returns (Error (VString msg_no_message)),
               setResponseStatus ev 400)
            else
              match generateContent apiKey userMessage history with
              | SdkText text => (Returns (Reply text), ev)
              | SdkThrows message blockReason =>
                  let errorMessage := VString msg_failed in
                  let errorMessage :=
                    if truthy message then message else errorMessage in
                  let errorMessage :=
                    match blockReason with
                    | Some (x :: w) => VString (msg_blocked (x :: w))
                    | _ => errorMessage
                    end in
                  (Returns (Error errorMessage), setResponseStatus ev 500)
              end
        end
  end.

End Handler.

End ChatApi.

(** ** Declarative reading of the patterns *)

(** The line-start flag after passing over [w]. *)
Fixpoint bol_after (bol : bool) (w : str) : bool :=
  match w with
  | [] => bol
  | x :: w' => bol_after (isLineTerminator x) w'
  end.

Definition within (hi : option nat) (n : nat) : Prop :=
  match hi with Some h => n <= h | None => True end.

(** A position where [$] holds under the [m] flag: the end of the input or
    just before a line terminator. *)
Definition line_end (rest : str) : Prop :=
  match rest with
  | [] => True
  | x :: _ => isLineTerminator x = true
  end.

(** [lang r bol w rest]: the pattern [r] can match the word [w] when the
    position before [w] has line-start flag [bol] and [rest] follows. *)
Fixpoint lang (r : regex) (bol : bool) (w rest : str) : Prop :=
  match r with
  | RSet a => exists x, w = [x] /\ cset_mem a x = true
  | RRep a lo hi _ =>
      forallb (cset_mem a) w = true /\ lo <= length w /\ within hi (length w)
  | RBol => w = [] /\ bol = true
  | REol => w = [] /\ line_end rest
  | RGroup _ r' => lang r' bol w rest
  | RSeq r1 r2 =>
      exists w1 w2, w = w1 ++ w2 /\ lang r1 bol w1 (w2 ++ rest) /\
                    lang r2 (bol_after bol w1) w2 rest
  end.

(** ** Recognisers of the markdown constructs

    Each recogniser looks at the input from one position on and tells
    whether a construct starts there.  They are written without the
    matcher. *)

Fixpoint take_while (p : char -> bool) (s : str) : str :=
  match s with
  | x :: s' => if p x then x :: take_while p s' else []
  | [] => []
  end.

Fixpoint drop_while (p : char -> bool) (s : str) : str :=
  match s with
  | x :: s' => if p x then drop_while p s' else s
  | [] => []
  end.

Definition not_lt (x : char) : bool := negb (isLineTerminator x).

(** The text up to the next line terminator. *)
Definition line_of (s : str) : str := take_while not_lt s.

Definition is_char (c x : char) : bool := (x =? c)%N.

Definition nonempty (s : str) : bool :=
  match s with [] => false | _ :: _ => true end.

(** Two adjacent occurrences of [c] somewhere in [l]. *)
Fixpoint has_double (c : char) (l : str) : bool :=
  match l with
  | a :: t =>
      match t with
      | b :: _ => (is_char c a && is_char c b) || has_double c t
      | [] => false
      end
  | [] => false
  end.

(** An asterisk with another asterisk later on the same line: the spans of
    the bold and the italic rule. *)
Definition asterisk_pair (s : str) : bool :=
  match s with
  | x :: r => is_char c_star x && existsb (is_char c_star) (line_of r)
  | [] => false
  end.

(** Two tildes with two more tildes later on the same line. *)
Definition strike_span (s : str) : bool :=
  match s with
  | a :: b :: r => is_char c_tilde a && is_char c_tilde b && has_double c_tilde (line_of r)
  | _ => false
  end.

Definition backtick_here (s : str) : bool :=
  match s with
  | x :: _ => is_char c_backtick x
  | [] => false
  end.

(** After an opening bracket: a text without closing bracket (non-empty
    unless [empty_ok]), a closing bracket, an opening parenthesis, a
    non-empty text without closing parenthesis, a closing parenthesis. *)
Definition bracket_paren (empty_ok : bool) (s : str) : bool :=
  let not_rb x := negb (is_char c_rbracket x) in
  let not_rp x := negb (is_char c_rparen x) in
  (empty_ok || nonempty (take_while not_rb s)) &&
  match drop_while not_rb s with
  | a :: b :: r =>
      is_char c_rbracket a && is_char c_lparen b &&
      nonempty (take_while not_rp r) && nonempty (drop_while not_rp r)
  | _ => false
  end.

Definition link_form (s : str) : bool :=
  match s with
  | x :: r => is_char c_lbracket x && bracket_paren false r
  | [] => false
  end.

Definition image_form (s : str) : bool :=
  match s with
  | x :: y :: r => is_char c_bang x && is_char c_lbracket y && bracket_paren true r
  | _ => false
  end.

Definition hash_here (s : str) : bool :=
  match s with x :: _ => is_char c_hash x | [] => false end.

Definition gt_here (s : str) : bool :=
  match s with x :: _ => is_char c_gt x | [] => false end.

(** An asterisk followed by a character of the set [sp]. *)
Definition bullet_here (sp : char -> bool) (s : str) : bool :=
  match s with
  | a :: b :: _ => is_char c_star a && sp b
  | _ => false
  end.

(** Digits, a dot, and a character of the set [sp]. *)
Definition number_here (sp : char -> bool) (s : str) : bool :=
  nonempty (take_while isDigit s) &&
  match drop_while isDigit s with
  | a :: b :: _ => is_char c_dot a && sp b
  | _ => false
  end.

(** The content of a table row: the line is a bar, a non-empty content and
    a bar. *)
Definition row_content (l : str) : option str :=
  match l with
  | x :: r =>
      if is_char c_pipe x then
        match rev r with
        | y :: c' => if is_char c_pipe y && nonempty c' then Some (rev c') else None
        | [] => None
        end
      else None
  | [] => None
  end.

Definition row_here (s : str) : bool :=
  match row_content (line_of s) with Some _ => true | None => false end.

(** [P] holds at some position of [s]. *)
Fixpoint anywhere (P : str -> bool) (s : str) : bool :=
  P s || match s with
         | [] => false
         | _ :: s' => anywhere P s'
         end.

(** [P] holds at some position of [s] that starts a line, [bol] telling
    whether the first position does. *)
Fixpoint at_line_start (P : str -> bool) (bol : bool) (s : str) : bool :=
  (bol && P s) || match s with
                  | [] => false
                  | x :: s' => at_line_start P (isLineTerminator x) s'
                  end.

(** A text with no markdown construct: no asterisk pair, no strikethrough
    span, no backtick, no link or image form, and no line start followed
    by a hash, a greater-than sign, a bullet, a number or a table row.
    [sp] is the set of characters taken to separate a bullet or a number
    from its item. *)
Definition plain_text (sp : char -> bool) (text : str) : bool :=
  negb (anywhere asterisk_pair text) &&
  negb (anywhere strike_span text) &&
  negb (anywhere backtick_here text) &&
  negb (anywhere link_form text) &&
  negb (anywhere image_form text) &&
  negb (at_line_start hash_here true text) &&
  negb (at_line_start gt_here true text) &&
  negb (at_line_start (bullet_here sp) true text) &&
  negb (at_line_start (number_here sp) true text) &&
  negb (at_line_start row_here true text).


(** A position where a repetition of the set [p] cannot go on. *)
Definition stops (p : char -> bool) (rest : str) : Prop :=
  match rest with
  | [] => True
  | x :: _ => p x = false
  end.

(** ** Line-wise rewriting *)

(** [map_lines g cur s] rewrites every line of [cur ++ s] with [g] and keeps
    the line terminators, [cur] being the part of the current line already
    passed. *)
Fixpoint map_lines (g : str -> str) (cur : str) (s : str) : str :=
  match s with
  | [] => g cur
  | x :: s' =>
      if isLineTerminator x then g cur ++ x :: map_lines g [] s'
      else map_lines g (cur ++ [x]) s'
  end.

(** What the first table rule makes of a line. *)
Definition head_line (l : str) : str :=
  match row_content l with
  | Some c => lit "<thead><tr>" ++ cells (lit "th") c ++ lit "</tr></thead><tbody>"
  | None => l
  end.

(** What the second table rule makes of a line. *)
Definition row_line (l : str) : str :=
  match row_content l with
  | Some c => lit "<tr>" ++ cells (lit "td") c ++ lit "</tr></tbody></table>"
  | None => l
  end.

(** Lines joined by the newline character. *)
Fixpoint join_nl (ls : list str) : str :=
  match ls with
  | [] => []
  | [l] => l
  | l :: ls' => l ++ c_nl :: join_nl ls'
  end.

(** [sub] occurs in [s]. *)
Fixpoint starts_with (sub s : str) : bool :=
  match sub, s with
  | [], _ => true
  | a :: sub', b :: s' => (a =? b)%N && starts_with sub' s'
  | _ :: _, [] => false
  end.

Definition contains (sub s : str) : bool := anywhere (starts_with sub) s.


(** What a rule with replacement [f] makes of a line when [E] tells the
    captures of its match on the line, if any. *)
Definition rewrite_line (f : replacement) (E : str -> option caps) (l : str) : str :=
  match E l with Some c => f l c | None => l end.

(** The match of the table pattern on a line. *)
Definition table_line_caps (l : str) : option caps :=
  match row_content l with Some c => Some [(1, c)] | None => None end.


(** The renderer up to the two table rules. *)
Definition before_tables (text : str) : str :=
  image_rule (ol_rule (ul_rule (quote_rule (fence_rule (code_rule
    (heading_rule (link_rule (strike_rule (italic_rule (bold_rule text)))))))))).


(** ** Lists *)

(** A list item in the output, in a list of its own. *)
Definition li (c : str) : str := lit "<ul><li>" ++ c ++ lit "</li></ul>".

(** The match of the list pattern on a line. *)
Definition ul_line_caps (l : str) : option caps :=
  match l with
  | a :: b :: c => if is_char c_star a && isWhiteSpace b then Some [(1, c)] else None
  | _ => None
  end.

(** What the list rule makes of a line. *)
Definition ul_line (l : str) : str :=
  match l with
  | a :: b :: c => if is_char c_star a && isWhiteSpace b then li c else l
  | _ => l
  end.

(** The characters of an item on which no earlier rule acts: no line
    terminator, asterisk, tilde, opening bracket or backtick. *)
Definition item_char (x : char) : bool :=
  not_lt x && negb (is_char c_star x) && negb (is_char c_tilde x) &&
  negb (is_char c_lbracket x) && negb (is_char c_backtick x).

Definition head_is (q : char -> bool) (s : str) : bool :=
  match s with x :: _ => q x | [] => false end.


(** ** Headings *)

(** A run of [k] hashes. *)
Definition hashes (k : nat) : str := repeat c_hash k.

(** A necessary condition on the first character of a match, given the
    line-start flag. *)
Definition trigger := bool -> char -> bool.

Definition trig_char (c : char) : trigger := fun _ x => is_char c x.

(** No position of [p] satisfies the trigger. *)
Fixpoint quiet (t : trigger) (bol : bool) (p : str) : bool :=
  match p with
  | [] => true
  | x :: p' => negb (t bol x) && quiet t (isLineTerminator x) p'
  end.

(** The renderer up to the heading rule, and from it on. *)
Definition before_heading (text : str) : str :=
  link_rule (strike_rule (italic_rule (bold_rule text))).

Definition after_heading (text : str) : str :=
  table_row_rule (table_head_rule (image_rule (ol_rule (ul_rule (quote_rule
    (fence_rule (code_rule text))))))).


(** ** Bold and italic spans *)

Definition not_star (x : char) : bool := negb (is_char c_star x).

(** The characters of the content of a span: no asterisk and no line
    terminator. *)
Definition span_char (x : char) : bool := not_lt x && not_star x.

Definition count_stars (s : str) : nat :=
  length (filter (is_char c_star) s).


(** ** The chat component (ChatBox.vue, script part) *)

(** [Array.prototype.slice(start, end)] with integer arguments: a negative
    index counts from the end, and both are clamped to the array. *)
Definition slice (A : Type) (start final : Z) (l : list A) : list A :=
  let len := Z.of_nat (length l) in
  let k := if (start <? 0)%Z then Z.max (len + start) 0 else Z.min start len in
  let e := if (final <? 0)%Z then Z.max (len + final) 0 else Z.min final len in
  firstn (Z.to_nat (Z.max (e - k) 0)) (skipn (Z.to_nat k) l).

Module ChatBox.

Inductive Role : Type := User | Model.

(** The interface [MessageInt]: a role and the texts of the parts. *)
Record MessageInt : Type := { role : Role; parts : list str }.

(** The element [messageContainer] refers to, as far as the script uses it. *)
Record container : Type := { scrollTop : nat; scrollHeight : nat }.

(** The refs of the component. *)
Record component : Type := {
  newMessage : str;
  messages : list MessageInt;
  isTyping : bool;
  errorMessage : str;
  messageContainer : option container
}.

(** The refs as they are declared. *)
Definition initial : component :=
  {| newMessage := []; messages := []; isTyping := false; errorMessage := [];
     messageContainer := None |}.

Definition scrollToBottom (st : component) : component :=
  match messageContainer st with
  | Some c =>
      {| newMessage := newMessage st; messages := messages st;
         isTyping := isTyping st; errorMessage := errorMessage st;
         messageContainer :=
           Some {| scrollTop := scrollHeight c; scrollHeight := scrollHeight c |} |}
  | None => st
  end.

(** The body of the request to [/api/chat]. *)
Record request : Type := { message : str; history : list MessageInt }.

(** The [data] of the error [$fetch] throws: whether its [error] is truthy,
    and its [message]. *)
Record error_data : Type := { error : bool; data_message : str }.

(** What awaiting [$fetch] comes to: the [reply] of the response, or an
    exception with or without [data]. *)
Inductive fetch_result : Type :=
| Resolved (reply : str)
| Rejected (data : option error_data).

Definition greeting : MessageInt :=
  {| role := Model;
     parts := [lit "Hello! My name is Jasper Bot, How can I help you today?"] |}.

Definition msg_failed : str := lit "Failed to get response from the AI.".

(** [sendMessage] up to the [await]: nothing when the trimmed input is
    empty; else the state with the user message pushed, the input cleared,
    the typing flag set and the error cleared, and the request, whose
    history is taken from the messages after the push. *)
Definition sendMessage_request (st : component) : option (component * request) :=
  let userMessage := trim (newMessage st) in
  match userMessage with
  | [] => None
  | _ :: _ =>
      let msgs := messages st ++ [{| role := User; parts := [userMessage] |}] in
      let st1 :=
        scrollToBottom
          {| newMessage := []; messages := msgs; isTyping := true;
             errorMessage := []; messageContainer := messageContainer st |} in
      Some (st1, {| message := userMessage; history := slice (-10) (-1) msgs |})
  end.

(** [sendMessage] from the [await] on, acting on the state as it is when
    the request settles: the reply is pushed, or the error message is set;
    in both cases the typing flag is cleared. *)
Definition sendMessage_settle (res : fetch_result) (st : component) : component :=
  let st2 :=
    match res with
    | Resolved reply =>
        {| newMessage := newMessage st;
           messages := messages st ++ [{| role := Model; parts := [reply] |}];
           isTyping := isTyping st; errorMessage := errorMessage st;
           messageContainer := messageContainer st |}
    | Rejected data =>
        let details :=
          match data with
          | Some d => if error d then lit " Details: " ++ data_message d else []
          | None => []
          end in
        {| newMessage := newMessage st; messages := messages st;
           isTyping := isTyping st; errorMessage := msg_failed ++ details;
           messageContainer := messageContainer st |}
    end in
  scrollToBottom
    {| newMessage := newMessage st2; messages := messages st2;
       isTyping := false; errorMessage := errorMessage st2;
       messageContainer := messageContainer st2 |}.

(** [sendMessage] when nothing else happens while the request is out. *)
Definition sendMessage (fetch : request -> fetch_result) (st : component)
  : component :=
  match sendMessage_request st with
  | None => st
  | Some (st1, req) => sendMessage_settle (fetch req) st1
  end.

(** The [onMounted] hook. *)
Definition onMounted (st : component) : component :=
  scrollToBottom
    {| newMessage := newMessage st; messages := messages st ++ [greeting];
       isTyping := isTyping st; errorMessage := errorMessage st;
       messageContainer := messageContainer st |}.

(** The input bound to [newMessage] by [v-model]. *)
Definition type_input (text : str) (st : component) : component :=
  {| newMessage := text; messages := messages st; isTyping := isTyping st;
     errorMessage := errorMessage st; messageContainer := messageContainer st |}.

(** The page attaching, resizing or scrolling the container element. *)
Definition set_container (c : option container) (st : component) : component :=
  {| newMessage := newMessage st; messages := messages st;
     isTyping := isTyping st; errorMessage := errorMessage st;
     messageContainer := c |}.

(** The markup the template shows for a message: the renderer applied to
    the text of the first part, [None] when there is no first part. *)
Definition rendered (m : MessageInt) : option str :=
  match parts m with
  | text :: _ => Some (parseMarkdownToHTML text)
  | [] => None
  end.

(** The [disabled] attribute of the send button. *)
Definition send_disabled (st : component) : bool :=
  negb (nonempty (trim (newMessage st))) || isTyping st.

(** The states the component goes through, with the number of requests
    that are out: mounted, then any sequence of input, of calls of
    [sendMessage] and of requests settling, in any interleaving. *)
Inductive reachable : nat -> component -> Prop :=
| reach_mounted (c : option container) :
    reachable 0 (onMounted (set_container c initial))
| reach_input (n : nat) (st : component) (text : str) :
    reachable n st -> reachable n (type_input text st)
| reach_layout (n : nat) (st : component) (c : option container) :
    reachable n st -> reachable n (set_container c st)
| reach_request (n : nat) (st st1 : component) (req : request) :
    reachable n st -> sendMessage_request st = Some (st1, req) ->
    reachable (S n) st1
| reach_settle (n : nat) (st : component) (res : fetch_result) :
    reachable (S n) st -> reachable n (sendMessage_settle res st).

(** The request as the handler receives it: the message is a string and
    the history an array, which is an object. *)
Definition body_of_request (req : request) : ChatApi.body :=
  ChatApi.BodyOf (ChatApi.VString (message req)) ChatApi.VObject.

End ChatBox.


(** ** Matches with their captures *)

(** [langc r bol w rest c c']: the pattern [r] can match the word [w] as in
    [lang], turning the captures [c] into [c']. *)
Fixpoint langc (r : regex) (bol : bool) (w rest : str) (c c' : caps) : Prop :=
  match r with
  | RGroup i r' => exists c0, langc r' bol w rest c c0 /\ c' = (i, w) :: c0
  | RSeq r1 r2 =>
      exists w1 w2 c1, w = w1 ++ w2 /\ langc r1 bol w1 (w2 ++ rest) c c1 /\
                       langc r2 (bol_after bol w1) w2 rest c1 c'
  | _ => lang r bol w rest /\ c' = c
  end.

(** The number of occurrences of a character. *)
Definition count_char (c : char) (s : str) : nat :=
  length (filter (is_char c) s).

(** The characters no pattern of the renderer consumes: not whitespace, not
    a digit, and none of the characters the patterns name. *)
Definition kept_char (c : char) : bool :=
  negb (isWhiteSpace c) && negb (isDigit c) &&
  negb (existsb (is_char c)
          [c_star; c_tilde; c_lbracket; c_rbracket; c_lparen; c_rparen;
           c_hash; c_backtick; c_gt; c_dot; c_bang; c_pipe]).


(** ** Texts rendered line by line *)

(** An exclamation mark directly followed by an opening bracket. *)
Definition bang_bracket (s : str) : bool :=
  match s with
  | a :: b :: _ => is_char c_bang a && is_char c_lbracket b
  | _ => false
  end.

(** Whitespace, if any, and then a line terminator. *)
Fixpoint blank_to_break (s : str) : bool :=
  match s with
  | [] => false
  | x :: s' => isLineTerminator x || (isWhiteSpace x && blank_to_break s')
  end.

(** A heading marker alone on its line, with a line after it: one to six
    hashes and only whitespace up to the line terminator. *)
Definition bare_heading (s : str) : bool :=
  let h := take_while (is_char c_hash) s in
  nonempty h && (length h <=? 6) &&
  blank_to_break (drop_while (is_char c_hash) s).

(** A quotation marker alone on its line, with a line after it. *)
Definition bare_quote (s : str) : bool :=
  match s with
  | x :: r => is_char c_gt x && blank_to_break r
  | [] => false
  end.

(** What the heading rule makes of a line: a line that starts with hashes
    becomes a heading whose level is their number, six at most, and whose
    content is what follows those hashes and the whitespace after them. *)
Definition heading_line_caps (l : str) : option caps :=
  let n := length (take_while (is_char c_hash) l) in
  if n =? 0 then None
  else Some [(2, drop_while isWhiteSpace (skipn (Nat.min n 6) l));
             (1, hashes (Nat.min n 6))].

Definition heading_line (l : str) : str :=
  let n := length (take_while (is_char c_hash) l) in
  if n =? 0 then l
  else
    lit "<h" ++ number_to_str (Nat.min n 6) ++ lit ">" ++
    drop_while isWhiteSpace (skipn (Nat.min n 6) l) ++
    lit "</h" ++ number_to_str (Nat.min n 6) ++ lit ">".

(** What the quotation rule makes of a line. *)
Definition quote_line_caps (l : str) : option caps :=
  match l with
  | x :: r => if is_char c_gt x then Some [(1, drop_while isWhiteSpace r)] else None
  | [] => None
  end.

Definition quote_line (l : str) : str :=
  match l with
  | x :: r =>
      if is_char c_gt x
      then lit "<blockquote>" ++ drop_while isWhiteSpace r ++ lit "</blockquote>"
      else l
  | [] => l
  end.

(** What the numbered-list rule makes of a line. *)
Definition ol_line_caps (l : str) : option caps :=
  if nonempty (take_while isDigit l) then
    match drop_while isDigit l with
    | a :: b :: c => if is_char c_dot a && isWhiteSpace b then Some [(1, c)] else None
    | _ => None
    end
  else None.

Definition ol_line (l : str) : str :=
  match ol_line_caps l with
  | Some _ => lit "<ol><li>" ++ skipn 2 (drop_while isDigit l) ++ lit "</li></ol>"
  | None => l
  end.

(** What the renderer makes of a line of a text without inline constructs:
    the five rules anchored at the line start, in the order of the
    source. *)
Definition render_line (l : str) : str :=
  head_line (ol_line (ul_line (quote_line (heading_line l)))).

(** A text whose constructs are all line constructs: it holds no two
    asterisks on one line, no strikethrough span, no backtick, no link
    form and no exclamation mark directly before an opening bracket; and
    none of its lines but the last is a heading marker, a quotation
    marker, an asterisk or a number with its dot, alone on the line. *)
Definition line_text (text : str) : bool :=
  negb (anywhere asterisk_pair text) &&
  negb (anywhere strike_span text) &&
  negb (anywhere backtick_here text) &&
  negb (anywhere link_form text) &&
  negb (anywhere bang_bracket text) &&
  negb (at_line_start bare_heading true text) &&
  negb (at_line_start bare_quote true text) &&
  negb (at_line_start (bullet_here isLineTerminator) true text) &&
  negb (at_line_start (number_here isLineTerminator) true text).

(** The characters of the tags the line rules write: no line terminator,
    backtick, exclamation mark or opening bracket. *)
Definition tag_char (x : char) : bool :=
  not_lt x && negb (is_char c_backtick x) && negb (is_char c_bang x) &&
  negb (is_char c_lbracket x).

Definition is_tag (t : str) : bool :=
  head_is (is_char 60%N) t && forallb tag_char t.

(** A line function that leaves a line alone or wraps its end part in a
    pair of tags. *)
Definition wraps (g : str -> str) : Prop :=
  forall l,
    g l = l \/
    exists p c t1 t2,
      l = p ++ c /\ g l = t1 ++ c ++ t2 /\ is_tag t1 = true /\ is_tag t2 = true.

(** The renderer up to the list rule, and after it. *)
Definition before_list (text : str) : str :=
  quote_rule (fence_rule (code_rule (heading_rule (before_heading text)))).

Definition after_list (text : str) : str :=
  table_row_rule (table_head_rule (image_rule (ol_rule text))).

(** Every asterisk of [p] is followed, in [p], by a character other than
    an asterisk. *)
Fixpoint lone_stars (p : str) : bool :=
  match p with
  | [] => true
  | x :: p' =>
      (negb (is_char c_star x) || head_is not_star p') && lone_stars p'
  end.

(** * Properties *)

(** ** Evaluations of the renderer *)

(** C1: on the image construct with a non-empty alternative text the link
    rule, which runs first, takes the bracket-parenthesis part, so the
    renderer returns an exclamation mark followed by an anchor and not the
    img element.  The link rule already does this, and the image rule finds
    nothing in its result; with an empty alternative text the link pattern
    does not match and the image rule applies. *)
Theorem image_shadowed_by_link :
  parseMarkdownToHTML (lit "![alt](http://img)")
  = lit "!<a href=" ++ [dq] ++ lit "http://img" ++ [dq] ++ lit ">alt</a>"
  /\ parseMarkdownToHTML (lit "![alt](http://img)")
     <> lit "<img src=" ++ [dq] ++ lit "http://img" ++ [dq] ++ lit " alt=" ++
        [dq] ++ lit "alt" ++ [dq] ++ lit "/>"
  /\ link_rule (lit "![alt](http://img)")
     = lit "!<a href=" ++ [dq] ++ lit "http://img" ++ [dq] ++ lit ">alt</a>"
  /\ image_rule (link_rule (lit "![alt](http://img)"))
     = link_rule (lit "![alt](http://img)")
  /\ parseMarkdownToHTML (lit "![](http://img)")
     = lit "<img src=" ++ [dq] ++ lit "http://img" ++ [dq] ++ lit " alt=" ++
       [dq] ++ [dq] ++ lit "/>".
Proof.
  split; [vm_compute; reflexivity|].
  split; [vm_compute; discriminate|].
  repeat split; vm_compute; reflexivity.
Qed.

(** C3: on a span fenced by triple backticks the inline-code rule, which
    runs first, consumes the innermost pair of backticks, so the renderer
    returns a code element between two pairs of backticks and not a pre
    element.  The code-block rule alone would give the pre element; after
    the inline-code rule it finds no three backticks in a row. *)
Theorem fence_shadowed_by_inline_code :
  parseMarkdownToHTML (lit "```block```") = lit "``<code>block</code>``"
  /\ parseMarkdownToHTML (lit "```block```") <> lit "<pre><code>block</code></pre>"
  /\ code_rule (lit "```block```") = lit "``<code>block</code>``"
  /\ fence_rule (code_rule (lit "```block```")) = code_rule (lit "```block```")
  /\ fence_rule (lit "```block```") = lit "<pre><code>block</code></pre>".
Proof.
  split; [vm_compute; reflexivity|].
  split; [vm_compute; discriminate|].
  repeat split; vm_compute; reflexivity.
Qed.

(** C7: the renderer is not idempotent: rendering the fenced span twice
    differs from rendering it once. *)
Theorem parseMarkdownToHTML_not_idempotent :
  exists x : str,
    parseMarkdownToHTML (parseMarkdownToHTML x) <> parseMarkdownToHTML x.
Proof. exists (lit "```block```"). vm_compute. discriminate. Qed.

(** ** The handler *)




(** ** The matcher against the declarative reading *)

Lemma bol_after_app (bol : bool) (u v : str) :
  bol_after bol (u ++ v) = bol_after (bol_after bol u) v.
Proof. revert bol. induction u as [|x u IH]; intro bol; simpl; auto. Qed.

Lemma within_dec_S (hi : option nat) (n : nat) :
  more_allowed hi = true -> within (dec hi) n -> within hi (S n).
Proof.
  destruct hi as [[|h]|]; simpl; intros Hm Hw; try discriminate; auto. lia.
Qed.

Section Soundness.

Variable A : Type.

Lemma rep_greedy_sound (p : char -> bool) (s : str) :
  forall lo hi bol (k : bool -> str -> option A) res,
    rep_greedy p lo hi bol s k = Some res ->
    exists w rest,
      s = w ++ rest /\ forallb p w = true /\ lo <= length w /\
      within hi (length w) /\ k (bol_after bol w) rest = Some res.
Proof.
  induction s as [|x s IH]; intros lo hi bol k res H; simpl in H.
  - destruct lo; [|discriminate].
    exists [], []. simpl. repeat split; auto. destruct hi; simpl; lia.
  - assert (Hstop : match lo with O => k bol (x :: s) | S _ => None end = Some res ->
                    exists w rest,
                      x :: s = w ++ rest /\ forallb p w = true /\ lo <= length w /\
                      within hi (length w) /\ k (bol_after bol w) rest = Some res).
    { intro Hs. destruct lo; [|discriminate].
      exists [], (x :: s). simpl. repeat split; auto. destruct hi; simpl; lia. }
    destruct (p x && more_allowed hi) eqn:Hp; [|auto].
    destruct (rep_greedy p (Nat.pred lo) (dec hi) (isLineTerminator x) s k) eqn:Hr;
      [|auto].
    inversion H; subst; clear H.
    apply andb_prop in Hp. destruct Hp as [Hpx Hm].
    destruct (IH _ _ _ _ _ Hr) as (w & rest & Hs & Hall & Hlo & Hhi & Hk).
    exists (x :: w), rest. simpl. rewrite Hpx, Hall. subst s.
    repeat split; auto; [lia | apply within_dec_S; auto].
Qed.

Lemma rep_lazy_sound (p : char -> bool) (s : str) :
  forall lo hi bol (k : bool -> str -> option A) res,
    rep_lazy p lo hi bol s k = Some res ->
    exists w rest,
      s = w ++ rest /\ forallb p w = true /\ lo <= length w /\
      within hi (length w) /\ k (bol_after bol w) rest = Some res.
Proof.
  induction s as [|x s IH]; intros lo hi bol k res H; simpl in H.
  - destruct lo; [|discriminate].
    exists [], []. simpl. repeat split; auto. destruct hi; simpl; lia.
  - assert (Hmore : (if p x && more_allowed hi
                     then rep_lazy p (Nat.pred lo) (dec hi) (isLineTerminator x) s k
                     else None) = Some res ->
                    exists w rest,
                      x :: s = w ++ rest /\ forallb p w = true /\ lo <= length w /\
                      within hi (length w) /\ k (bol_after bol w) rest = Some res).
    { intro Hs. destruct (p x && more_allowed hi) eqn:Hp; [|discriminate].
      apply andb_prop in Hp. destruct Hp as [Hpx Hm].
      destruct (IH _ _ _ _ _ Hs) as (w & rest & Hs' & Hall & Hlo & Hhi & Hk).
      exists (x :: w), rest. simpl. rewrite Hpx, Hall. subst s.
      repeat split; auto; [lia | apply within_dec_S; auto]. }
    destruct lo; [|auto].
    destruct (k bol (x :: s)) eqn:Hk; [|auto].
    inversion H; subst; clear H.
    exists [], (x :: s). simpl. repeat split; auto. destruct hi; simpl; lia.
Qed.

(** Whatever the matcher returns comes from a word of the pattern's
    language after which the continuation succeeded. *)
Lemma rmatch_sound (r : regex) :
  forall bol s c (k : bool -> str -> caps -> option A) res,
    rmatch r bol s c k = Some res ->
    exists w rest c',
      s = w ++ rest /\ lang r bol w rest /\ k (bol_after bol w) rest c' = Some res.
Proof.
  induction r as [a|a lo hi g| | |i r IH|r1 IH1 r2 IH2];
    intros bol s c k res H; simpl in H.
  - destruct s as [|x s]; [discriminate|].
    destruct (cset_mem a x) eqn:Ha; [|discriminate].
    exists [x], s, c. simpl. eauto.
  - assert (Hex : exists w rest,
               s = w ++ rest /\ forallb (cset_mem a) w = true /\ lo <= length w /\
               within hi (length w) /\ k (bol_after bol w) rest c = Some res).
    { destruct g;
        [ apply rep_greedy_sound in H | apply rep_lazy_sound in H ]; exact H. }
    destruct Hex as (w & rest & Hs & Hall & Hlo & Hhi & Hk).
    exists w, rest, c. simpl. auto.
  - destruct bol; [|discriminate]. exists [], s, c. simpl. auto.
  - exists [], s, c. simpl. repeat split; auto.
    + unfold line_end. destruct s as [|x s]; auto.
      destruct (isLineTerminator x); [auto|discriminate].
    + destruct s as [|x s]; auto.
      destruct (isLineTerminator x); [auto|discriminate].
  - destruct (IH _ _ _ _ _ H) as (w & rest & c' & Hs & Hl & Hk).
    exists w, rest. eexists. simpl. eauto.
  - destruct (IH1 _ _ _ _ _ H) as (w1 & rest1 & c1 & Hs1 & Hl1 & Hk1).
    destruct (IH2 _ _ _ _ _ Hk1) as (w2 & rest & c2 & Hs2 & Hl2 & Hk2).
    exists (w1 ++ w2), rest, c2. subst. rewrite <- app_assoc.
    split; [reflexivity|]. split.
    + simpl. exists w1, w2. auto.
    + rewrite bol_after_app. exact Hk2.
Qed.

End Soundness.

(** A match found by [exec_at] is a word of the language at the start of
    the input. *)
Lemma exec_at_sound (r : regex) (bol : bool) (s : str) (res : nat * caps) :
  exec_at r bol s = Some res ->
  exists w rest, s = w ++ rest /\ lang r bol w rest.
Proof.
  unfold exec_at. intro H.
  destruct (rmatch_sound _ _ _ _ _ H) as (w & rest & c' & Hs & Hl & _).
  eauto.
Qed.

(** ** The replacement loop *)

Lemma replace_go_no_match (r : regex) (f : replacement) (s : str) :
  forall bol,
    (forall a b, s = a ++ b -> exec_at r (bol_after bol a) b = None) ->
    replace_go r f 0 bol s = s.
Proof.
  induction s as [|x s IH]; intros bol H; cbn [replace_go].
  - pose proof (H [] [] eq_refl) as H0. cbn [bol_after] in H0.
    rewrite H0. reflexivity.
  - pose proof (H [] (x :: s) eq_refl) as H0. cbn [bol_after] in H0.
    rewrite H0. f_equal.
    apply IH. intros a b Hab. apply (H (x :: a) b). simpl. now rewrite Hab.
Qed.

Lemma replace_go_prefix (r : regex) (f : replacement) (p : str) :
  forall bol s,
    (forall a x b, p = a ++ x :: b ->
                   exec_at r (bol_after bol a) (x :: b ++ s) = None) ->
    replace_go r f 0 bol (p ++ s) = p ++ replace_go r f 0 (bol_after bol p) s.
Proof.
  induction p as [|x p IH]; intros bol s H; [reflexivity|].
  cbn [app replace_go bol_after].
  pose proof (H [] x p eq_refl) as H0. cbn [bol_after] in H0.
  rewrite H0. f_equal.
  apply IH. intros a y b Hab. apply (H (x :: a) y b). simpl. now rewrite Hab.
Qed.

Lemma replace_go_skip (r : regex) (f : replacement) (w : str) :
  forall bol s,
    replace_go r f (length w) bol (w ++ s) = replace_go r f 0 (bol_after bol w) s.
Proof.
  induction w as [|x w IH]; intros bol s; [reflexivity|].
  cbn [length app replace_go bol_after]. apply IH.
Qed.

Lemma firstn_length_app (w s : str) : firstn (length w) (w ++ s) = w.
Proof.
  induction w as [|x w IH]; simpl; [destruct s; reflexivity | now rewrite IH].
Qed.

(** The step of the loop at a position where the pattern matches a
    non-empty word. *)
Lemma replace_go_match (r : regex) (f : replacement) (bol : bool)
      (w s : str) (c : caps) :
  w <> [] ->
  exec_at r bol (w ++ s) = Some (length w, c) ->
  replace_go r f 0 bol (w ++ s) = f w c ++ replace_go r f 0 (bol_after bol w) s.
Proof.
  intros Hw He. destruct w as [|x w]; [contradiction|].
  pose proof (firstn_length_app (x :: w) s) as Hf.
  cbn [app length] in *. cbn [replace_go]. rewrite He, Hf.
  f_equal. cbn [bol_after]. apply replace_go_skip.
Qed.

(** ** Recognisers and positions *)

Lemma anywhere_app_r (P : str -> bool) (a b : str) :
  P b = true -> anywhere P (a ++ b) = true.
Proof.
  intro H. induction a as [|x a IH]; simpl.
  - destruct b; simpl; rewrite H; reflexivity.
  - rewrite IH. apply orb_true_r.
Qed.

Lemma at_line_start_app_r (P : str -> bool) (a b : str) :
  forall bol, bol_after bol a = true -> P b = true ->
              at_line_start P bol (a ++ b) = true.
Proof.
  induction a as [|x a IH]; intros bol Hb H; simpl in *.
  - subst bol. destruct b; simpl; rewrite H; reflexivity.
  - rewrite (IH _ Hb H). apply orb_true_r.
Qed.

(** A pattern whose matches all start a construct that occurs nowhere in
    the text leaves the text unchanged. *)
Lemma replace_id_anywhere (r : regex) (f : replacement) (P : str -> bool)
      (text : str) :
  (forall bol s res, exec_at r bol s = Some res -> P s = true) ->
  anywhere P text = false ->
  replace r f text = text.
Proof.
  intros Hsound Hno. unfold replace. apply replace_go_no_match.
  intros a b Hab.
  destruct (exec_at r (bol_after true a) b) as [res|] eqn:He; [|reflexivity].
  apply Hsound in He. rewrite Hab, (anywhere_app_r P a b He) in Hno.
  discriminate.
Qed.

(** The same for a pattern anchored at the start of a line. *)
Lemma replace_id_line_start (r : regex) (f : replacement) (P : str -> bool)
      (text : str) :
  (forall bol s res, exec_at r bol s = Some res -> bol = true /\ P s = true) ->
  at_line_start P true text = false ->
  replace r f text = text.
Proof.
  intros Hsound Hno. unfold replace. apply replace_go_no_match.
  intros a b Hab.
  destruct (exec_at r (bol_after true a) b) as [res|] eqn:He; [|reflexivity].
  apply Hsound in He. destruct He as [Hb HP].
  rewrite Hab, (at_line_start_app_r P a b true Hb HP) in Hno.
  discriminate.
Qed.

(** ** Prefixes and runs *)

Lemma take_while_app_stop (p : char -> bool) (u : str) (x : char) (v : str) :
  forallb p u = true -> p x = false -> take_while p (u ++ x :: v) = u.
Proof.
  intros Hu Hx. induction u as [|y u IH]; simpl in *.
  - now rewrite Hx.
  - apply andb_prop in Hu. destruct Hu as [Hy Hu]. rewrite Hy, IH; auto.
Qed.

Lemma drop_while_app_stop (p : char -> bool) (u : str) (x : char) (v : str) :
  forallb p u = true -> p x = false -> drop_while p (u ++ x :: v) = x :: v.
Proof.
  intros Hu Hx. induction u as [|y u IH]; simpl in *.
  - now rewrite Hx.
  - apply andb_prop in Hu. destruct Hu as [Hy Hu]. rewrite Hy, IH; auto.
Qed.

Lemma take_while_app_all (p : char -> bool) (u v : str) :
  forallb p u = true -> take_while p (u ++ v) = u ++ take_while p v.
Proof.
  intro Hu. induction u as [|y u IH]; simpl in *; [reflexivity|].
  apply andb_prop in Hu. destruct Hu as [Hy Hu]. rewrite Hy, IH; auto.
Qed.

Lemma take_while_end (p : char -> bool) (u : str) :
  forallb p u = true -> take_while p u = u.
Proof.
  intro Hu. rewrite <- (app_nil_r u) at 1.
  rewrite take_while_app_all by assumption. simpl. apply app_nil_r.
Qed.

(** The line of a text that consists of a line and a line end. *)
Lemma line_of_app_end (u rest : str) :
  forallb not_lt u = true -> line_end rest -> line_of (u ++ rest) = u.
Proof.
  intros Hu Hr. unfold line_of. destruct rest as [|x rest].
  - rewrite app_nil_r. now apply take_while_end.
  - apply take_while_app_stop; auto. unfold not_lt. simpl in Hr. now rewrite Hr.
Qed.

Lemma has_double_app_r (c : char) (u v : str) :
  has_double c (u ++ c :: c :: v) = true.
Proof.
  induction u as [|y u IH].
  - simpl. unfold is_char. now rewrite N.eqb_refl.
  - cbn [app]. cbn [has_double].
    destruct (u ++ c :: c :: v) eqn:E.
    + destruct u; discriminate.
    + rewrite IH. apply orb_true_r.
Qed.

(** ** What a match of each pattern starts with *)

Ltac lang_inv H :=
  simpl in H;
  repeat match goal with
         | H0 : exists _, _ |- _ => destruct H0
         | H0 : _ /\ _ |- _ => destruct H0
         end;
  subst.

Ltac chars_eq :=
  repeat match goal with
         | H0 : N.eqb _ _ = true |- _ => apply N.eqb_eq in H0; subst
         end.

Ltac flat := repeat (cbn [app]; rewrite <- app_assoc); cbn [app].

Lemma asterisk_pair_intro (u v : str) :
  forallb not_lt u = true -> asterisk_pair (c_star :: u ++ c_star :: v) = true.
Proof.
  intro Hu. unfold asterisk_pair, line_of.
  rewrite take_while_app_all by assumption.
  rewrite existsb_app. cbn. apply orb_true_r.
Qed.

Lemma strike_span_intro (u v : str) :
  forallb not_lt u = true ->
  strike_span (c_tilde :: c_tilde :: u ++ c_tilde :: c_tilde :: v) = true.
Proof.
  intro Hu. unfold strike_span, line_of.
  rewrite take_while_app_all by assumption.
  change (take_while not_lt (c_tilde :: c_tilde :: v))
    with (c_tilde :: c_tilde :: take_while not_lt v).
  rewrite has_double_app_r. reflexivity.
Qed.

Lemma nonempty_length (s : str) : 1 <= length s -> nonempty s = true.
Proof. destruct s; simpl; [lia|reflexivity]. Qed.

Lemma bracket_paren_intro (empty_ok : bool) (t u v : str) :
  forallb (fun x => negb (is_char c_rbracket x)) t = true ->
  empty_ok || nonempty t = true ->
  forallb (fun x => negb (is_char c_rparen x)) u = true ->
  nonempty u = true ->
  bracket_paren empty_ok (t ++ c_rbracket :: c_lparen :: u ++ c_rparen :: v) = true.
Proof.
  intros Ht Hne Hu Hnu. unfold bracket_paren.
  rewrite take_while_app_stop, drop_while_app_stop by (auto; reflexivity).
  rewrite take_while_app_stop, drop_while_app_stop by (auto; reflexivity).
  rewrite Hne, Hnu. reflexivity.
Qed.

Lemma bold_shape bol s res :
  exec_at bold_re bol s = Some res -> asterisk_pair s = true.
Proof.
  intro H. apply exec_at_sound in H. destruct H as (w & rest & Hs & Hl).
  unfold bold_re, rch, rstar_lazy in Hl. lang_inv Hl. chars_eq. flat.
  apply (asterisk_pair_intro []). reflexivity.
Qed.

Lemma italic_shape bol s res :
  exec_at italic_re bol s = Some res -> asterisk_pair s = true.
Proof.
  intro H. apply exec_at_sound in H. destruct H as (w & rest & Hs & Hl).
  unfold italic_re, rch, rstar_lazy in Hl. lang_inv Hl. chars_eq. flat.
  apply asterisk_pair_intro. assumption.
Qed.

Lemma strike_shape bol s res :
  exec_at strike_re bol s = Some res -> strike_span s = true.
Proof.
  intro H. apply exec_at_sound in H. destruct H as (w & rest & Hs & Hl).
  unfold strike_re, rch, rstar_lazy in Hl. lang_inv Hl. chars_eq. flat.
  apply strike_span_intro. assumption.
Qed.

Lemma link_shape bol s res :
  exec_at link_re bol s = Some res -> link_form s = true.
Proof.
  intro H. apply exec_at_sound in H. destruct H as (w & rest & Hs & Hl).
  unfold link_re, rch, rplus in Hl. lang_inv Hl. chars_eq. flat.
  unfold link_form. unfold is_char at 1. rewrite N.eqb_refl. cbn [andb].
  apply bracket_paren_intro;
    [ assumption | cbn [orb]; apply nonempty_length; assumption
    | assumption | apply nonempty_length; assumption ].
Qed.

Lemma image_shape bol s res :
  exec_at image_re bol s = Some res -> image_form s = true.
Proof.
  intro H. apply exec_at_sound in H. destruct H as (w & rest & Hs & Hl).
  unfold image_re, rch, rplus, rstar in Hl. lang_inv Hl. chars_eq. flat.
  unfold image_form. unfold is_char at 1 2. rewrite !N.eqb_refl. cbn [andb].
  apply bracket_paren_intro;
    [ assumption | reflexivity
    | assumption | apply nonempty_length; assumption ].
Qed.

Lemma code_shape bol s res :
  exec_at code_re bol s = Some res -> backtick_here s = true.
Proof.
  intro H. apply exec_at_sound in H. destruct H as (w & rest & Hs & Hl).
  unfold code_re, rch, rplus in Hl. lang_inv Hl. chars_eq. reflexivity.
Qed.

Lemma fence_shape bol s res :
  exec_at fence_re bol s = Some res -> backtick_here s = true.
Proof.
  intro H. apply exec_at_sound in H. destruct H as (w & rest & Hs & Hl).
  unfold fence_re, rch, rplus_lazy in Hl. lang_inv Hl. chars_eq. reflexivity.
Qed.

Lemma heading_shape bol s res :
  exec_at heading_re bol s = Some res -> bol = true /\ hash_here s = true.
Proof.
  intro H. apply exec_at_sound in H. destruct H as (w & rest & Hs & Hl).
  unfold heading_re, rch, rstar in Hl. lang_inv Hl. split; [reflexivity|].
  match goal with
  | Hn : 1 <= length ?l |- _ => destruct l as [|y l']; [simpl in Hn; lia|]
  end.
  match goal with
  | Hf : forallb _ (_ :: _) = true |- _ =>
      simpl in Hf; apply andb_prop in Hf; destruct Hf as [Hy _]
  end.
  chars_eq. reflexivity.
Qed.

Lemma quote_shape bol s res :
  exec_at quote_re bol s = Some res -> bol = true /\ gt_here s = true.
Proof.
  intro H. apply exec_at_sound in H. destruct H as (w & rest & Hs & Hl).
  unfold quote_re, rch, rstar in Hl. lang_inv Hl. chars_eq.
  split; reflexivity.
Qed.

Lemma ul_shape bol s res :
  exec_at ul_re bol s = Some res -> bol = true /\ bullet_here isWhiteSpace s = true.
Proof.
  intro H. apply exec_at_sound in H. destruct H as (w & rest & Hs & Hl).
  unfold ul_re, rch, rstar in Hl. lang_inv Hl. chars_eq.
  split; [reflexivity|]. flat. unfold bullet_here, is_char.
  rewrite N.eqb_refl. assumption.
Qed.

Lemma ol_shape bol s res :
  exec_at ol_re bol s = Some res -> bol = true /\ number_here isWhiteSpace s = true.
Proof.
  intro H. apply exec_at_sound in H. destruct H as (w & rest & Hs & Hl).
  unfold ol_re, rch, rstar, rplus in Hl. lang_inv Hl. chars_eq.
  split; [reflexivity|]. flat. unfold number_here.
  rewrite take_while_app_stop, drop_while_app_stop by (auto; reflexivity).
  unfold is_char. rewrite N.eqb_refl.
  rewrite nonempty_length by assumption. assumption.
Qed.

Lemma row_content_intro (c : str) :
  nonempty c = true -> row_content (c_pipe :: c ++ [c_pipe]) = Some c.
Proof.
  intro Hc. unfold row_content. unfold is_char at 1. rewrite N.eqb_refl.
  rewrite rev_app_distr. cbn [rev app]. unfold is_char. rewrite N.eqb_refl.
  destruct c as [|y c]; [discriminate|].
  replace (nonempty (rev (y :: c))) with true.
  - now rewrite rev_involutive.
  - simpl. destruct (rev c); reflexivity.
Qed.

Lemma row_here_intro (c rest : str) :
  forallb not_lt c = true -> nonempty c = true -> line_end rest ->
  row_here (c_pipe :: c ++ c_pipe :: rest) = true.
Proof.
  intros Hc Hn Hr. unfold row_here.
  assert (E : c_pipe :: c ++ c_pipe :: rest = (c_pipe :: c ++ [c_pipe]) ++ rest).
  { cbn [app]. rewrite <- app_assoc. reflexivity. }
  rewrite E, line_of_app_end, row_content_intro; auto.
  cbn [forallb]. rewrite forallb_app, Hc. reflexivity.
Qed.

Lemma table_shape bol s res :
  exec_at table_re bol s = Some res -> bol = true /\ row_here s = true.
Proof.
  intro H. apply exec_at_sound in H. destruct H as (w & rest & Hs & Hl).
  unfold table_re, rch, rplus in Hl. lang_inv Hl. chars_eq.
  split; [reflexivity|]. flat.
  apply row_here_intro; auto using nonempty_length.
Qed.

(** ** Each rule is the identity where its construct is absent *)

Lemma bold_rule_id (text : str) :
  anywhere asterisk_pair text = false -> bold_rule text = text.
Proof. apply replace_id_anywhere. exact bold_shape. Qed.

Lemma italic_rule_id (text : str) :
  anywhere asterisk_pair text = false -> italic_rule text = text.
Proof. apply replace_id_anywhere. exact italic_shape. Qed.

Lemma strike_rule_id (text : str) :
  anywhere strike_span text = false -> strike_rule text = text.
Proof. apply replace_id_anywhere. exact strike_shape. Qed.

Lemma link_rule_id (text : str) :
  anywhere link_form text = false -> link_rule text = text.
Proof. apply replace_id_anywhere. exact link_shape. Qed.

Lemma heading_rule_id (text : str) :
  at_line_start hash_here true text = false -> heading_rule text = text.
Proof. apply replace_id_line_start. exact heading_shape. Qed.

Lemma code_rule_id (text : str) :
  anywhere backtick_here text = false -> code_rule text = text.
Proof. apply replace_id_anywhere. exact code_shape. Qed.

Lemma fence_rule_id (text : str) :
  anywhere backtick_here text = false -> fence_rule text = text.
Proof. apply replace_id_anywhere. exact fence_shape. Qed.

Lemma quote_rule_id (text : str) :
  at_line_start gt_here true text = false -> quote_rule text = text.
Proof. apply replace_id_line_start. exact quote_shape. Qed.

Lemma ul_rule_id (text : str) :
  at_line_start (bullet_here isWhiteSpace) true text = false -> ul_rule text = text.
Proof. apply replace_id_line_start. exact ul_shape. Qed.

Lemma ol_rule_id (text : str) :
  at_line_start (number_here isWhiteSpace) true text = false -> ol_rule text = text.
Proof. apply replace_id_line_start. exact ol_shape. Qed.

Lemma image_rule_id (text : str) :
  anywhere image_form text = false -> image_rule text = text.
Proof. apply replace_id_anywhere. exact image_shape. Qed.

Lemma table_head_rule_id (text : str) :
  at_line_start row_here true text = false -> table_head_rule text = text.
Proof. apply replace_id_line_start. exact table_shape. Qed.

Lemma table_row_rule_id (text : str) :
  at_line_start row_here true text = false -> table_row_rule text = text.
Proof. apply replace_id_line_start. exact table_shape. Qed.

Lemma plain_text_parse (text : str) :
  plain_text isWhiteSpace text = true -> parseMarkdownToHTML text = text.
Proof.
  unfold plain_text. intro H.
  repeat match type of H with
         | andb _ _ = true =>
             let H1 := fresh "Hp" in
             apply andb_prop in H; destruct H as [H H1];
             apply negb_true_iff in H1
         end.
  apply negb_true_iff in H.
  unfold parseMarkdownToHTML.
  rewrite (bold_rule_id text), (italic_rule_id text), (strike_rule_id text),
    (link_rule_id text), (heading_rule_id text), (code_rule_id text),
    (fence_rule_id text), (quote_rule_id text), (ul_rule_id text),
    (ol_rule_id text), (image_rule_id text), (table_head_rule_id text),
    (table_row_rule_id text);
    auto.
Qed.

(** C4, as amended: a text with no markdown construct is returned
    unchanged, where a bullet is an asterisk followed by any whitespace
    character (a line terminator included) and a number is digits, a dot
    and any whitespace character; markup characters and the ampersand are
    not escaped. *)
Theorem plain_text_unchanged (text : str) :
  plain_text isWhiteSpace text = true ->
  parseMarkdownToHTML text = text
  /\ parseMarkdownToHTML (lit "<script>alert(1)</script>")
     = lit "<script>alert(1)</script>"
  /\ parseMarkdownToHTML (lit "if a < b && b > c then 5 * d")
     = lit "if a < b && b > c then 5 * d".
Proof.
  intro H. split; [now apply plain_text_parse|].
  split; apply plain_text_parse; vm_compute; reflexivity.
Qed.

Lemma plain_text_unchanged_witness :
  plain_text isWhiteSpace (lit "Tom & Jerry <b>1 > 0</b>") = true
  /\ parseMarkdownToHTML (lit "Tom & Jerry <b>1 > 0</b>")
     = lit "Tom & Jerry <b>1 > 0</b>".
Proof.
  split; [vm_compute; reflexivity|].
  apply (plain_text_unchanged (lit "Tom & Jerry <b>1 > 0</b>")).
  vm_compute. reflexivity.
Defined.

(** C4, as stated: with the bullet read as an asterisk and a space, a line
    made of an asterisk, a tab and an item has none of the listed
    constructs, and the renderer rewrites it all the same. *)
Lemma plain_text_as_stated_counterexample :
  plain_text (is_char c_space) (lit "*" ++ [c_tab] ++ lit "item") = true
  /\ parseMarkdownToHTML (lit "*" ++ [c_tab] ++ lit "item")
     = lit "<ul><li>item</li></ul>"
  /\ parseMarkdownToHTML (lit "*" ++ [c_tab] ++ lit "item")
     <> lit "*" ++ [c_tab] ++ lit "item".
Proof.
  split; [vm_compute; reflexivity|].
  split; [vm_compute; reflexivity | vm_compute; discriminate].
Qed.

(** ** Which match a greedy repetition settles on *)

Section Greedy.

Variable A : Type.
Variable p : char -> bool.
Variable k : bool -> str -> option A.

(** The repetition takes all it can when the continuation accepts there. *)
Lemma rep_greedy_max (w : str) :
  forall lo hi bol rest res,
    forallb p w = true -> lo <= length w -> within hi (length w) ->
    hi = Some (length w) \/ stops p rest ->
    k (bol_after bol w) rest = Some res ->
    rep_greedy p lo hi bol (w ++ rest) k = Some res.
Proof.
  induction w as [|x w IH]; intros lo hi bol rest res Hall Hlo Hhi Hend Hk.
  - simpl in *. assert (lo = 0) by lia. subst lo.
    destruct rest as [|y rest]; [exact Hk|]. simpl.
    destruct Hend as [Hcap|Hstop].
    + subst hi. simpl. rewrite andb_false_r. exact Hk.
    + simpl in Hstop. rewrite Hstop. exact Hk.
  - simpl in Hall. apply andb_prop in Hall. destruct Hall as [Hx Hall].
    cbn [app rep_greedy]. rewrite Hx.
    assert (Hm : more_allowed hi = true).
    { destruct hi as [[|h]|]; simpl in *; auto; lia. }
    rewrite Hm. cbn [andb].
    rewrite (IH (Nat.pred lo) (dec hi) (isLineTerminator x) rest res); auto.
    + simpl in Hlo. lia.
    + destruct hi as [h|]; simpl in *; [lia|exact I].
    + destruct Hend as [Hcap|Hstop]; [left|right; exact Hstop].
      subst hi. reflexivity.
Qed.

(** With no upper bound, a repetition over a run none of whose split
    points the continuation accepts fails. *)
Lemma rep_greedy_fail (w : str) :
  forall lo bol rest,
    forallb p w = true -> stops p rest ->
    (forall v v', w = v ++ v' -> k (bol_after bol v) (v' ++ rest) = None) ->
    rep_greedy p lo None bol (w ++ rest) k = None.
Proof.
  induction w as [|x w IH]; intros lo bol rest Hall Hstop Hk.
  - pose proof (Hk [] [] eq_refl) as Hk0. simpl in *.
    destruct rest as [|y rest]; simpl.
    + destruct lo; auto.
    + simpl in Hstop. rewrite Hstop. simpl. destruct lo; auto.
  - simpl in Hall. apply andb_prop in Hall. destruct Hall as [Hx Hall].
    cbn [app rep_greedy]. rewrite Hx. cbn [andb more_allowed dec option_map].
    rewrite IH; auto.
    + pose proof (Hk [] (x :: w) eq_refl) as Hk0. simpl in Hk0.
      destruct lo; auto.
    + intros v v' E. apply (Hk (x :: v) v'). simpl. now rewrite E.
Qed.

(** With no upper bound, the repetition gives back what follows [w] when
    the continuation accepts after [w] and at no later split point. *)
Lemma rep_greedy_backtrack (w : str) :
  forall lo bol w2 rest res,
    forallb p w = true -> lo <= length w ->
    forallb p w2 = true -> stops p rest ->
    k (bol_after bol w) (w2 ++ rest) = Some res ->
    (forall y v v', w2 = y :: v ++ v' ->
                    k (bol_after bol (w ++ y :: v)) (v' ++ rest) = None) ->
    rep_greedy p lo None bol (w ++ w2 ++ rest) k = Some res.
Proof.
  induction w as [|x w IH]; intros lo bol w2 rest res Hall Hlo Hall2 Hstop Hk Hno.
  - simpl in *. assert (lo = 0) by lia. subst lo.
    destruct w2 as [|y w2].
    + simpl in *. destruct rest as [|z rest]; [exact Hk|].
      simpl. simpl in Hstop. rewrite Hstop. exact Hk.
    + simpl in Hall2. apply andb_prop in Hall2. destruct Hall2 as [Hy Hall2].
      cbn [app rep_greedy]. rewrite Hy. cbn [andb more_allowed dec option_map].
      rewrite rep_greedy_fail; auto.
      intros v v' E. apply (Hno y v v'). now rewrite E.
  - simpl in Hall. apply andb_prop in Hall. destruct Hall as [Hx Hall].
    cbn [app rep_greedy]. rewrite Hx. cbn [andb more_allowed dec option_map].
    rewrite (IH (Nat.pred lo) (isLineTerminator x) w2 rest res); auto.
    simpl in Hlo. lia.
Qed.

End Greedy.

(** ** The table pattern on a line *)

Lemma length_app_diff (w r : str) : length (w ++ r) - length r = length w.
Proof. rewrite length_app. lia. Qed.

Lemma firstn_app_diff (w r : str) :
  firstn (length (w ++ r) - length r) (w ++ r) = w.
Proof. rewrite length_app_diff. apply firstn_length_app. Qed.

Lemma line_end_stops_dot (rest : str) : line_end rest -> stops (cset_mem CDot) rest.
Proof.
  destruct rest as [|x rest]; simpl; auto. intro H. now rewrite H.
Qed.

Lemma lt_not_char (c x : char) :
  isLineTerminator c = false -> isLineTerminator x = true -> (x =? c)%N = false.
Proof.
  intros Hc Hx. destruct (N.eqb_spec x c); [|reflexivity].
  subst. rewrite Hc in Hx. discriminate.
Qed.

Lemma row_content_Some (l c : str) :
  row_content l = Some c -> l = c_pipe :: c ++ [c_pipe] /\ nonempty c = true.
Proof.
  unfold row_content. destruct l as [|x r]; [discriminate|].
  destruct (is_char c_pipe x) eqn:Hx; [|discriminate].
  destruct (rev r) as [|y c'] eqn:Hr; [discriminate|].
  destruct (is_char c_pipe y && nonempty c') eqn:Hy; [|discriminate].
  intro H. inversion H; subst; clear H.
  apply andb_prop in Hy. destruct Hy as [Hy Hn].
  apply N.eqb_eq in Hx, Hy. subst.
  rewrite <- (rev_involutive r), Hr. simpl. split; [reflexivity|].
  destruct c' as [|z c']; [discriminate|]. simpl.
  destruct (rev c'); reflexivity.
Qed.

Lemma table_exec_row (c rest : str) :
  forallb not_lt c = true -> nonempty c = true -> line_end rest ->
  exec_at table_re true ((c_pipe :: c ++ [c_pipe]) ++ rest)
  = Some (length (c_pipe :: c ++ [c_pipe]), [(1, c)]).
Proof.
  intros Hc Hn Hr. unfold exec_at, table_re, rch, rplus.
  cbn [app]. rewrite <- app_assoc.
  cbn [rmatch]. unfold cset_mem at 1. rewrite N.eqb_refl.
  apply rep_greedy_backtrack with (w := c) (w2 := [c_pipe]) (rest := rest).
  - exact Hc.
  - destruct c; [discriminate|simpl; lia].
  - reflexivity.
  - now apply line_end_stops_dot.
  - cbn [app]. unfold cset_mem at 1. rewrite N.eqb_refl.
    assert (E1 : length (c_pipe :: c ++ c_pipe :: rest) - length rest
                 = length (c_pipe :: c ++ [c_pipe])).
    { cbn [length]. rewrite !length_app. cbn [length]. lia. }
    assert (E2 : firstn (length (c ++ c_pipe :: rest) - length (c_pipe :: rest))
                        (c ++ c_pipe :: rest) = c).
    { apply (firstn_app_diff c (c_pipe :: rest)). }
    rewrite E1, E2.
    destruct rest as [|x rest]; [reflexivity|]. simpl in Hr. now rewrite Hr.
  - intros y v v' E.
    assert (v' = []) by (destruct v; inversion E; auto; destruct v; discriminate).
    subst v'. cbn [app].
    destruct rest as [|x rest]; [reflexivity|]. simpl in Hr.
    unfold cset_mem. rewrite (lt_not_char c_pipe x); auto.
Qed.

Lemma table_exec_not_bol (s : str) : exec_at table_re false s = None.
Proof.
  destruct (exec_at table_re false s) as [res|] eqn:E; [|reflexivity].
  apply table_shape in E. destruct E; discriminate.
Qed.

(** On a line the table pattern matches exactly a row, all of it, and
    captures its content. *)
Lemma table_exec_line (l rest : str) :
  forallb not_lt l = true -> line_end rest ->
  exec_at table_re true (l ++ rest)
  = match row_content l with
    | Some c => Some (length l, [(1, c)])
    | None => None
    end.
Proof.
  intros Hl Hr. destruct (row_content l) as [c|] eqn:Hrow.
  - apply row_content_Some in Hrow. destruct Hrow as [El Hn]. subst l.
    apply table_exec_row; auto.
    cbn [forallb] in Hl. apply andb_prop in Hl. destruct Hl as [_ Hl].
    rewrite forallb_app in Hl. apply andb_prop in Hl. tauto.
  - destruct (exec_at table_re true (l ++ rest)) as [res|] eqn:E; [|reflexivity].
    apply table_shape in E. destruct E as [_ E]. unfold row_here in E.
    rewrite line_of_app_end, Hrow in E; auto. discriminate.
Qed.

(** ** Line by line *)

(** Induction over the lines of a text. *)
Lemma line_ind (P : str -> Prop) :
  (forall l, forallb not_lt l = true -> P l) ->
  (forall l x r, forallb not_lt l = true -> isLineTerminator x = true ->
                 P r -> P (l ++ x :: r)) ->
  forall s, P s.
Proof.
  intros Hline Hstep s.
  assert (H : forall pre, forallb not_lt pre = true -> P (pre ++ s)).
  { induction s as [|x s IH]; intros pre Hpre.
    - rewrite app_nil_r. now apply Hline.
    - destruct (isLineTerminator x) eqn:Hx.
      + apply Hstep; auto. apply (IH []). reflexivity.
      + replace (pre ++ x :: s) with ((pre ++ [x]) ++ s)
          by (rewrite <- app_assoc; reflexivity).
        apply IH. rewrite forallb_app, Hpre. simpl. unfold not_lt.
        now rewrite Hx. }
  apply (H []). reflexivity.
Qed.

Lemma map_lines_line (g : str -> str) (l : str) :
  forall cur, forallb not_lt l = true -> map_lines g cur l = g (cur ++ l).
Proof.
  induction l as [|y l IH]; intros cur Hl; simpl.
  - now rewrite app_nil_r.
  - simpl in Hl. apply andb_prop in Hl. destruct Hl as [Hy Hl].
    unfold not_lt in Hy. apply negb_true_iff in Hy. rewrite Hy.
    rewrite IH by assumption. now rewrite <- app_assoc.
Qed.

Lemma map_lines_step (g : str -> str) (l : str) (x : char) (r : str) :
  forall cur,
    forallb not_lt l = true -> isLineTerminator x = true ->
    map_lines g cur (l ++ x :: r) = g (cur ++ l) ++ x :: map_lines g [] r.
Proof.
  induction l as [|y l IH]; intros cur Hl Hx; simpl.
  - now rewrite Hx, app_nil_r.
  - simpl in Hl. apply andb_prop in Hl. destruct Hl as [Hy Hl].
    unfold not_lt in Hy. apply negb_true_iff in Hy. rewrite Hy.
    rewrite IH by assumption. now rewrite <- app_assoc.
Qed.

Lemma map_lines_ext (g g' : str -> str) :
  (forall l, g l = g' l) ->
  forall s cur, map_lines g cur s = map_lines g' cur s.
Proof.
  intros Hg s. induction s as [|x s IH]; intro cur; simpl.
  - apply Hg.
  - now rewrite Hg, !IH.
Qed.

Lemma bol_after_line (bol : bool) (l : str) :
  forallb not_lt l = true -> l <> [] -> bol_after bol l = false.
Proof.
  revert bol. induction l as [|y l IH]; intros bol Hl Hne; [contradiction|].
  simpl in Hl. apply andb_prop in Hl. destruct Hl as [Hy Hl].
  unfold not_lt in Hy. apply negb_true_iff in Hy. simpl. rewrite Hy.
  destruct l as [|z l]; [reflexivity|]. apply IH; [assumption|discriminate].
Qed.

Lemma forallb_app_l (p : char -> bool) (a b : str) :
  forallb p (a ++ b) = true -> forallb p a = true.
Proof. rewrite forallb_app. intro H. apply andb_prop in H. tauto. Qed.

Section Linewise.

Variable r : regex.
Variable f : replacement.
Variable E : str -> option caps.
Variable good : str -> Prop.

Hypothesis needs_bol : forall s, exec_at r false s = None.
Hypothesis needs_char : exec_at r true [] = None.
Hypothesis not_at_terminator :
  forall x s, isLineTerminator x = true -> exec_at r true (x :: s) = None.
Hypothesis on_line :
  forall l rest,
    good l -> forallb not_lt l = true -> line_end rest ->
    exec_at r true (l ++ rest)
    = match E l with Some c => Some (length l, c) | None => None end.
Hypothesis not_empty : forall c, E [] = Some c -> False.

Lemma replace_go_line_copy (l rest : str) :
  good l -> forallb not_lt l = true -> line_end rest -> E l = None ->
  replace_go r f 0 true (l ++ rest)
  = l ++ replace_go r f 0 (bol_after true l) rest.
Proof.
  intros Hg Hl Hr HE. apply replace_go_prefix. intros a x b Hab.
  destruct a as [|y a].
  - simpl in Hab. cbn [bol_after].
    change (x :: b ++ rest) with ((x :: b) ++ rest). rewrite <- Hab.
    rewrite on_line, HE; auto.
  - rewrite bol_after_line; [apply needs_bol| |discriminate].
    rewrite Hab in Hl. now apply forallb_app_l in Hl.
Qed.

Lemma replace_go_at_terminator (bol : bool) (x : char) (s : str) :
  isLineTerminator x = true ->
  replace_go r f 0 bol (x :: s) = x :: replace_go r f 0 true s.
Proof.
  intro Hx. cbn [replace_go].
  assert (He : exec_at r bol (x :: s) = None).
  { destruct bol; [now apply not_at_terminator | apply needs_bol]. }
  rewrite He, Hx. reflexivity.
Qed.

Lemma replace_go_end (bol : bool) : replace_go r f 0 bol [] = [].
Proof.
  cbn [replace_go].
  assert (He : exec_at r bol [] = None).
  { destruct bol; [apply needs_char | apply needs_bol]. }
  now rewrite He.
Qed.

(** The loop on a line that is followed by a line end. *)
Lemma replace_go_line (l rest : str) :
  good l -> forallb not_lt l = true -> line_end rest ->
  replace_go r f 0 true (l ++ rest)
  = rewrite_line f E l ++ replace_go r f 0 (bol_after true l) rest.
Proof.
  intros Hg Hl Hr. unfold rewrite_line. destruct (E l) as [c|] eqn:HE.
  - assert (Hne : l <> []) by (intro; subst; eapply not_empty; eauto).
    assert (He : exec_at r true (l ++ rest) = Some (length l, c))
      by (rewrite on_line, HE; auto).
    apply (replace_go_match _ f _ _ Hne He).
  - now apply replace_go_line_copy.
Qed.

Hypothesis all_good : forall l, good l.

(** The same for any text, when every line is good. *)
Lemma replace_linewise (text : str) :
  replace r f text = map_lines (rewrite_line f E) [] text.
Proof.
  unfold replace. pattern text. apply line_ind.
  - intros l Hl. rewrite map_lines_line by assumption. cbn [app].
    rewrite <- (app_nil_r l) at 1.
    rewrite replace_go_line by (simpl; auto).
    now rewrite replace_go_end, app_nil_r.
  - intros l x s Hl Hx IH. rewrite map_lines_step by assumption. cbn [app].
    rewrite replace_go_line by (simpl; auto).
    now rewrite replace_go_at_terminator, IH.
Qed.

End Linewise.

(** ** The two table rules *)

Lemma table_exec_end : exec_at table_re true [] = None.
Proof. reflexivity. Qed.

Lemma table_exec_at_terminator (x : char) (s : str) :
  isLineTerminator x = true -> exec_at table_re true (x :: s) = None.
Proof.
  intro Hx. destruct (exec_at table_re true (x :: s)) as [res|] eqn:E; [|reflexivity].
  apply table_shape in E. destruct E as [_ E].
  unfold row_here, line_of in E. cbn [take_while] in E. unfold not_lt in E.
  rewrite Hx in E. discriminate.
Qed.

Lemma table_line_caps_on_line (l rest : str) :
  True -> forallb not_lt l = true -> line_end rest ->
  exec_at table_re true (l ++ rest)
  = match table_line_caps l with
    | Some c => Some (length l, c)
    | None => None
    end.
Proof.
  intros _ Hl Hr. rewrite table_exec_line by assumption.
  unfold table_line_caps. destruct (row_content l); reflexivity.
Qed.

(** The first table rule rewrites every row to header form and leaves
    every other line alone. *)
Lemma table_head_rule_lines (text : str) :
  table_head_rule text = map_lines head_line [] text.
Proof.
  unfold table_head_rule.
  rewrite (@replace_linewise table_re table_head_cb table_line_caps
             (fun _ => True) table_exec_not_bol table_exec_end
             table_exec_at_terminator table_line_caps_on_line).
  - apply map_lines_ext. intro l. unfold rewrite_line, table_line_caps, head_line.
    destruct (row_content l); reflexivity.
  - intro c. discriminate.
  - intro l. exact I.
Qed.

(** The second table rule on its own does the same with row form. *)
Lemma table_row_rule_lines (text : str) :
  table_row_rule text = map_lines row_line [] text.
Proof.
  unfold table_row_rule.
  rewrite (@replace_linewise table_re table_row_cb table_line_caps
             (fun _ => True) table_exec_not_bol table_exec_end
             table_exec_at_terminator table_line_caps_on_line).
  - apply map_lines_ext. intro l. unfold rewrite_line, table_line_caps, row_line.
    destruct (row_content l); reflexivity.
  - intro c. discriminate.
  - intro l. exact I.
Qed.

Lemma forallb_drop_ws (p : char -> bool) (s : str) :
  forallb p s = true -> forallb p (drop_ws s) = true.
Proof.
  induction s as [|x s IH]; simpl; auto. intro H.
  destruct (isWhiteSpace x); [|exact H].
  apply andb_prop in H. tauto.
Qed.

Lemma forallb_rev (p : char -> bool) (s : str) :
  forallb p (rev s) = forallb p s.
Proof.
  induction s as [|x s IH]; simpl; auto.
  rewrite forallb_app, IH. simpl. rewrite andb_true_r. apply andb_comm.
Qed.

Lemma forallb_trim (p : char -> bool) (s : str) :
  forallb p s = true -> forallb p (trim s) = true.
Proof.
  intro H. unfold trim. rewrite forallb_rev. apply forallb_drop_ws.
  rewrite forallb_rev. now apply forallb_drop_ws.
Qed.

Lemma forallb_split (p : char -> bool) (sep : char) (s : str) :
  forallb p s = true -> forallb (forallb p) (split sep s) = true.
Proof.
  induction s as [|x s IH]; simpl; auto. intro H.
  apply andb_prop in H. destruct H as [Hx Hs]. specialize (IH Hs).
  destruct (x =? sep)%N; [exact IH|].
  destruct (split sep s) as [|h t]; simpl in *.
  - now rewrite Hx.
  - rewrite Hx. exact IH.
Qed.

Lemma forallb_cells (p : char -> bool) (tag c : str) :
  forallb p (lit "</>") = true -> forallb p tag = true -> forallb p c = true ->
  forallb p (cells tag c) = true.
Proof.
  intros Hp Ht Hc. unfold cells, join_empty.
  pose proof (forallb_split p c_pipe c Hc) as Hs.
  assert (Hlt : p 60%N = true /\ p 47%N = true /\ p 62%N = true).
  { cbn in Hp. repeat (apply andb_prop in Hp; destruct Hp as [? Hp]). auto. }
  destruct Hlt as (H1 & H2 & H3).
  induction (split c_pipe c) as [|cell l IH]; [reflexivity|].
  simpl in Hs. apply andb_prop in Hs. destruct Hs as [Hcell Hl].
  cbn [List.map concat]. rewrite forallb_app, IH by assumption.
  rewrite !forallb_app, Ht, forallb_trim by assumption.
  cbn. rewrite H1, H2, H3. reflexivity.
Qed.

Lemma head_line_no_lt (l : str) :
  forallb not_lt l = true -> forallb not_lt (head_line l) = true.
Proof.
  intro Hl. unfold head_line. destruct (row_content l) as [c|] eqn:Hrow; [|exact Hl].
  apply row_content_Some in Hrow. destruct Hrow as [El _]. subst l.
  cbn [forallb] in Hl. apply andb_prop in Hl. destruct Hl as [_ Hl].
  apply forallb_app_l in Hl.
  rewrite !forallb_app, forallb_cells; auto.
Qed.

(** Header form is not a row: it starts with an angle bracket. *)
Lemma row_line_head_line (l : str) : row_line (head_line l) = head_line l.
Proof.
  unfold head_line. destruct (row_content l) as [c|] eqn:Hrow.
  - reflexivity.
  - unfold row_line. now rewrite Hrow.
Qed.

Lemma map_lines_twice (g h : str -> str) :
  (forall l, forallb not_lt l = true -> forallb not_lt (h l) = true) ->
  forall text,
    map_lines g [] (map_lines h [] text) = map_lines (fun l => g (h l)) [] text.
Proof.
  intros Hh text. pattern text. apply line_ind.
  - intros l Hl. rewrite (map_lines_line h) by assumption. cbn [app].
    rewrite (map_lines_line g) by auto.
    rewrite map_lines_line by assumption. reflexivity.
  - intros l x r Hl Hx IH. rewrite (map_lines_step h) by assumption. cbn [app].
    rewrite (map_lines_step g) by auto.
    rewrite map_lines_step by assumption. cbn [app]. now rewrite IH.
Qed.

(** After the first table rule the second one finds nothing to rewrite. *)
Lemma table_row_after_head (text : str) :
  table_row_rule (table_head_rule text) = table_head_rule text.
Proof.
  rewrite table_row_rule_lines, table_head_rule_lines.
  rewrite map_lines_twice by apply head_line_no_lt.
  apply map_lines_ext. apply row_line_head_line.
Qed.

(** C2: the second table rule never rewrites anything.  The first table
    rule rewrites every row line to header form and leaves the other lines
    alone; a rewritten line starts with an angle bracket, so the second
    rule, whose pattern asks for a bar at the line start, finds no line to
    match.  The renderer's result is the text of the eleven earlier rules
    with every row line in header form: against the second pass the claim
    describes, and against the table the comment in the source promises,
    no row form, no cell and no table element is produced. *)
Theorem table_rows_become_headers :
  (forall text,
      parseMarkdownToHTML text = map_lines head_line [] (before_tables text))
  /\ (forall text, table_row_rule (table_head_rule text) = table_head_rule text)
  /\ parseMarkdownToHTML (lit "|a|b|")
     = lit "<thead><tr><th>a</th><th>b</th></tr></thead><tbody>"
  /\ parseMarkdownToHTML (lit "|a|b|" ++ [c_nl] ++ lit "|c|d|")
     = lit "<thead><tr><th>a</th><th>b</th></tr></thead><tbody>" ++ [c_nl] ++
       lit "<thead><tr><th>c</th><th>d</th></tr></thead><tbody>"
  /\ exec_at table_re true (table_head_rule (lit "|a|b|")) = None
  /\ contains (lit "<td>") (parseMarkdownToHTML (lit "|a|b|")) = false
  /\ contains (lit "</tbody></table>") (parseMarkdownToHTML (lit "|a|b|")) = false
  /\ contains (lit "<table>") (parseMarkdownToHTML (lit "|a|b|")) = false
  /\ contains (lit "<td>")
       (parseMarkdownToHTML (lit "|a|b|" ++ [c_nl] ++ lit "|c|d|")) = false
  /\ contains (lit "</tbody></table>")
       (parseMarkdownToHTML (lit "|a|b|" ++ [c_nl] ++ lit "|c|d|")) = false.
Proof.
  split; [|split; [exact table_row_after_head|repeat split; vm_compute; reflexivity]].
  intro text.
  change (parseMarkdownToHTML text)
    with (table_row_rule (table_head_rule (before_tables text))).
  now rewrite (table_row_after_head (before_tables text)),
    (table_head_rule_lines (before_tables text)).
Qed.

(** ** The list pattern on a line *)

Lemma ul_exec_bullet (b : char) (c rest : str) :
  isWhiteSpace b = true -> forallb not_lt c = true -> line_end rest ->
  exec_at ul_re true ((c_star :: b :: c) ++ rest)
  = Some (length (c_star :: b :: c), [(1, c)]).
Proof.
  intros Hb Hc Hr. unfold exec_at, ul_re, rch, rstar.
  cbn [app rmatch]. unfold cset_mem at 1. rewrite N.eqb_refl.
  unfold cset_mem at 1. rewrite Hb.
  apply rep_greedy_max.
  - exact Hc.
  - lia.
  - exact I.
  - right. now apply line_end_stops_dot.
  - assert (E1 : length (c_star :: b :: c ++ rest) - length rest
                 = length (c_star :: b :: c)).
    { cbn [length]. rewrite !length_app. lia. }
    rewrite E1, firstn_app_diff.
    destruct rest as [|x rest]; [reflexivity|]. simpl in Hr. now rewrite Hr.
Qed.

Lemma ul_exec_not_bol (s : str) : exec_at ul_re false s = None.
Proof.
  destruct (exec_at ul_re false s) as [res|] eqn:E; [|reflexivity].
  apply ul_shape in E. destruct E; discriminate.
Qed.

Lemma ul_exec_end : exec_at ul_re true [] = None.
Proof. reflexivity. Qed.

Lemma ul_exec_at_terminator (x : char) (s : str) :
  isLineTerminator x = true -> exec_at ul_re true (x :: s) = None.
Proof.
  intro Hx. destruct (exec_at ul_re true (x :: s)) as [res|] eqn:E; [|reflexivity].
  apply ul_shape in E. destruct E as [_ E]. unfold bullet_here in E.
  destruct s as [|y s]; [discriminate|].
  apply andb_prop in E. destruct E as [E _]. unfold is_char in E.
  rewrite (lt_not_char c_star x) in E; [discriminate|reflexivity|assumption].
Qed.

(** On a line other than a lone asterisk the list pattern matches exactly a
    line that starts with an asterisk and a whitespace character, all of
    it, and captures what follows them. *)
Lemma ul_on_line (l rest : str) :
  l <> [c_star] -> forallb not_lt l = true -> line_end rest ->
  exec_at ul_re true (l ++ rest)
  = match ul_line_caps l with
    | Some c => Some (length l, c)
    | None => None
    end.
Proof.
  intros Hg Hl Hr. destruct (ul_line_caps l) as [cp|] eqn:Hcaps.
  - unfold ul_line_caps in Hcaps. destruct l as [|a [|b c]]; try discriminate.
    destruct (is_char c_star a && isWhiteSpace b) eqn:Hab; [|discriminate].
    inversion Hcaps; subst; clear Hcaps.
    apply andb_prop in Hab. destruct Hab as [Ha Hb]. apply N.eqb_eq in Ha. subst a.
    apply ul_exec_bullet; auto.
    cbn [forallb] in Hl. apply andb_prop in Hl. destruct Hl as [_ Hl].
    apply andb_prop in Hl. tauto.
  - destruct (exec_at ul_re true (l ++ rest)) as [res|] eqn:E; [|reflexivity].
    apply ul_shape in E. destruct E as [_ E]. exfalso.
    destruct l as [|a [|b c]].
    + destruct rest as [|x [|y rest]]; try discriminate.
      simpl in Hr. cbn [app bullet_here] in E.
      apply andb_prop in E. destruct E as [E _]. unfold is_char in E.
      rewrite (lt_not_char c_star x) in E; [discriminate|reflexivity|assumption].
    + destruct rest as [|x rest]; [discriminate|].
      cbn [app bullet_here] in E.
      apply andb_prop in E. destruct E as [E _]. apply N.eqb_eq in E.
      subst a. now apply Hg.
    + cbn [app bullet_here] in E. unfold ul_line_caps in Hcaps.
      rewrite E in Hcaps. discriminate.
Qed.

Lemma ul_rewrite_line (l : str) :
  rewrite_line (expand (lit "<ul><li>$1</li></ul>")) ul_line_caps l = ul_line l.
Proof.
  unfold rewrite_line, ul_line_caps, ul_line.
  destruct l as [|a [|b c]]; try reflexivity.
  destruct (is_char c_star a && isWhiteSpace b); reflexivity.
Qed.

(** ** Texts without the characters a rule needs *)

Lemma anywhere_none_of_char (P : str -> bool) (q : char -> bool) (s : str) :
  (forall s', P s' = true -> existsb q s' = true) ->
  existsb q s = false -> anywhere P s = false.
Proof.
  intros HP. induction s as [|x s IH]; intro Hq.
  - simpl. destruct (P []) eqn:E; [|reflexivity].
    apply HP in E. discriminate.
  - cbn [anywhere]. destruct (P (x :: s)) eqn:E.
    + apply HP in E. rewrite E in Hq. discriminate.
    + simpl in Hq. apply orb_false_elim in Hq. destruct Hq as [_ Hq].
      now rewrite IH.
Qed.

Lemma at_line_start_mono (P P' : str -> bool) (s : str) :
  (forall s', P s' = true -> P' s' = true) ->
  forall bol, at_line_start P' bol s = false -> at_line_start P bol s = false.
Proof.
  intro HP. induction s as [|x s IH]; intros bol H; cbn [at_line_start] in *.
  - rewrite orb_false_r in *. destruct bol; [|reflexivity]. simpl in *.
    destruct (P []) eqn:E; [|reflexivity]. apply HP in E. congruence.
  - apply orb_false_elim in H. destruct H as [H1 H2]. rewrite (IH _ H2).
    rewrite orb_false_r. destruct bol; [|reflexivity]. simpl in *.
    destruct (P (x :: s)) eqn:E; [|reflexivity]. apply HP in E. congruence.
Qed.

Lemma at_line_start_in_line (P : str -> bool) (l rest : str) :
  forallb not_lt l = true ->
  at_line_start P false (l ++ rest) = at_line_start P false rest.
Proof.
  induction l as [|y l IH]; intro Hl; [reflexivity|].
  simpl in Hl. apply andb_prop in Hl. destruct Hl as [Hy Hl].
  unfold not_lt in Hy. apply negb_true_iff in Hy.
  cbn [app at_line_start andb orb]. rewrite Hy. now apply IH.
Qed.

(** ** Asterisk pairs in a text *)

Lemma asterisk_pair_has_star (s : str) :
  asterisk_pair s = true -> existsb (is_char c_star) s = true.
Proof.
  destruct s as [|x s]; [discriminate|]. unfold asterisk_pair. intro H.
  apply andb_prop in H. destruct H as [H _]. simpl. now rewrite H.
Qed.

(** ** Contents *)

Lemma forallb_existsb_false (p q : char -> bool) (c : str) :
  (forall x, p x = true -> q x = false) ->
  forallb p c = true -> existsb q c = false.
Proof.
  intros Hpq. induction c as [|x c IH]; [reflexivity|]. simpl. intro H.
  apply andb_prop in H. destruct H as [Hx Hc]. now rewrite (Hpq x Hx), IH.
Qed.

Lemma forallb_impl (p q : char -> bool) (c : str) :
  (forall x, p x = true -> q x = true) ->
  forallb p c = true -> forallb q c = true.
Proof.
  intros Hpq. induction c as [|x c IH]; [reflexivity|]. simpl. intro H.
  apply andb_prop in H. destruct H as [Hx Hc]. now rewrite (Hpq x Hx), IH.
Qed.

Lemma item_char_spec (x : char) :
  item_char x = true ->
  not_lt x = true /\ is_char c_star x = false /\ is_char c_tilde x = false /\
  is_char c_lbracket x = false /\ is_char c_backtick x = false.
Proof.
  unfold item_char. intro H.
  repeat (apply andb_prop in H; destruct H as [H ?]).
  repeat match goal with
         | H0 : negb _ = true |- _ => apply negb_true_iff in H0
         end.
  auto.
Qed.

Lemma strike_span_has_tilde (s : str) :
  strike_span s = true -> existsb (is_char c_tilde) s = true.
Proof.
  destruct s as [|a [|b s]]; try discriminate. unfold strike_span. intro H.
  apply andb_prop in H. destruct H as [H _].
  apply andb_prop in H. destruct H as [H _]. simpl. now rewrite H.
Qed.

Lemma link_form_has_bracket (s : str) :
  link_form s = true -> existsb (is_char c_lbracket) s = true.
Proof.
  destruct s as [|a s]; [discriminate|]. unfold link_form. intro H.
  apply andb_prop in H. destruct H as [H _]. simpl. now rewrite H.
Qed.

Lemma image_form_has_bracket (s : str) :
  image_form s = true -> existsb (is_char c_lbracket) s = true.
Proof.
  destruct s as [|a [|b s]]; try discriminate. unfold image_form. intro H.
  apply andb_prop in H. destruct H as [H _].
  apply andb_prop in H. destruct H as [_ H]. simpl. rewrite H.
  apply orb_true_r.
Qed.

Lemma backtick_here_has_backtick (s : str) :
  backtick_here s = true -> existsb (is_char c_backtick) s = true.
Proof.
  destruct s as [|a s]; [discriminate|]. unfold backtick_here. intro H.
  simpl. now rewrite H.
Qed.

Lemma number_here_head (sp : char -> bool) (s : str) :
  number_here sp s = true -> head_is isDigit s = true.
Proof.
  unfold number_here. intro H. apply andb_prop in H. destruct H as [H _].
  destruct s as [|x s]; [discriminate|]. simpl in *.
  destruct (isDigit x); [reflexivity|discriminate].
Qed.

Lemma row_here_head (s : str) :
  row_here s = true -> head_is (is_char c_pipe) s = true.
Proof.
  unfold row_here. destruct (row_content (line_of s)) as [c|] eqn:E; [|discriminate].
  intros _. apply row_content_Some in E. destruct E as [E _].
  destruct s as [|x s]; [discriminate|]. unfold line_of in E. simpl in E.
  destruct (not_lt x); [|discriminate]. inversion E. reflexivity.
Qed.

(** ** Prefixes in which a pattern cannot start *)

Section Trigger.

Variable r : regex.
Variable f : replacement.
Variable t : trigger.

Hypothesis trigger_sound :
  forall bol x s res, exec_at r bol (x :: s) = Some res -> t bol x = true.

Lemma replace_go_quiet (p : str) :
  forall bol s,
    quiet t bol p = true ->
    replace_go r f 0 bol (p ++ s) = p ++ replace_go r f 0 (bol_after bol p) s.
Proof.
  induction p as [|x p IH]; intros bol s Hq; [reflexivity|].
  cbn [quiet] in Hq. apply andb_prop in Hq. destruct Hq as [Hx Hq].
  apply negb_true_iff in Hx.
  cbn [app replace_go bol_after].
  destruct (exec_at r bol (x :: p ++ s)) as [res|] eqn:E.
  - apply trigger_sound in E. congruence.
  - f_equal. now apply IH.
Qed.

End Trigger.

(** ** Triggers of the patterns *)

Lemma asterisk_pair_head (s : str) :
  asterisk_pair s = true -> head_is (is_char c_star) s = true.
Proof.
  destruct s as [|x s]; [discriminate|]. unfold asterisk_pair. intro H.
  apply andb_prop in H. now destruct H.
Qed.

Lemma link_form_head (s : str) :
  link_form s = true -> head_is (is_char c_lbracket) s = true.
Proof.
  destruct s as [|a s]; [discriminate|]. unfold link_form. intro H.
  apply andb_prop in H. now destruct H.
Qed.

Lemma bullet_here_head (sp : char -> bool) (s : str) :
  bullet_here sp s = true -> head_is (is_char c_star) s = true.
Proof.
  destruct s as [|a [|b s]]; try discriminate. unfold bullet_here. intro H.
  apply andb_prop in H. now destruct H.
Qed.

Lemma bold_trigger bol x s res :
  exec_at bold_re bol (x :: s) = Some res -> trig_char c_star bol x = true.
Proof. intro H. apply bold_shape in H. now apply asterisk_pair_head in H. Qed.

Lemma italic_trigger bol x s res :
  exec_at italic_re bol (x :: s) = Some res -> trig_char c_star bol x = true.
Proof. intro H. apply italic_shape in H. now apply asterisk_pair_head in H. Qed.

Lemma link_trigger bol x s res :
  exec_at link_re bol (x :: s) = Some res -> trig_char c_lbracket bol x = true.
Proof. intro H. apply link_shape in H. now apply link_form_head in H. Qed.

(** ** Runs of characters *)

Lemma take_drop_while (p : char -> bool) (s : str) :
  s = take_while p s ++ drop_while p s.
Proof.
  induction s as [|x s IH]; [reflexivity|]. simpl.
  destruct (p x); [simpl; now rewrite <- IH | reflexivity].
Qed.

Lemma forallb_take_while (p : char -> bool) (s : str) :
  forallb p (take_while p s) = true.
Proof.
  induction s as [|x s IH]; [reflexivity|]. simpl.
  destruct (p x) eqn:E; [simpl; now rewrite E | reflexivity].
Qed.

Lemma forallb_hashes (p : char -> bool) (k : nat) :
  p c_hash = true -> forallb p (hashes k) = true.
Proof.
  intro H. induction k as [|k IH]; [reflexivity|].
  cbn [hashes repeat forallb]. now rewrite H.
Qed.

Lemma hashes_add (a b : nat) : hashes (a + b) = hashes a ++ hashes b.
Proof. apply repeat_app. Qed.

(** ** Which match a lazy repetition settles on *)

Lemma rep_lazy_first (A : Type) (p : char -> bool)
      (k : bool -> str -> option A) (w : str) :
  forall bol rest res,
    forallb p w = true ->
    (forall v y v', w = v ++ y :: v' ->
                    k (bol_after bol v) (y :: v' ++ rest) = None) ->
    k (bol_after bol w) rest = Some res ->
    rep_lazy p 0 None bol (w ++ rest) k = Some res.
Proof.
  induction w as [|y w IH]; intros bol rest res Hall Hno Hk.
  - simpl in *. destruct rest as [|x rest]; simpl; [exact Hk|now rewrite Hk].
  - simpl in Hall. apply andb_prop in Hall. destruct Hall as [Hy Hall].
    cbn [app rep_lazy]. pose proof (Hno [] y w eq_refl) as H0.
    cbn [bol_after] in H0. rewrite H0, Hy.
    cbn [andb more_allowed dec option_map Nat.pred].
    apply IH; auto.
    intros v z v' E. apply (Hno (y :: v) z v'). simpl. now rewrite E.
Qed.

(** ** The bold and the italic pattern on a span *)

Lemma span_char_spec (x : char) :
  span_char x = true -> not_lt x = true /\ is_char c_star x = false.
Proof.
  unfold span_char, not_star. intro H. apply andb_prop in H.
  destruct H as [H1 H2]. apply negb_true_iff in H2. auto.
Qed.

Lemma span_char_not_lt (w : str) :
  forallb span_char w = true -> forallb not_lt w = true.
Proof.
  apply forallb_impl. intros x Hx. now apply span_char_spec in Hx.
Qed.

Lemma not_star_in (w v : str) (y : char) (v' : str) :
  forallb span_char w = true -> w = v ++ y :: v' -> is_char c_star y = false.
Proof.
  intros Hw E. subst w. rewrite forallb_app in Hw.
  apply andb_prop in Hw. destruct Hw as [_ Hw]. simpl in Hw.
  apply andb_prop in Hw. destruct Hw as [Hy _]. now apply span_char_spec in Hy.
Qed.

Lemma bold_exec_span (bol : bool) (w rest : str) :
  forallb span_char w = true ->
  exec_at bold_re bol ((c_star :: c_star :: w ++ [c_star; c_star]) ++ rest)
  = Some (length (c_star :: c_star :: w ++ [c_star; c_star]), [(1, w)]).
Proof.
  intro Hw. unfold exec_at, bold_re, rch, rstar_lazy.
  cbn [app]. rewrite <- app_assoc. cbn [app rmatch].
  unfold cset_mem at 1. rewrite N.eqb_refl.
  unfold cset_mem at 1. rewrite N.eqb_refl.
  apply rep_lazy_first.
  - now apply span_char_not_lt.
  - intros v y v' E. unfold cset_mem at 1.
    pose proof (@not_star_in w v y v' Hw E) as Hy. unfold is_char in Hy.
    now rewrite Hy.
  - unfold cset_mem. rewrite !N.eqb_refl.
    rewrite (firstn_app_diff w (c_star :: c_star :: rest)).
    f_equal. f_equal. cbn [length]. rewrite !length_app. cbn [length]. lia.
Qed.

Lemma italic_exec_span (bol : bool) (w rest : str) :
  forallb span_char w = true ->
  exec_at italic_re bol ((c_star :: w ++ [c_star]) ++ rest)
  = Some (length (c_star :: w ++ [c_star]), [(1, w)]).
Proof.
  intro Hw. unfold exec_at, italic_re, rch, rstar_lazy.
  cbn [app]. rewrite <- app_assoc. cbn [app rmatch].
  unfold cset_mem at 1. rewrite N.eqb_refl.
  apply rep_lazy_first.
  - now apply span_char_not_lt.
  - intros v y v' E. unfold cset_mem at 1.
    pose proof (@not_star_in w v y v' Hw E) as Hy. unfold is_char in Hy.
    now rewrite Hy.
  - unfold cset_mem. rewrite !N.eqb_refl.
    rewrite (firstn_app_diff w (c_star :: rest)).
    f_equal. f_equal. cbn [length]. rewrite !length_app. cbn [length]. lia.
Qed.

(** ** Counting asterisks *)

Lemma count_stars_app (a b : str) :
  count_stars (a ++ b) = count_stars a + count_stars b.
Proof. unfold count_stars. now rewrite filter_app, length_app. Qed.

Lemma count_stars_none (w : str) :
  forallb not_star w = true -> count_stars w = 0.
Proof.
  unfold count_stars. induction w as [|x w IH]; [reflexivity|]. simpl.
  intro H. apply andb_prop in H. destruct H as [Hx Hw].
  unfold not_star in Hx. apply negb_true_iff in Hx. rewrite Hx. now apply IH.
Qed.

(** A match of the bold pattern holds four asterisks. *)
Lemma bold_needs_four (bol : bool) (s : str) (res : nat * caps) :
  exec_at bold_re bol s = Some res -> 4 <= count_stars s.
Proof.
  intro H. apply exec_at_sound in H. destruct H as (w & rest & Hs & Hl).
  unfold bold_re, rch, rstar_lazy in Hl. lang_inv Hl. chars_eq.
  rewrite !count_stars_app.
  change (count_stars [c_star]) with 1. lia.
Qed.

Lemma quiet_no_star (p : str) :
  forallb not_star p = true -> forall bol, quiet (trig_char c_star) bol p = true.
Proof.
  induction p as [|x p IH]; intros H bol; [reflexivity|].
  simpl in H. apply andb_prop in H. destruct H as [Hx Hp].
  cbn [quiet]. unfold trig_char at 1. unfold not_star in Hx.
  rewrite Hx. now apply IH.
Qed.

(** ** The templates of the rules *)

Lemma expand_strong (m : str) (cp : caps) :
  expand (lit "<strong>$1</strong>") m cp
  = lit "<strong>" ++ cap_str 1 cp ++ lit "</strong>".
Proof. reflexivity. Qed.

Lemma expand_em (m : str) (cp : caps) :
  expand (lit "<em>$1</em>") m cp = lit "<em>" ++ cap_str 1 cp ++ lit "</em>".
Proof. reflexivity. Qed.

Lemma expand_del (m : str) (cp : caps) :
  expand (lit "<del>$1</del>") m cp = lit "<del>" ++ cap_str 1 cp ++ lit "</del>".
Proof. reflexivity. Qed.

Lemma expand_a (m : str) (cp : caps) :
  expand (lit "<a href=" ++ [dq] ++ lit "$2" ++ [dq] ++ lit ">$1</a>") m cp
  = lit "<a href=" ++ [dq] ++ cap_str 2 cp ++ [dq] ++ lit ">" ++
    cap_str 1 cp ++ lit "</a>".
Proof. reflexivity. Qed.

Lemma expand_code (m : str) (cp : caps) :
  expand (lit "<code>$1</code>") m cp
  = lit "<code>" ++ cap_str 1 cp ++ lit "</code>".
Proof. reflexivity. Qed.

Lemma expand_pre (m : str) (cp : caps) :
  expand (lit "<pre><code>$1</code></pre>") m cp
  = lit "<pre><code>" ++ cap_str 1 cp ++ lit "</code></pre>".
Proof. reflexivity. Qed.

Lemma expand_blockquote (m : str) (cp : caps) :
  expand (lit "<blockquote>$1</blockquote>") m cp
  = lit "<blockquote>" ++ cap_str 1 cp ++ lit "</blockquote>".
Proof. reflexivity. Qed.

Lemma expand_ul (m : str) (cp : caps) :
  expand (lit "<ul><li>$1</li></ul>") m cp
  = lit "<ul><li>" ++ cap_str 1 cp ++ lit "</li></ul>".
Proof. reflexivity. Qed.

Lemma expand_ol (m : str) (cp : caps) :
  expand (lit "<ol><li>$1</li></ol>") m cp
  = lit "<ol><li>" ++ cap_str 1 cp ++ lit "</li></ol>".
Proof. reflexivity. Qed.

Lemma expand_img (m : str) (cp : caps) :
  expand (lit "<img src=" ++ [dq] ++ lit "$2" ++ [dq] ++ lit " alt=" ++
          [dq] ++ lit "$1" ++ [dq] ++ lit "/>") m cp
  = lit "<img src=" ++ [dq] ++ cap_str 2 cp ++ [dq] ++ lit " alt=" ++
    [dq] ++ cap_str 1 cp ++ [dq] ++ lit "/>".
Proof. reflexivity. Qed.

(** ** Rules anchored at the line start, line by line *)

Lemma at_line_start_here (P : str -> bool) (s : str) :
  at_line_start P true s = false -> P s = false.
Proof.
  destruct s as [|x s]; cbn [at_line_start andb]; intro H;
    apply orb_false_elim in H; tauto.
Qed.

Lemma at_line_start_next (P : str -> bool) (l : str) (x : char) (s : str) :
  forallb not_lt l = true -> isLineTerminator x = true ->
  at_line_start P true (l ++ x :: s) = false ->
  at_line_start P true s = false.
Proof.
  intros Hl Hx H.
  assert (H' : at_line_start P false (x :: s) = false).
  { destruct l as [|y l]; cbn [app at_line_start] in H.
    - apply orb_false_elim in H. destruct H as [_ H].
      cbn [at_line_start andb orb]. exact H.
    - apply orb_false_elim in H. destruct H as [_ H].
      simpl in Hl. apply andb_prop in Hl. destruct Hl as [Hy Hl].
      unfold not_lt in Hy. apply negb_true_iff in Hy. rewrite Hy in H.
      now rewrite at_line_start_in_line in H. }
  cbn [at_line_start andb orb] in H'. now rewrite Hx in H'.
Qed.

Section ByLine.

Variable r : regex.
Variable f : replacement.
Variable E : str -> option caps.
Variable bad : str -> bool.

Hypothesis needs_bol : forall s, exec_at r false s = None.
Hypothesis needs_char : exec_at r true [] = None.
Hypothesis not_at_terminator :
  forall x s, isLineTerminator x = true -> exec_at r true (x :: s) = None.
Hypothesis on_line :
  forall l rest,
    forallb not_lt l = true -> line_end rest -> bad (l ++ rest) = false ->
    exec_at r true (l ++ rest)
    = match E l with Some c => Some (length l, c) | None => None end.
Hypothesis not_empty : E [] = None.

Lemma replace_go_one_line (l rest : str) :
  forallb not_lt l = true -> line_end rest -> bad (l ++ rest) = false ->
  replace_go r f 0 true (l ++ rest)
  = rewrite_line f E l ++ replace_go r f 0 (bol_after true l) rest.
Proof.
  intros Hl Hr Hb. unfold rewrite_line.
  pose proof (on_line l rest Hl Hr Hb) as He.
  destruct (E l) as [c|] eqn:HE.
  - assert (Hne : l <> []) by (intro; subst; congruence).
    apply (@replace_go_match r f true l rest c Hne He).
  - apply replace_go_prefix. intros a x b Hab.
    destruct a as [|y a].
    + simpl in Hab. cbn [bol_after].
      change (x :: b ++ rest) with ((x :: b) ++ rest). now rewrite <- Hab.
    + rewrite bol_after_line; [apply needs_bol| |discriminate].
      rewrite Hab in Hl. now apply forallb_app_l in Hl.
Qed.

(** A rule whose pattern is anchored at both ends of a line rewrites a
    text line by line, when no line start of the text is [bad]. *)
Lemma replace_by_line (text : str) :
  at_line_start bad true text = false ->
  replace r f text = map_lines (rewrite_line f E) [] text.
Proof.
  unfold replace. pattern text. apply line_ind.
  - intros l Hl Hb. rewrite map_lines_line by assumption. cbn [app].
    rewrite <- (app_nil_r l) at 1.
    rewrite replace_go_one_line;
      [|assumption|exact I|rewrite app_nil_r; now apply at_line_start_here].
    rewrite (@replace_go_end r f needs_bol needs_char). apply app_nil_r.
  - intros l x s Hl Hx IH Hb. rewrite map_lines_step by assumption. cbn [app].
    rewrite replace_go_one_line;
      [|assumption|exact Hx|now apply at_line_start_here].
    rewrite (@replace_go_at_terminator r f needs_bol not_at_terminator) by exact Hx.
    rewrite IH; [reflexivity|]. now apply (@at_line_start_next bad l x s).
Qed.

End ByLine.

(** ** The heading pattern on a line *)

Lemma hashes_length (k : nat) : length (hashes k) = k.
Proof. apply repeat_length. Qed.

Lemma heading_exec (k : nat) (ws content rest : str) :
  1 <= k <= 6 ->
  forallb isWhiteSpace ws = true ->
  forallb not_lt content = true ->
  k = 6 \/ stops (is_char c_hash) (ws ++ content ++ rest) ->
  stops isWhiteSpace (content ++ rest) ->
  line_end rest ->
  exec_at heading_re true (hashes k ++ ws ++ content ++ rest)
  = Some (length (hashes k ++ ws ++ content), [(2, content); (1, hashes k)]).
Proof.
  intros Hk Hws Hc Hh Hs Hr. unfold exec_at, heading_re, rstar.
  cbn [rmatch].
  apply rep_greedy_max.
  - now apply forallb_hashes.
  - rewrite hashes_length. lia.
  - rewrite hashes_length. simpl. lia.
  - rewrite hashes_length. destruct Hh as [->|Hh]; [now left|right; exact Hh].
  - rewrite (firstn_app_diff (hashes k) (ws ++ content ++ rest)).
    apply rep_greedy_max.
    + exact Hws.
    + lia.
    + exact I.
    + right. exact Hs.
    + apply rep_greedy_max.
      * exact Hc.
      * lia.
      * exact I.
      * right. now apply line_end_stops_dot.
      * rewrite (firstn_app_diff content rest).
        assert (E : length (hashes k ++ ws ++ content ++ rest) - length rest
                    = length (hashes k ++ ws ++ content)).
        { rewrite !length_app. lia. }
        rewrite E.
        destruct rest as [|x rest]; [reflexivity|]. simpl in Hr. now rewrite Hr.
Qed.

Lemma take_while_hashes (l : str) :
  take_while (is_char c_hash) l
  = hashes (length (take_while (is_char c_hash) l)).
Proof.
  induction l as [|x l IH]; [reflexivity|]. simpl.
  destruct (is_char c_hash x) eqn:E; [|reflexivity].
  apply N.eqb_eq in E. subst x. cbn [length]. 
  change (hashes (S (length (take_while (is_char c_hash) l))))
    with (c_hash :: hashes (length (take_while (is_char c_hash) l))).
  now rewrite <- IH.
Qed.

Lemma stops_drop_while (p : char -> bool) (l : str) : stops p (drop_while p l).
Proof.
  induction l as [|x l IH]; [exact I|]. simpl.
  destruct (p x) eqn:E; [exact IH|exact E].
Qed.

Lemma stops_app (p : char -> bool) (a b : str) :
  stops p a -> (a = [] -> stops p b) -> stops p (a ++ b).
Proof. destruct a as [|x a]; simpl; auto. Qed.

Lemma stops_line_end (p : char -> bool) (rest : str) :
  (forall x, isLineTerminator x = true -> p x = false) ->
  line_end rest -> stops p rest.
Proof. intros Hp Hr. destruct rest as [|x rest]; simpl in *; auto. Qed.

Lemma lt_not_hash (x : char) : isLineTerminator x = true -> is_char c_hash x = false.
Proof. intro H. unfold is_char. now apply lt_not_char. Qed.

Lemma whitespace_not_hash (x : char) : isWhiteSpace x = true -> is_char c_hash x = false.
Proof.
  intro H. unfold is_char. destruct (N.eqb_spec x c_hash); [subst; discriminate|reflexivity].
Qed.

Lemma blank_to_break_intro (ws : str) (x : char) (s : str) :
  forallb isWhiteSpace ws = true -> isLineTerminator x = true ->
  blank_to_break (ws ++ x :: s) = true.
Proof.
  intros Hws Hx. induction ws as [|y ws IH]; cbn [app blank_to_break].
  - now rewrite Hx.
  - simpl in Hws. apply andb_prop in Hws. destruct Hws as [Hy Hws].
    rewrite Hy, IH by assumption. apply orb_true_r.
Qed.

Lemma skipn_hashes (n : nat) (d : str) : skipn n (hashes n ++ d) = d.
Proof.
  rewrite <- (hashes_length n) at 1.
  now rewrite skipn_app, skipn_all, Nat.sub_diag.
Qed.

Lemma firstn_hashes (k n : nat) (d : str) :
  k <= n -> firstn k (hashes n ++ d) = hashes k.
Proof.
  intro H. replace n with (k + (n - k)) by lia.
  rewrite hashes_add, <- app_assoc.
  rewrite <- (hashes_length k) at 1. apply firstn_length_app.
Qed.

(** A line that starts with hashes: the hashes the pattern takes, the
    whitespace after them and the content. *)
Lemma heading_line_parts (l : str) :
  forallb not_lt l = true ->
  length (take_while (is_char c_hash) l) <> 0 ->
  let k := Nat.min (length (take_while (is_char c_hash) l)) 6 in
  let ws := take_while isWhiteSpace (skipn k l) in
  let content := drop_while isWhiteSpace (skipn k l) in
  l = hashes k ++ ws ++ content
  /\ 1 <= k <= 6
  /\ forallb isWhiteSpace ws = true
  /\ forallb not_lt content = true
  /\ stops isWhiteSpace content
  /\ (k = 6 \/ (stops (is_char c_hash) (ws ++ content)
                /\ k = length (take_while (is_char c_hash) l))).
Proof.
  intros Hl Hn k ws content.
  pose proof (take_drop_while (is_char c_hash) l) as Hsplit.
  rewrite take_while_hashes in Hsplit.
  set (n := length (take_while (is_char c_hash) l)) in *.
  assert (Hk : k <= n) by (unfold k; lia).
  assert (Hfirst : l = hashes k ++ skipn k l).
  { rewrite <- (firstn_skipn k l) at 1. f_equal.
    rewrite Hsplit. now apply firstn_hashes. }
  assert (Hparts : skipn k l = ws ++ content) by apply take_drop_while.
  split; [now rewrite <- Hparts|].
  split; [unfold k; lia|].
  split; [apply forallb_take_while|].
  split.
  { rewrite Hfirst, Hparts, !forallb_app in Hl.
    apply andb_prop in Hl. destruct Hl as [_ Hl].
    apply andb_prop in Hl. tauto. }
  split; [apply stops_drop_while|].
  destruct (Nat.le_gt_cases 6 n) as [H6|H6]; [left; unfold k; lia|right].
  assert (Ek : k = n) by (unfold k; lia).
  split; [|exact Ek].
  rewrite <- Hparts, Ek.
  assert (Hd : skipn n l = drop_while (is_char c_hash) l).
  { rewrite Hsplit at 1. apply skipn_hashes. }
  rewrite Hd. apply stops_drop_while.
Qed.

Lemma heading_on_line (l rest : str) :
  forallb not_lt l = true -> line_end rest -> bare_heading (l ++ rest) = false ->
  exec_at heading_re true (l ++ rest)
  = match heading_line_caps l with
    | Some c => Some (length l, c)
    | None => None
    end.
Proof.
  intros Hl Hr Hb. unfold heading_line_caps.
  destruct (length (take_while (is_char c_hash) l) =? 0) eqn:En.
  - apply Nat.eqb_eq in En.
    destruct (exec_at heading_re true (l ++ rest)) as [res|] eqn:E; [|reflexivity].
    apply heading_shape in E. destruct E as [_ E]. exfalso.
    destruct l as [|y l].
    + destruct rest as [|x rest]; [discriminate|]. simpl in Hr, E.
      rewrite (lt_not_hash x Hr) in E. discriminate.
    + cbn [app hash_here] in E. simpl in En. rewrite E in En. discriminate.
  - apply Nat.eqb_neq in En.
    destruct (heading_line_parts l Hl En) as (Hdec & Hk & Hws & Hc & Hstop & Hh).
    set (k := Nat.min (length (take_while (is_char c_hash) l)) 6) in *.
    set (ws := take_while isWhiteSpace (skipn k l)) in *.
    set (content := drop_while isWhiteSpace (skipn k l)) in *.
    assert (Hlen : length l = length (hashes k ++ ws ++ content)) by now rewrite <- Hdec.
    rewrite Hlen.
    replace (l ++ rest) with (hashes k ++ ws ++ content ++ rest)
      by (transitivity ((hashes k ++ ws ++ content) ++ rest);
          [now rewrite <- !app_assoc | now rewrite <- Hdec]).
    apply heading_exec; auto.
    + destruct Hh as [Hh|[Hh _]]; [now left|right].
      rewrite app_assoc. apply stops_app; [exact Hh|].
      intros _. apply stops_line_end; [exact lt_not_hash|exact Hr].
    + apply stops_app; [exact Hstop|]. intro Hnil.
      destruct rest as [|x s]; [exact I|]. exfalso. simpl in Hr.
      rewrite Hnil, app_nil_r in Hdec.
      unfold bare_heading in Hb. rewrite Hdec in Hb.
      rewrite <- app_assoc in Hb.
      assert (Hws' : stops (is_char c_hash) (ws ++ x :: s)).
      { destruct ws as [|y ws']; simpl; [now apply lt_not_hash|].
        simpl in Hws. apply andb_prop in Hws. destruct Hws as [Hy _].
        now apply whitespace_not_hash. }
      destruct (ws ++ x :: s) as [|z t] eqn:Ez; [destruct ws; discriminate|].
      simpl in Hws'.
      rewrite (take_while_app_stop (is_char c_hash) (hashes k) z t) in Hb
        by (auto; now apply forallb_hashes).
      rewrite (drop_while_app_stop (is_char c_hash) (hashes k) z t) in Hb
        by (auto; now apply forallb_hashes).
      rewrite hashes_length, <- Ez, blank_to_break_intro in Hb by assumption.
      destruct k as [|k']; [lia|].
      assert (Hle : (S k' <=? 6) = true) by (apply Nat.leb_le; lia).
      rewrite Hle in Hb. discriminate.
Qed.

Lemma heading_exec_not_bol (s : str) : exec_at heading_re false s = None.
Proof.
  destruct (exec_at heading_re false s) as [res|] eqn:E; [|reflexivity].
  apply heading_shape in E. destruct E; discriminate.
Qed.

Lemma heading_exec_at_terminator (x : char) (s : str) :
  isLineTerminator x = true -> exec_at heading_re true (x :: s) = None.
Proof.
  intro Hx. destruct (exec_at heading_re true (x :: s)) as [res|] eqn:E; [|reflexivity].
  apply heading_shape in E. destruct E as [_ E]. simpl in E.
  rewrite (lt_not_hash x Hx) in E. discriminate.
Qed.

Lemma heading_rewrite_line (l : str) :
  rewrite_line heading_cb heading_line_caps l = heading_line l.
Proof.
  unfold rewrite_line, heading_line_caps, heading_line.
  destruct (length (take_while (is_char c_hash) l) =? 0); [reflexivity|].
  unfold heading_cb. cbn [cap_str cap Nat.eqb]. now rewrite hashes_length.
Qed.

(** The heading rule rewrites a text line by line when no line but the
    last is a heading marker alone. *)
Lemma heading_rule_by_line (text : str) :
  at_line_start bare_heading true text = false ->
  heading_rule text = map_lines heading_line [] text.
Proof.
  intro H. unfold heading_rule.
  rewrite (@replace_by_line heading_re heading_cb heading_line_caps bare_heading
             heading_exec_not_bol eq_refl heading_exec_at_terminator
             heading_on_line eq_refl text H).
  apply map_lines_ext. exact heading_rewrite_line.
Qed.

(** ** The quotation pattern on a line *)

Lemma quote_exec (ws content rest : str) :
  forallb isWhiteSpace ws = true ->
  forallb not_lt content = true ->
  stops isWhiteSpace (content ++ rest) ->
  line_end rest ->
  exec_at quote_re true (c_gt :: ws ++ content ++ rest)
  = Some (length (c_gt :: ws ++ content), [(1, content)]).
Proof.
  intros Hws Hc Hs Hr. unfold exec_at, quote_re, rch, rstar.
  cbn [rmatch]. unfold cset_mem at 1. rewrite N.eqb_refl.
  apply rep_greedy_max.
  - exact Hws.
  - lia.
  - exact I.
  - right. exact Hs.
  - apply rep_greedy_max.
    + exact Hc.
    + lia.
    + exact I.
    + right. now apply line_end_stops_dot.
    + rewrite (firstn_app_diff content rest).
      assert (E : length (c_gt :: ws ++ content ++ rest) - length rest
                  = length (c_gt :: ws ++ content)).
      { cbn [length]. rewrite !length_app. lia. }
      rewrite E.
      destruct rest as [|x rest]; [reflexivity|]. simpl in Hr. now rewrite Hr.
Qed.

Lemma lt_not_gt (x : char) : isLineTerminator x = true -> is_char c_gt x = false.
Proof. intro H. unfold is_char. now apply lt_not_char. Qed.

Lemma quote_on_line (l rest : str) :
  forallb not_lt l = true -> line_end rest -> bare_quote (l ++ rest) = false ->
  exec_at quote_re true (l ++ rest)
  = match quote_line_caps l with
    | Some c => Some (length l, c)
    | None => None
    end.
Proof.
  intros Hl Hr Hb. unfold quote_line_caps.
  destruct l as [|g l].
  - destruct (exec_at quote_re true ([] ++ rest)) as [res|] eqn:E; [|reflexivity].
    apply quote_shape in E. destruct E as [_ E]. exfalso.
    destruct rest as [|x rest]; [discriminate|]. simpl in Hr, E.
    rewrite (lt_not_gt x Hr) in E. discriminate.
  - destruct (is_char c_gt g) eqn:Hg.
    + apply N.eqb_eq in Hg. subst g.
      simpl in Hl.
      pose proof (take_drop_while isWhiteSpace l) as Hdec.
      set (ws := take_while isWhiteSpace l) in *.
      set (content := drop_while isWhiteSpace l) in *.
      assert (Hws : forallb isWhiteSpace ws = true) by apply forallb_take_while.
      assert (Hc : forallb not_lt content = true).
      { rewrite Hdec, forallb_app in Hl. apply andb_prop in Hl. tauto. }
      assert (Hlen : length (c_gt :: l) = length (c_gt :: ws ++ content))
        by now rewrite <- Hdec.
      rewrite Hlen.
      replace ((c_gt :: l) ++ rest) with (c_gt :: ws ++ content ++ rest)
        by (cbn [app]; f_equal; rewrite app_assoc; now rewrite <- Hdec).
      apply quote_exec; auto.
      apply stops_app; [apply stops_drop_while|]. intro Hnil.
      destruct rest as [|x s]; [exact I|]. exfalso. simpl in Hr.
      rewrite Hnil, app_nil_r in Hdec.
      cbn [app bare_quote] in Hb. unfold is_char at 1 in Hb.
      rewrite N.eqb_refl, Hdec, blank_to_break_intro in Hb by assumption.
      discriminate.
    + destruct (exec_at quote_re true ((g :: l) ++ rest)) as [res|] eqn:E;
        [|reflexivity].
      apply quote_shape in E. destruct E as [_ E]. simpl in E. congruence.
Qed.

Lemma quote_exec_not_bol (s : str) : exec_at quote_re false s = None.
Proof.
  destruct (exec_at quote_re false s) as [res|] eqn:E; [|reflexivity].
  apply quote_shape in E. destruct E; discriminate.
Qed.

Lemma quote_exec_at_terminator (x : char) (s : str) :
  isLineTerminator x = true -> exec_at quote_re true (x :: s) = None.
Proof.
  intro Hx. destruct (exec_at quote_re true (x :: s)) as [res|] eqn:E; [|reflexivity].
  apply quote_shape in E. destruct E as [_ E]. simpl in E.
  rewrite (lt_not_gt x Hx) in E. discriminate.
Qed.

Lemma quote_rewrite_line (l : str) :
  rewrite_line (expand (lit "<blockquote>$1</blockquote>")) quote_line_caps l
  = quote_line l.
Proof.
  unfold rewrite_line, quote_line_caps, quote_line.
  destruct l as [|x l]; [reflexivity|].
  destruct (is_char c_gt x); [|reflexivity].
  apply expand_blockquote.
Qed.

(** The quotation rule rewrites a text line by line when no line but the
    last is a quotation marker alone. *)
Lemma quote_rule_by_line (text : str) :
  at_line_start bare_quote true text = false ->
  quote_rule text = map_lines quote_line [] text.
Proof.
  intro H. unfold quote_rule.
  rewrite (@replace_by_line quote_re (expand (lit "<blockquote>$1</blockquote>"))
             quote_line_caps bare_quote
             quote_exec_not_bol eq_refl quote_exec_at_terminator
             quote_on_line eq_refl text H).
  apply map_lines_ext. exact quote_rewrite_line.
Qed.

(** ** The list patterns on a line *)

Lemma ul_on_line_unless_bare (l rest : str) :
  forallb not_lt l = true -> line_end rest ->
  bullet_here isLineTerminator (l ++ rest) = false ->
  exec_at ul_re true (l ++ rest)
  = match ul_line_caps l with
    | Some c => Some (length l, c)
    | None => None
    end.
Proof.
  intros Hl Hr Hb.
  destruct (list_eq_dec N.eq_dec l [c_star]) as [->|Hne];
    [|now apply ul_on_line].
  destruct rest as [|x rest]; [reflexivity|]. simpl in Hr.
  cbn [app bullet_here] in Hb. unfold is_char at 1 in Hb.
  rewrite N.eqb_refl, Hr in Hb. discriminate.
Qed.

(** The list rule rewrites a text line by line when no line but the last
    is an asterisk alone. *)
Lemma ul_rule_by_line (text : str) :
  at_line_start (bullet_here isLineTerminator) true text = false ->
  ul_rule text = map_lines ul_line [] text.
Proof.
  intro H. unfold ul_rule.
  rewrite (@replace_by_line ul_re (expand (lit "<ul><li>$1</li></ul>"))
             ul_line_caps (bullet_here isLineTerminator)
             ul_exec_not_bol ul_exec_end ul_exec_at_terminator
             ul_on_line_unless_bare eq_refl text H).
  apply map_lines_ext. exact ul_rewrite_line.
Qed.

Lemma ol_exec (d : str) (b : char) (c rest : str) :
  d <> [] -> forallb isDigit d = true -> isWhiteSpace b = true ->
  forallb not_lt c = true -> line_end rest ->
  exec_at ol_re true ((d ++ c_dot :: b :: c) ++ rest)
  = Some (length (d ++ c_dot :: b :: c), [(1, c)]).
Proof.
  intros Hne Hd Hb Hc Hr. unfold exec_at, ol_re, rch, rplus, rstar.
  rewrite <- app_assoc. cbn [app rmatch].
  apply rep_greedy_max.
  - exact Hd.
  - destruct d; [contradiction|simpl; lia].
  - exact I.
  - right. reflexivity.
  - unfold cset_mem at 1. rewrite N.eqb_refl.
    unfold cset_mem at 1. rewrite Hb.
    apply rep_greedy_max.
    + exact Hc.
    + lia.
    + exact I.
    + right. now apply line_end_stops_dot.
    + rewrite (firstn_app_diff c rest).
      assert (E : length (d ++ c_dot :: b :: c ++ rest) - length rest
                  = length (d ++ c_dot :: b :: c)).
      { rewrite !length_app. cbn [length]. rewrite !length_app. lia. }
      rewrite E.
      destruct rest as [|x rest]; [reflexivity|]. simpl in Hr. now rewrite Hr.
Qed.

Lemma lt_not_digit (x : char) : isLineTerminator x = true -> isDigit x = false.
Proof.
  unfold isLineTerminator. intro H.
  repeat (apply orb_prop in H; destruct H as [H|H]);
    apply N.eqb_eq in H; subst x; reflexivity.
Qed.

Lemma lt_not_dot (x : char) : isLineTerminator x = true -> is_char c_dot x = false.
Proof. intro H. unfold is_char. now apply lt_not_char. Qed.

(** The digits a text starts with are those of its first line. *)
Lemma take_while_digit_line (l rest : str) :
  line_end rest ->
  take_while isDigit (l ++ rest) = take_while isDigit l.
Proof.
  intro Hr. induction l as [|y l IH]; cbn [app take_while].
  - destruct rest as [|x rest]; [reflexivity|]. simpl in *.
    now rewrite (lt_not_digit x Hr).
  - destruct (isDigit y); [now rewrite IH|reflexivity].
Qed.

Lemma drop_while_digit_line (l rest : str) :
  line_end rest ->
  drop_while isDigit (l ++ rest) = drop_while isDigit l ++ rest.
Proof.
  intro Hr. induction l as [|y l IH]; cbn [app drop_while].
  - destruct rest as [|x rest]; [reflexivity|]. simpl in *.
    now rewrite (lt_not_digit x Hr).
  - destruct (isDigit y); [exact IH|reflexivity].
Qed.

Lemma ol_on_line (l rest : str) :
  forallb not_lt l = true -> line_end rest ->
  number_here isLineTerminator (l ++ rest) = false ->
  exec_at ol_re true (l ++ rest)
  = match ol_line_caps l with
    | Some c => Some (length l, c)
    | None => None
    end.
Proof.
  intros Hl Hr Hb.
  assert (Hnone : number_here isWhiteSpace (l ++ rest) = false ->
                  exec_at ol_re true (l ++ rest) = None).
  { intro Hn. destruct (exec_at ol_re true (l ++ rest)) as [res|] eqn:E;
      [|reflexivity].
    apply ol_shape in E. destruct E as [_ E]. congruence. }
  unfold number_here in Hb, Hnone.
  rewrite take_while_digit_line, drop_while_digit_line in Hb, Hnone by assumption.
  unfold ol_line_caps.
  pose proof (take_drop_while isDigit l) as Hdec.
  destruct (nonempty (take_while isDigit l)) eqn:Hd;
    [|now apply Hnone].
  cbn [andb] in Hb, Hnone.
  destruct (drop_while isDigit l) as [|a [|b c]] eqn:Hdrop.
  - apply Hnone. cbn [app]. destruct rest as [|x [|y rest]]; try reflexivity.
    simpl in Hr. now rewrite (lt_not_dot x Hr).
  - cbn [app] in Hb, Hnone. destruct rest as [|x rest]; [now apply Hnone|].
    simpl in Hr. rewrite Hr, andb_true_r in Hb.
    apply Hnone. now rewrite Hb.
  - cbn [app] in Hnone.
    destruct (is_char c_dot a && isWhiteSpace b) eqn:Hab; [|now apply Hnone].
    apply andb_prop in Hab. destruct Hab as [Ha Hw]. apply N.eqb_eq in Ha. subst a.
    rewrite Hdec. apply ol_exec; auto.
    + destruct (take_while isDigit l); [discriminate|discriminate].
    + apply forallb_take_while.
    + rewrite Hdec, forallb_app in Hl. apply andb_prop in Hl.
      destruct Hl as [_ Hl]. cbn [forallb] in Hl.
      apply andb_prop in Hl. destruct Hl as [_ Hl].
      apply andb_prop in Hl. tauto.
Qed.

Lemma ol_exec_not_bol (s : str) : exec_at ol_re false s = None.
Proof.
  destruct (exec_at ol_re false s) as [res|] eqn:E; [|reflexivity].
  apply ol_shape in E. destruct E; discriminate.
Qed.

Lemma ol_exec_at_terminator (x : char) (s : str) :
  isLineTerminator x = true -> exec_at ol_re true (x :: s) = None.
Proof.
  intro Hx. destruct (exec_at ol_re true (x :: s)) as [res|] eqn:E; [|reflexivity].
  apply ol_shape in E. destruct E as [_ E]. apply number_here_head in E.
  simpl in E. rewrite (lt_not_digit x Hx) in E. discriminate.
Qed.

Lemma ol_rewrite_line (l : str) :
  rewrite_line (expand (lit "<ol><li>$1</li></ol>")) ol_line_caps l = ol_line l.
Proof.
  unfold rewrite_line, ol_line. unfold ol_line_caps at 2.
  destruct (ol_line_caps l) as [c|] eqn:E.
  - unfold ol_line_caps in E.
    destruct (nonempty (take_while isDigit l)); [|discriminate].
    destruct (drop_while isDigit l) as [|a [|b c']]; try discriminate.
    destruct (is_char c_dot a && isWhiteSpace b); [|discriminate].
    inversion E; subst. rewrite expand_ol. reflexivity.
  - unfold ol_line_caps in E. now rewrite E.
Qed.

(** The numbered-list rule rewrites a text line by line when no line but
    the last is a number with its dot alone. *)
Lemma ol_rule_by_line (text : str) :
  at_line_start (number_here isLineTerminator) true text = false ->
  ol_rule text = map_lines ol_line [] text.
Proof.
  intro H. unfold ol_rule.
  rewrite (@replace_by_line ol_re (expand (lit "<ol><li>$1</li></ol>"))
             ol_line_caps (number_here isLineTerminator)
             ol_exec_not_bol eq_refl ol_exec_at_terminator
             ol_on_line eq_refl text H).
  apply map_lines_ext. exact ol_rewrite_line.
Qed.

(** ** The line functions wrap lines in tags *)

Lemma heading_line_wraps : wraps heading_line.
Proof.
  intro l. unfold heading_line.
  destruct (length (take_while (is_char c_hash) l) =? 0) eqn:En; [now left|right].
  apply Nat.eqb_neq in En.
  set (k := Nat.min (length (take_while (is_char c_hash) l)) 6).
  exists (firstn k l ++ take_while isWhiteSpace (skipn k l)),
         (drop_while isWhiteSpace (skipn k l)),
         (lit "<h" ++ number_to_str k ++ lit ">"),
         (lit "</h" ++ number_to_str k ++ lit ">").
  split.
  { rewrite <- app_assoc, <- take_drop_while. symmetry. apply firstn_skipn. }
  split; [now rewrite <- !app_assoc|].
  assert (Hk : k = 1 \/ k = 2 \/ k = 3 \/ k = 4 \/ k = 5 \/ k = 6) by (unfold k; lia).
  destruct Hk as [->|[->|[->|[->|[->| ->]]]]]; split; reflexivity.
Qed.

Lemma quote_line_wraps : wraps quote_line.
Proof.
  intro l. unfold quote_line. destruct l as [|x l]; [now left|].
  destruct (is_char c_gt x); [right|now left].
  exists (x :: take_while isWhiteSpace l), (drop_while isWhiteSpace l),
         (lit "<blockquote>"), (lit "</blockquote>").
  split; [cbn [app]; now rewrite <- take_drop_while|].
  repeat split; reflexivity.
Qed.

Lemma ul_line_wraps : wraps ul_line.
Proof.
  intro l. unfold ul_line. destruct l as [|a [|b c]]; [now left|now left|].
  destruct (is_char c_star a && isWhiteSpace b); [right|now left].
  exists [a; b], c, (lit "<ul><li>"), (lit "</li></ul>").
  repeat split; reflexivity.
Qed.

Lemma ol_line_wraps : wraps ol_line.
Proof.
  intro l. unfold ol_line. destruct (ol_line_caps l) as [cp|] eqn:E; [right|now left].
  unfold ol_line_caps in E.
  destruct (nonempty (take_while isDigit l)); [|discriminate].
  pose proof (take_drop_while isDigit l) as Hdec.
  destruct (drop_while isDigit l) as [|a [|b c]]; try discriminate.
  exists (take_while isDigit l ++ [a; b]), c, (lit "<ol><li>"), (lit "</li></ol>").
  split; [now rewrite <- app_assoc|].
  repeat split; reflexivity.
Qed.

Section Wraps.

Variable g : str -> str.
Hypothesis g_wraps : wraps g.

Lemma is_tag_all (p : char -> bool) (t : str) :
  (forall x, tag_char x = true -> p x = true) ->
  is_tag t = true -> forallb p t = true.
Proof.
  intros Hp Ht. unfold is_tag in Ht. apply andb_prop in Ht. destruct Ht as [_ Ht].
  revert Ht. now apply forallb_impl.
Qed.

(** Whatever holds of every character of a line and of every tag
    character holds of every character of the line rewritten. *)
Lemma wraps_all (p : char -> bool) (l : str) :
  (forall x, tag_char x = true -> p x = true) ->
  forallb p l = true -> forallb p (g l) = true.
Proof.
  intros Hp Hl. destruct (g_wraps l) as [->|(q & c & t1 & t2 & El & Eg & H1 & H2)];
    [exact Hl|].
  rewrite Eg, !forallb_app.
  rewrite (is_tag_all p t1 Hp H1), (is_tag_all p t2 Hp H2).
  rewrite El, forallb_app in Hl. apply andb_prop in Hl. destruct Hl as [_ ->].
  reflexivity.
Qed.

Lemma wraps_line (l : str) :
  forallb not_lt l = true -> forallb not_lt (g l) = true.
Proof.
  apply wraps_all. intros x Hx. unfold tag_char in Hx.
  repeat (apply andb_prop in Hx; destruct Hx as [Hx _]). exact Hx.
Qed.

Lemma wraps_head (l : str) :
  g l = l \/ head_is (is_char 60%N) (g l) = true.
Proof.
  destruct (g_wraps l) as [->|(q & c & t1 & t2 & El & Eg & H1 & H2)]; [now left|right].
  rewrite Eg. unfold is_tag in H1. apply andb_prop in H1. destruct H1 as [H1 _].
  destruct t1; [discriminate|exact H1].
Qed.

Lemma map_lines_all (p : char -> bool) (text : str) :
  (forall x, tag_char x = true -> p x = true) ->
  forallb p text = true -> forallb p (map_lines g [] text) = true.
Proof.
  intro Hp. pattern text. apply line_ind.
  - intros l Hl H. rewrite map_lines_line by assumption. now apply wraps_all.
  - intros l x s Hl Hx IH H. rewrite map_lines_step by assumption. cbn [app].
    rewrite forallb_app in H. apply andb_prop in H. destruct H as [H1 H2].
    cbn [forallb] in H2. apply andb_prop in H2. destruct H2 as [H2 H3].
    rewrite forallb_app. cbn [forallb]. rewrite wraps_all, H2, IH by assumption.
    reflexivity.
Qed.

End Wraps.

(** ** What the line functions keep *)

Lemma at_line_start_last (P : str -> bool) (l : str) :
  forallb not_lt l = true -> at_line_start P true l = P l.
Proof.
  intro Hl. destruct l as [|y l]; cbn [at_line_start andb].
  - apply orb_false_r.
  - simpl in Hl. apply andb_prop in Hl. destruct Hl as [Hy Hl].
    unfold not_lt in Hy. apply negb_true_iff in Hy. rewrite Hy.
    rewrite <- (app_nil_r l), at_line_start_in_line by assumption.
    apply orb_false_r.
Qed.

Lemma at_line_start_step (P : str -> bool) (l : str) (x : char) (s : str) :
  forallb not_lt l = true -> isLineTerminator x = true ->
  at_line_start P true (l ++ x :: s)
  = P (l ++ x :: s) || at_line_start P true s.
Proof.
  intros Hl Hx. destruct l as [|y l]; cbn [app at_line_start andb].
  - now rewrite Hx.
  - simpl in Hl. apply andb_prop in Hl. destruct Hl as [Hy Hl].
    unfold not_lt in Hy. apply negb_true_iff in Hy. rewrite Hy.
    rewrite at_line_start_in_line by assumption.
    cbn [at_line_start andb orb]. now rewrite Hx.
Qed.

Lemma head_is_angle (q : char -> bool) (s : str) :
  q 60%N = false -> head_is (is_char 60%N) s = true -> head_is q s = false.
Proof.
  intros Hq H. destruct s as [|x s]; [discriminate|]. simpl in *.
  apply N.eqb_eq in H. now subst x.
Qed.

Lemma head_is_app (q : char -> bool) (a b : str) :
  head_is q a = true -> head_is q (a ++ b) = true.
Proof. destruct a; [discriminate|auto]. Qed.

Section WrapsStart.

Variable g : str -> str.
Hypothesis g_wraps : wraps g.
Variable P : str -> bool.
Variable q : char -> bool.
Hypothesis P_head : forall s, P s = true -> head_is q s = true.
Hypothesis q_angle : q 60%N = false.
Hypothesis P_local :
  forall l x s s',
    forallb not_lt l = true -> isLineTerminator x = true ->
    P (l ++ x :: s) = P (l ++ x :: s').

Lemma wraps_start (l rest rest' : str) :
  (rest = [] /\ rest' = [] \/
   exists x s s', isLineTerminator x = true /\ rest = x :: s /\ rest' = x :: s') ->
  forallb not_lt l = true ->
  P (l ++ rest) = false -> P (g l ++ rest') = false.
Proof.
  intros Hrest Hl H. destruct (wraps_head g_wraps l) as [->|Hh].
  - destruct Hrest as [[-> ->]|(x & s & s' & Hx & -> & ->)]; [exact H|].
    now rewrite (P_local l x s' s).
  - destruct (P (g l ++ rest')) eqn:E; [|reflexivity].
    apply P_head in E. apply (head_is_app _ _ rest') in Hh.
    rewrite (head_is_angle q _ q_angle Hh) in E. discriminate.
Qed.

(** No line of the rewritten text starts with what no line of the text
    starts with. *)
Lemma map_lines_start (text : str) :
  at_line_start P true text = false ->
  at_line_start P true (map_lines g [] text) = false.
Proof.
  pattern text. apply line_ind.
  - intros l Hl H. rewrite map_lines_line by assumption. cbn [app].
    rewrite at_line_start_last in * by (auto; now apply wraps_line).
    rewrite <- (app_nil_r (g l)). apply (@wraps_start l [] []); auto.
    now rewrite app_nil_r.
  - intros l x s Hl Hx IH H. rewrite map_lines_step by assumption. cbn [app].
    rewrite at_line_start_step in * by (auto; now apply wraps_line).
    apply orb_false_elim in H. destruct H as [H1 H2].
    rewrite (IH H2), orb_false_r.
    apply (@wraps_start l (x :: s) (x :: map_lines g [] s)); auto.
    right. exists x, s, (map_lines g [] s). auto.
Qed.

End WrapsStart.

Lemma bare_quote_head (s : str) :
  bare_quote s = true -> head_is (is_char c_gt) s = true.
Proof.
  destruct s as [|x r]; [discriminate|]. simpl. intro H.
  apply andb_prop in H. tauto.
Qed.

Lemma blank_to_break_local (l : str) (x : char) (s s' : str) :
  forallb not_lt l = true -> isLineTerminator x = true ->
  blank_to_break (l ++ x :: s) = blank_to_break (l ++ x :: s').
Proof.
  intros Hl Hx. induction l as [|y l IH]; cbn [app blank_to_break].
  - now rewrite Hx.
  - simpl in Hl. apply andb_prop in Hl. destruct Hl as [_ Hl].
    now rewrite IH.
Qed.

Lemma bare_quote_local (l : str) (x : char) (s s' : str) :
  forallb not_lt l = true -> isLineTerminator x = true ->
  bare_quote (l ++ x :: s) = bare_quote (l ++ x :: s').
Proof.
  intros Hl Hx. destruct l as [|y l]; cbn [app bare_quote].
  - now rewrite (lt_not_gt x Hx).
  - simpl in Hl. apply andb_prop in Hl. destruct Hl as [_ Hl].
    now rewrite (blank_to_break_local l x s s').
Qed.

Lemma lt_not_star (x : char) : isLineTerminator x = true -> is_char c_star x = false.
Proof. intro H. unfold is_char. now apply lt_not_char. Qed.

Lemma bullet_here_local (sp : char -> bool) (l : str) (x : char) (s s' : str) :
  forallb not_lt l = true -> isLineTerminator x = true ->
  bullet_here sp (l ++ x :: s) = bullet_here sp (l ++ x :: s').
Proof.
  intros Hl Hx. destruct l as [|a [|b l]]; cbn [app bullet_here]; try reflexivity.
  rewrite (lt_not_star x Hx). now destruct s, s'.
Qed.

Lemma number_here_local (sp : char -> bool) (l : str) (x : char) (s s' : str) :
  forallb not_lt l = true -> isLineTerminator x = true ->
  number_here sp (l ++ x :: s) = number_here sp (l ++ x :: s').
Proof.
  intros Hl Hx. unfold number_here.
  rewrite !take_while_digit_line, !drop_while_digit_line by exact Hx.
  f_equal.
  destruct (drop_while isDigit l) as [|a [|b c]]; cbn [app]; try reflexivity.
  rewrite (lt_not_dot x Hx). now destruct s, s'.
Qed.

(** ** An exclamation mark before an opening bracket *)

Lemma bang_bracket_has_bracket (s : str) :
  bang_bracket s = true -> existsb (is_char c_lbracket) s = true.
Proof.
  destruct s as [|a [|b s]]; try discriminate. simpl. intro H.
  apply andb_prop in H. destruct H as [_ H]. rewrite H. apply orb_true_r.
Qed.

Lemma bang_bracket_app_l (a b : str) :
  existsb (is_char c_bang) a = false ->
  anywhere bang_bracket (a ++ b) = anywhere bang_bracket b.
Proof.
  induction a as [|y a IH]; [reflexivity|]. simpl. intro H.
  apply orb_false_elim in H. destruct H as [Hy Ha].
  rewrite (IH Ha), Hy. now destruct (a ++ b).
Qed.

Lemma bang_bracket_app_r (a b : str) :
  existsb (is_char c_lbracket) b = false ->
  anywhere bang_bracket (a ++ b) = anywhere bang_bracket a.
Proof.
  intro Hb. induction a as [|y a IH].
  - cbn [app].
    rewrite (anywhere_none_of_char _ _ _ bang_bracket_has_bracket Hb). reflexivity.
  - cbn [app anywhere]. rewrite IH. f_equal.
    destruct a as [|z a]; [|reflexivity].
    cbn [app]. destruct b as [|z b]; [reflexivity|].
    simpl in Hb. apply orb_false_elim in Hb. destruct Hb as [Hz _].
    simpl. rewrite Hz. apply andb_false_r.
Qed.

Lemma anywhere_suffix (P : str -> bool) (a b : str) :
  anywhere P (a ++ b) = false -> anywhere P b = false.
Proof.
  induction a as [|y a IH]; [auto|]. cbn [app anywhere]. intro H.
  apply orb_false_elim in H. destruct H as [_ H]. now apply IH.
Qed.

Lemma anywhere_mono (P P' : str -> bool) (s : str) :
  (forall s', P s' = true -> P' s' = true) ->
  anywhere P' s = false -> anywhere P s = false.
Proof.
  intro HP. induction s as [|x s IH]; cbn [anywhere]; intro H.
  - rewrite orb_false_r in *. destruct (P []) eqn:E; [|reflexivity].
    apply HP in E. congruence.
  - apply orb_false_elim in H. destruct H as [H1 H2]. rewrite (IH H2), orb_false_r.
    destruct (P (x :: s)) eqn:E; [|reflexivity]. apply HP in E. congruence.
Qed.

Lemma is_tag_no (d : char) (t : str) :
  tag_char d = false -> is_tag t = true -> existsb (is_char d) t = false.
Proof.
  intros Hd Ht. unfold is_tag in Ht. apply andb_prop in Ht. destruct Ht as [_ Ht].
  apply (forallb_existsb_false tag_char); [|exact Ht].
  intros x Hx. unfold is_char. destruct (N.eqb_spec x d); [subst; congruence|reflexivity].
Qed.

Lemma lt_not_bang (x : char) : isLineTerminator x = true -> is_char c_bang x = false.
Proof. intro H. unfold is_char. now apply lt_not_char. Qed.

Lemma lt_not_lbracket (x : char) :
  isLineTerminator x = true -> is_char c_lbracket x = false.
Proof. intro H. unfold is_char. now apply lt_not_char. Qed.

Lemma bang_bracket_break (a : str) (x : char) (b : str) :
  isLineTerminator x = true ->
  anywhere bang_bracket (a ++ x :: b)
  = anywhere bang_bracket a || anywhere bang_bracket b.
Proof.
  intro Hx. induction a as [|y a IH].
  - cbn [app anywhere bang_bracket]. rewrite (lt_not_bang x Hx).
    now destruct b.
  - cbn [app anywhere]. rewrite IH, orb_assoc. f_equal. f_equal.
    destruct a as [|z a]; [|reflexivity]. cbn [app bang_bracket].
    rewrite (lt_not_lbracket x Hx). apply andb_false_r.
Qed.

Section WrapsBang.

Variable g : str -> str.
Hypothesis g_wraps : wraps g.

Lemma wraps_bang (l : str) :
  anywhere bang_bracket l = false -> anywhere bang_bracket (g l) = false.
Proof.
  intro H. destruct (g_wraps l) as [->|(p & c & t1 & t2 & El & Eg & H1 & H2)];
    [exact H|].
  rewrite Eg, bang_bracket_app_l by (now apply is_tag_no).
  rewrite bang_bracket_app_r by (now apply is_tag_no).
  rewrite El in H. now apply anywhere_suffix in H.
Qed.

Lemma map_lines_bang (text : str) :
  anywhere bang_bracket text = false ->
  anywhere bang_bracket (map_lines g [] text) = false.
Proof.
  pattern text. apply line_ind.
  - intros l Hl H. rewrite map_lines_line by assumption. now apply wraps_bang.
  - intros l x s Hl Hx IH H. rewrite map_lines_step by assumption. cbn [app].
    rewrite bang_bracket_break in * by assumption.
    apply orb_false_elim in H. destruct H as [H1 H2].
    now rewrite wraps_bang, IH.
Qed.

End WrapsBang.

Lemma image_form_bang_bracket (s : str) :
  image_form s = true -> bang_bracket s = true.
Proof.
  destruct s as [|a [|b s]]; try discriminate. unfold image_form, bang_bracket.
  intro H. apply andb_prop in H. tauto.
Qed.

Lemma anywhere_backtick (s : str) :
  anywhere backtick_here s = existsb (is_char c_backtick) s.
Proof.
  induction s as [|x s IH]; [reflexivity|]. cbn [anywhere existsb].
  now rewrite IH.
Qed.

Lemma existsb_negb_forallb (q : char -> bool) (s : str) :
  existsb q s = negb (forallb (fun x => negb (q x)) s).
Proof.
  induction s as [|x s IH]; [reflexivity|]. simpl. rewrite IH.
  now rewrite negb_andb, negb_involutive.
Qed.

Lemma map_lines_no_backtick (g : str -> str) (text : str) :
  wraps g ->
  anywhere backtick_here text = false ->
  anywhere backtick_here (map_lines g [] text) = false.
Proof.
  intros Hg. rewrite !anywhere_backtick, !existsb_negb_forallb.
  intro H. apply negb_false_iff in H. apply negb_false_iff.
  apply (map_lines_all Hg); [|exact H].
  intros x Hx. unfold tag_char in Hx.
  apply andb_prop in Hx. destruct Hx as [Hx _].
  apply andb_prop in Hx. destruct Hx as [Hx _].
  apply andb_prop in Hx. tauto.
Qed.

(** ** The renderer on a text of line constructs *)

Lemma line_text_parts (text : str) :
  line_text text = true ->
  anywhere asterisk_pair text = false /\
  anywhere strike_span text = false /\
  anywhere backtick_here text = false /\
  anywhere link_form text = false /\
  anywhere bang_bracket text = false /\
  at_line_start bare_heading true text = false /\
  at_line_start bare_quote true text = false /\
  at_line_start (bullet_here isLineTerminator) true text = false /\
  at_line_start (number_here isLineTerminator) true text = false.
Proof.
  unfold line_text. intro H.
  repeat (apply andb_prop in H; destruct H as [H ?]).
  repeat match goal with
         | Hc : negb _ = true |- _ => apply negb_true_iff in Hc
         end.
  repeat split; assumption.
Qed.

(** The rules from the inline-code rule on, on a text that the heading
    rule has rewritten line by line. *)
Lemma after_heading_by_line (text : str) :
  anywhere backtick_here text = false ->
  anywhere bang_bracket text = false ->
  at_line_start bare_quote true text = false ->
  at_line_start (bullet_here isLineTerminator) true text = false ->
  at_line_start (number_here isLineTerminator) true text = false ->
  after_heading (map_lines heading_line [] text) = map_lines render_line [] text.
Proof.
  intros C3 C5 C7 C8 C9.
  set (t1 := map_lines heading_line [] text).
  assert (B1 : anywhere backtick_here t1 = false)
    by now apply map_lines_no_backtick; [apply heading_line_wraps|].
  assert (Q1 : at_line_start bare_quote true t1 = false)
    by exact (map_lines_start heading_line_wraps bare_quote (is_char c_gt)
                bare_quote_head eq_refl bare_quote_local text C7).
  assert (U1 : at_line_start (bullet_here isLineTerminator) true t1 = false)
    by exact (map_lines_start heading_line_wraps _ (is_char c_star)
                (bullet_here_head isLineTerminator) eq_refl
                (bullet_here_local isLineTerminator) text C8).
  assert (N1 : at_line_start (number_here isLineTerminator) true t1 = false)
    by exact (map_lines_start heading_line_wraps _ isDigit
                (number_here_head isLineTerminator) eq_refl
                (number_here_local isLineTerminator) text C9).
  assert (I1 : anywhere bang_bracket t1 = false)
    by exact (map_lines_bang heading_line_wraps text C5).
  set (t2 := map_lines quote_line [] t1).
  assert (U2 : at_line_start (bullet_here isLineTerminator) true t2 = false)
    by exact (map_lines_start quote_line_wraps _ (is_char c_star)
                (bullet_here_head isLineTerminator) eq_refl
                (bullet_here_local isLineTerminator) t1 U1).
  assert (N2 : at_line_start (number_here isLineTerminator) true t2 = false)
    by exact (map_lines_start quote_line_wraps _ isDigit
                (number_here_head isLineTerminator) eq_refl
                (number_here_local isLineTerminator) t1 N1).
  assert (I2 : anywhere bang_bracket t2 = false)
    by exact (map_lines_bang quote_line_wraps t1 I1).
  set (t3 := map_lines ul_line [] t2).
  assert (N3 : at_line_start (number_here isLineTerminator) true t3 = false)
    by exact (map_lines_start ul_line_wraps _ isDigit
                (number_here_head isLineTerminator) eq_refl
                (number_here_local isLineTerminator) t2 N2).
  assert (I3 : anywhere bang_bracket t3 = false)
    by exact (map_lines_bang ul_line_wraps t2 I2).
  set (t4 := map_lines ol_line [] t3).
  assert (I4 : anywhere image_form t4 = false).
  { apply (anywhere_mono _ bang_bracket _ image_form_bang_bracket).
    exact (map_lines_bang ol_line_wraps t3 I3). }
  unfold after_heading.
  rewrite (code_rule_id t1 B1), (fence_rule_id t1 B1).
  rewrite (quote_rule_by_line t1 Q1). fold t2.
  rewrite (ul_rule_by_line t2 U2). fold t3.
  rewrite (ol_rule_by_line t3 N3). fold t4.
  rewrite (image_rule_id t4 I4).
  rewrite (table_row_after_head t4), (table_head_rule_lines t4).
  unfold t4, t3, t2, t1.
  rewrite (map_lines_twice quote_line heading_line (wraps_line heading_line_wraps)).
  rewrite (map_lines_twice ul_line (fun l => quote_line (heading_line l))).
  2:{ intros l Hl. apply (wraps_line quote_line_wraps).
      now apply (wraps_line heading_line_wraps). }
  rewrite (map_lines_twice ol_line
             (fun l => ul_line (quote_line (heading_line l)))).
  2:{ intros l Hl. apply (wraps_line ul_line_wraps).
      apply (wraps_line quote_line_wraps).
      now apply (wraps_line heading_line_wraps). }
  rewrite (map_lines_twice head_line
             (fun l => ol_line (ul_line (quote_line (heading_line l))))).
  2:{ intros l Hl. apply (wraps_line ol_line_wraps).
      apply (wraps_line ul_line_wraps).
      apply (wraps_line quote_line_wraps).
      now apply (wraps_line heading_line_wraps). }
  reflexivity.
Qed.

(** A text of line constructs is rendered line by line. *)
Lemma render_by_line (text : str) :
  line_text text = true ->
  parseMarkdownToHTML text = map_lines render_line [] text.
Proof.
  intro H. apply line_text_parts in H.
  destruct H as (C1 & C2 & C3 & C4 & C5 & C6 & C7 & C8 & C9).
  change (parseMarkdownToHTML text)
    with (after_heading (heading_rule (before_heading text))).
  unfold before_heading.
  rewrite (bold_rule_id text C1), (italic_rule_id text C1).
  rewrite (strike_rule_id text C2), (link_rule_id text C4).
  rewrite (heading_rule_by_line text C6).
  now apply after_heading_by_line.
Qed.

(** ** Lines in their text *)

Lemma map_lines_app (g : str -> str) (pre s : str) :
  g [] = [] -> bol_after true pre = true ->
  map_lines g [] (pre ++ s) = map_lines g [] pre ++ map_lines g [] s.
Proof.
  intro Hg. pattern pre. apply line_ind.
  - intros l Hl Hb. destruct l as [|y l].
    + cbn [app map_lines]. now rewrite Hg.
    + rewrite bol_after_line in Hb; [discriminate|assumption|discriminate].
  - intros l x r Hl Hx IH Hb.
    rewrite bol_after_app in Hb. cbn [bol_after] in Hb. rewrite Hx in Hb.
    rewrite <- app_assoc. cbn [app].
    rewrite !map_lines_step by assumption. cbn [app].
    rewrite (IH Hb). now rewrite <- app_assoc.
Qed.

Lemma map_lines_line_then (g : str -> str) (l tail : str) :
  g [] = [] -> forallb not_lt l = true -> line_end tail ->
  map_lines g [] (l ++ tail) = g l ++ map_lines g [] tail.
Proof.
  intros Hg Hl Ht. destruct tail as [|x s].
  - rewrite app_nil_r, map_lines_line by assumption. cbn [app map_lines].
    now rewrite Hg, app_nil_r.
  - simpl in Ht. rewrite map_lines_step by assumption.
    cbn [app map_lines]. now rewrite Ht, Hg.
Qed.

(** A line in its text: after a line terminator or at the start, and up
    to a line terminator or the end. *)
Lemma map_lines_at (g : str -> str) (pre l tail : str) :
  g [] = [] -> bol_after true pre = true ->
  forallb not_lt l = true -> line_end tail ->
  map_lines g [] (pre ++ l ++ tail)
  = map_lines g [] pre ++ g l ++ map_lines g [] tail.
Proof.
  intros Hg Hb Hl Ht.
  now rewrite map_lines_app, map_lines_line_then.
Qed.

Lemma map_lines_join_nl (g : str -> str) (ls : list str) :
  ls <> [] -> Forall (fun l => forallb not_lt l = true) ls ->
  map_lines g [] (join_nl ls) = join_nl (List.map g ls).
Proof.
  induction ls as [|l ls IH]; [contradiction|]. intros _ H.
  inversion H as [|? ? Hl Hls]; subst.
  destruct ls as [|l' ls].
  - cbn [join_nl List.map]. now rewrite map_lines_line.
  - change (join_nl (l :: l' :: ls)) with (l ++ c_nl :: join_nl (l' :: ls)).
    change (join_nl (List.map g (l :: l' :: ls)))
      with (g l ++ c_nl :: join_nl (List.map g (l' :: ls))).
    rewrite map_lines_step by (auto; reflexivity). cbn [app].
    rewrite IH; [reflexivity|discriminate|assumption].
Qed.

(** ** Headings of seven hashes or more, and list items *)

Lemma tag_line_rendered (t : str) :
  head_is (is_char 60%N) t = true ->
  head_line (ol_line (ul_line (quote_line t))) = t.
Proof.
  destruct t as [|x t]; [discriminate|]. cbn [head_is]. intro H.
  apply N.eqb_eq in H. subst x. destruct t; reflexivity.
Qed.

Lemma heading_line_surplus (k : nat) (l : str) :
  7 <= k ->
  heading_line (hashes k ++ l) = lit "<h6>" ++ hashes (k - 6) ++ l ++ lit "</h6>".
Proof.
  intro Hk. unfold heading_line.
  rewrite (take_while_app_all (is_char c_hash) (hashes k) l)
    by now apply forallb_hashes.
  rewrite length_app, hashes_length.
  set (m := length (take_while (is_char c_hash) l)).
  replace (k + m =? 0) with false by (symmetry; apply Nat.eqb_neq; lia).
  replace (Nat.min (k + m) 6) with 6 by lia.
  replace k with (6 + (k - 6)) at 1 by lia.
  rewrite hashes_add, <- app_assoc, skipn_hashes.
  replace (k - 6) with (S (k - 7)) by lia.
  change (hashes (S (k - 7))) with (c_hash :: hashes (k - 7)).
  cbn [app drop_while]. change (isWhiteSpace c_hash) with false.
  cbn iota. cbn [app]. rewrite <- app_assoc. reflexivity.
Qed.

Lemma render_line_surplus (k : nat) (l : str) :
  7 <= k ->
  render_line (hashes k ++ l) = lit "<h6>" ++ hashes (k - 6) ++ l ++ lit "</h6>".
Proof.
  intro Hk. unfold render_line. rewrite heading_line_surplus by assumption.
  now apply tag_line_rendered.
Qed.

Lemma render_line_item (b : char) (c : str) :
  isWhiteSpace b = true ->
  render_line (c_star :: b :: c) = lit "<ul><li>" ++ c ++ lit "</li></ul>".
Proof.
  intro Hb. unfold render_line.
  change (quote_line (heading_line (c_star :: b :: c))) with (c_star :: b :: c).
  unfold ul_line. unfold is_char at 1. rewrite N.eqb_refl, Hb. cbn [andb].
  unfold li.
  exact (tag_line_rendered (lit "<ul><li>" ++ c ++ lit "</li></ul>") eq_refl).
Qed.

Lemma hashes_line (k : nat) (l : str) :
  forallb not_lt l = true -> forallb not_lt (hashes k ++ l) = true.
Proof. intro H. rewrite forallb_app, H. now rewrite forallb_hashes. Qed.

(** C9, as amended: when no line but the last of the text that reaches
    the heading rule is a heading marker alone (one to six hashes and only
    whitespace), the heading rule rewrites that text line by line, and a
    line of seven or more hashes and a rest becomes the heading of level
    six whose content is the surplus hashes followed by the rest of the
    line; the renderer's result is that of the later rules on the text so
    rewritten.  In a text of line constructs the renderer as a whole works
    line by line, and such a line becomes exactly that heading, after the
    lines before it and before the lines after it, whatever they are. *)
Theorem surplus_hashes_heading :
  (forall text,
      at_line_start bare_heading true text = false ->
      heading_rule text = map_lines heading_line [] text)
  /\ (forall k l,
         7 <= k ->
         heading_line (hashes k ++ l)
         = lit "<h6>" ++ hashes (k - 6) ++ l ++ lit "</h6>")
  /\ (forall pre k l tail,
         7 <= k -> bol_after true pre = true ->
         forallb not_lt l = true -> line_end tail ->
         at_line_start bare_heading true (pre ++ (hashes k ++ l) ++ tail) = false ->
         heading_rule (pre ++ (hashes k ++ l) ++ tail)
         = map_lines heading_line [] pre ++
           (lit "<h6>" ++ hashes (k - 6) ++ l ++ lit "</h6>") ++
           map_lines heading_line [] tail)
  /\ (forall text,
         at_line_start bare_heading true (before_heading text) = false ->
         parseMarkdownToHTML text
         = after_heading (map_lines heading_line [] (before_heading text)))
  /\ (forall text,
         line_text text = true ->
         parseMarkdownToHTML text = map_lines render_line [] text)
  /\ (forall pre k l tail,
         7 <= k -> bol_after true pre = true ->
         forallb not_lt l = true -> line_end tail ->
         line_text (pre ++ (hashes k ++ l) ++ tail) = true ->
         parseMarkdownToHTML (pre ++ (hashes k ++ l) ++ tail)
         = map_lines render_line [] pre ++
           (lit "<h6>" ++ hashes (k - 6) ++ l ++ lit "</h6>") ++
           map_lines render_line [] tail)
  /\ parseMarkdownToHTML (lit "####### x") = lit "<h6># x</h6>"
  /\ parseMarkdownToHTML (lit "Hi!" ++ [c_nl] ++ lit "####### x")
     = lit "Hi!" ++ [c_nl] ++ lit "<h6># x</h6>".
Proof.
  split; [exact heading_rule_by_line|].
  split; [exact heading_line_surplus|].
  split.
  { intros pre k l tail Hk Hb Hl Ht H.
    rewrite (heading_rule_by_line _ H).
    rewrite map_lines_at by (auto; now apply hashes_line).
    now rewrite heading_line_surplus. }
  split.
  { intros text H.
    change (parseMarkdownToHTML text)
      with (after_heading (heading_rule (before_heading text))).
    now rewrite (heading_rule_by_line _ H). }
  split; [exact render_by_line|].
  split.
  { intros pre k l tail Hk Hb Hl Ht H.
    rewrite (render_by_line _ H).
    rewrite map_lines_at by (auto; now apply hashes_line).
    now rewrite render_line_surplus. }
  split; vm_compute; reflexivity.
Qed.

Lemma surplus_hashes_heading_witness :
  heading_rule (lit "# a" ++ [c_nl] ++ lit "####### b *c*")
  = map_lines heading_line [] (lit "# a" ++ [c_nl] ++ lit "####### b *c*")
  /\ parseMarkdownToHTML (lit "**a**" ++ [c_nl] ++ lit "####### b")
     = after_heading (map_lines heading_line []
                        (before_heading (lit "**a**" ++ [c_nl] ++ lit "####### b")))
  /\ parseMarkdownToHTML (lit "a" ++ [c_nl] ++ lit "######## b" ++ [c_nl] ++ lit "1. c")
     = map_lines render_line []
         (lit "a" ++ [c_nl] ++ lit "######## b" ++ [c_nl] ++ lit "1. c")
  /\ heading_rule ((lit "<em>Notes</em>" ++ [c_nl]) ++
                (hashes 8 ++ lit " deep `x`") ++ ([c_nl] ++ lit "# end"))
  = map_lines heading_line [] (lit "<em>Notes</em>" ++ [c_nl]) ++
    (lit "<h6>" ++ hashes (8 - 6) ++ lit " deep `x`" ++ lit "</h6>") ++
    map_lines heading_line [] ([c_nl] ++ lit "# end")
  /\ parseMarkdownToHTML ((lit "Hi!" ++ [c_nl]) ++
                          (hashes 9 ++ lit " deep & <b>") ++ ([c_nl] ++ lit "> bye"))
     = map_lines render_line [] (lit "Hi!" ++ [c_nl]) ++
       (lit "<h6>" ++ hashes (9 - 6) ++ lit " deep & <b>" ++ lit "</h6>") ++
       map_lines render_line [] ([c_nl] ++ lit "> bye").
Proof.
  destruct surplus_hashes_heading as (Hall & _ & Hrule & Hparse & Hlines & Hrender & _).
  split; [apply Hall; reflexivity|].
  split; [apply Hparse; reflexivity|].
  split; [apply Hlines; reflexivity|].
  split.
  - apply Hrule; [lia | reflexivity | reflexivity | reflexivity | reflexivity].
  - apply Hrender; [lia | reflexivity | reflexivity | reflexivity | reflexivity].
Defined.

(** C9, as stated: a line of seven hashes that follows a line made of a
    single hash is not wrapped at all; the heading of the line before it
    takes it as content. *)
Lemma surplus_hashes_counterexample :
  parseMarkdownToHTML (lit "#" ++ [c_nl] ++ lit "####### x")
  = lit "<h1>####### x</h1>"
  /\ contains (lit "<h6>") (parseMarkdownToHTML (lit "#" ++ [c_nl] ++ lit "####### x"))
     = false.
Proof. split; vm_compute; reflexivity. Qed.

(** ** A bold and an italic span in a text *)

Lemma bold_exec_lone_star (bol : bool) (y : char) (s : str) :
  not_star y = true -> exec_at bold_re bol (c_star :: y :: s) = None.
Proof.
  intro Hy. unfold not_star in Hy. apply negb_true_iff in Hy.
  unfold exec_at, bold_re, rch. cbn [rmatch].
  unfold cset_mem at 1. rewrite N.eqb_refl.
  unfold cset_mem at 1. unfold is_char in Hy. now rewrite Hy.
Qed.

Lemma bold_exec_not_star (bol : bool) (x : char) (s : str) :
  is_char c_star x = false -> exec_at bold_re bol (x :: s) = None.
Proof.
  intro Hx. destruct (exec_at bold_re bol (x :: s)) as [res|] eqn:E; [|reflexivity].
  apply bold_trigger in E. unfold trig_char in E. congruence.
Qed.

(** The bold rule passes over a text whose asterisks are all followed by
    another character of it. *)
Lemma bold_passes_lone_stars (f : replacement) (p : str) :
  forall bol s,
    lone_stars p = true ->
    replace_go bold_re f 0 bol (p ++ s) = p ++ replace_go bold_re f 0 (bol_after bol p) s.
Proof.
  intros bol s H. apply replace_go_prefix. revert bol H.
  induction p as [|z p IH]; intros bol H a x b E.
  - destruct a; discriminate.
  - cbn [lone_stars] in H. apply andb_prop in H. destruct H as [Hz Hp].
    destruct a as [|a0 a].
    + inversion E; subst z b. cbn [bol_after].
      destruct (is_char c_star x) eqn:Hx; [|now apply bold_exec_not_star].
      apply N.eqb_eq in Hx. subst x. cbn [negb orb] in Hz.
      destruct p as [|y p]; [discriminate|]. cbn [app].
      now apply bold_exec_lone_star.
    + inversion E; subst z. cbn [bol_after]. now apply (IH _ Hp a x b).
Qed.

Lemma lone_stars_none (p : str) : forallb not_star p = true -> lone_stars p = true.
Proof.
  induction p as [|x p IH]; [reflexivity|]. simpl. intro H.
  apply andb_prop in H. destruct H as [Hx Hp]. unfold not_star in Hx.
  now rewrite Hx, IH.
Qed.

Lemma lone_stars_app_none (p q : str) :
  forallb not_star p = true -> lone_stars (p ++ q) = lone_stars q.
Proof.
  induction p as [|x p IH]; [reflexivity|]. simpl. intro H.
  apply andb_prop in H. destruct H as [Hx Hp]. unfold not_star in Hx.
  now rewrite Hx, IH.
Qed.

Lemma lone_stars_star (q : str) :
  head_is not_star q = true -> lone_stars (c_star :: q) = lone_stars q.
Proof. intro H. cbn [lone_stars]. now rewrite H, orb_true_r. Qed.

Lemma head_is_nonempty_all (p : char -> bool) (a b : str) :
  a <> [] -> forallb p a = true -> head_is p (a ++ b) = true.
Proof.
  intros Hne H. destruct a as [|x a]; [contradiction|]. simpl in *.
  apply andb_prop in H. tauto.
Qed.

Lemma span_not_star (w : str) :
  forallb span_char w = true -> forallb not_star w = true.
Proof.
  apply forallb_impl. intros x Hx. apply span_char_spec in Hx.
  unfold not_star. destruct Hx as [_ Hx]. now rewrite Hx.
Qed.

Lemma replace_go_star_free (r : regex) (f : replacement) (p : str) :
  (forall bol x s res, exec_at r bol (x :: s) = Some res ->
                       trig_char c_star bol x = true) ->
  (forall bol, exec_at r bol [] = None) ->
  forallb not_star p = true ->
  forall bol, replace_go r f 0 bol p = p.
Proof.
  intros Ht Hend Hp bol.
  rewrite <- (app_nil_r p) at 1.
  rewrite (replace_go_quiet r f (trig_char c_star) Ht p bol [])
    by now apply quiet_no_star.
  cbn [replace_go]. rewrite Hend. apply app_nil_r.
Qed.

(** The bold span first. *)
Lemma bold_italic_in_text (pre b mid i post : str) :
  forallb not_star pre = true -> forallb span_char b = true ->
  forallb not_star mid = true -> forallb span_char i = true ->
  forallb not_star post = true ->
  bold_rule (pre ++ lit "**" ++ b ++ lit "**" ++ mid ++ lit "*" ++ i ++ lit "*" ++ post)
  = pre ++ lit "<strong>" ++ b ++ lit "</strong>" ++ mid ++ lit "*" ++ i ++ lit "*" ++ post
  /\ italic_rule (pre ++ lit "<strong>" ++ b ++ lit "</strong>" ++ mid ++
                  lit "*" ++ i ++ lit "*" ++ post)
     = pre ++ lit "<strong>" ++ b ++ lit "</strong>" ++ mid ++
       lit "<em>" ++ i ++ lit "</em>" ++ post.
Proof.
  intros Hpre Hb Hmid Hi Hpost.
  pose proof (span_not_star b Hb) as Hb'.
  pose proof (span_not_star i Hi) as Hi'.
  split.
  - unfold bold_rule, replace.
    rewrite (replace_go_quiet bold_re _ (trig_char c_star) bold_trigger pre true _
               (quiet_no_star pre Hpre true)).
    f_equal.
    replace (lit "**" ++ b ++ lit "**" ++ mid ++ lit "*" ++ i ++ lit "*" ++ post)
      with ((c_star :: c_star :: b ++ [c_star; c_star]) ++
            mid ++ lit "*" ++ i ++ lit "*" ++ post)
      by (flat; reflexivity).
    rewrite (@replace_go_match bold_re _ _ _ _ [(1, b)]);
      [|discriminate|now apply bold_exec_span].
    rewrite replace_go_no_match.
    + rewrite expand_strong. cbn [cap_str cap Nat.eqb]. flat. reflexivity.
    + intros a s E.
      destruct (exec_at bold_re _ s) as [res|] eqn:He; [|reflexivity].
      apply bold_needs_four in He.
      assert (Hc : count_stars (a ++ s) = 2).
      { rewrite <- E, !count_stars_app.
        rewrite (count_stars_none mid), (count_stars_none i),
          (count_stars_none post) by assumption.
        reflexivity. }
      rewrite count_stars_app in Hc. lia.
  - unfold italic_rule, replace.
    replace (pre ++ lit "<strong>" ++ b ++ lit "</strong>" ++ mid ++
             lit "*" ++ i ++ lit "*" ++ post)
      with ((pre ++ lit "<strong>" ++ b ++ lit "</strong>" ++ mid) ++
            (c_star :: i ++ [c_star]) ++ post)
      by (flat; reflexivity).
    rewrite (replace_go_quiet italic_re _ (trig_char c_star) italic_trigger _ true _).
    2:{ apply quiet_no_star. rewrite !forallb_app, Hpre, Hb', Hmid. reflexivity. }
    rewrite (@replace_go_match italic_re _ _ _ _ [(1, i)]);
      [|discriminate|now apply italic_exec_span].
    rewrite (replace_go_star_free italic_re _ post italic_trigger) by (auto; reflexivity).
    rewrite expand_em. cbn [cap_str cap Nat.eqb]. flat. reflexivity.
Qed.

(** The italic span first, with a text between the spans. *)
Lemma italic_bold_in_text (pre i mid b post : str) :
  forallb not_star pre = true -> forallb span_char i = true -> i <> [] ->
  forallb not_star mid = true -> mid <> [] -> forallb span_char b = true ->
  forallb not_star post = true ->
  bold_rule (pre ++ lit "*" ++ i ++ lit "*" ++ mid ++ lit "**" ++ b ++ lit "**" ++ post)
  = pre ++ lit "*" ++ i ++ lit "*" ++ mid ++ lit "<strong>" ++ b ++ lit "</strong>" ++ post
  /\ italic_rule (pre ++ lit "*" ++ i ++ lit "*" ++ mid ++
                  lit "<strong>" ++ b ++ lit "</strong>" ++ post)
     = pre ++ lit "<em>" ++ i ++ lit "</em>" ++ mid ++
       lit "<strong>" ++ b ++ lit "</strong>" ++ post.
Proof.
  intros Hpre Hi Hine Hmid Hmne Hb Hpost.
  pose proof (span_not_star b Hb) as Hb'.
  pose proof (span_not_star i Hi) as Hi'.
  split.
  - unfold bold_rule, replace.
    replace (pre ++ lit "*" ++ i ++ lit "*" ++ mid ++ lit "**" ++ b ++ lit "**" ++ post)
      with ((pre ++ c_star :: i ++ c_star :: mid) ++
            (c_star :: c_star :: b ++ [c_star; c_star]) ++ post)
      by (flat; reflexivity).
    rewrite bold_passes_lone_stars.
    2:{ rewrite lone_stars_app_none by assumption.
        rewrite lone_stars_star by now apply head_is_nonempty_all.
        rewrite lone_stars_app_none by assumption.
        rewrite lone_stars_star.
        - now apply lone_stars_none.
        - rewrite <- (app_nil_r mid). now apply head_is_nonempty_all. }
    rewrite (@replace_go_match bold_re _ _ _ _ [(1, b)]);
      [|discriminate|now apply bold_exec_span].
    rewrite (replace_go_star_free bold_re _ post bold_trigger) by (auto; reflexivity).
    rewrite expand_strong. cbn [cap_str cap Nat.eqb]. flat. reflexivity.
  - unfold italic_rule, replace.
    replace (pre ++ lit "*" ++ i ++ lit "*" ++ mid ++
             lit "<strong>" ++ b ++ lit "</strong>" ++ post)
      with (pre ++ (c_star :: i ++ [c_star]) ++
            (mid ++ lit "<strong>" ++ b ++ lit "</strong>" ++ post))
      by (flat; reflexivity).
    rewrite (replace_go_quiet italic_re _ (trig_char c_star) italic_trigger pre true _
               (quiet_no_star pre Hpre true)).
    rewrite (@replace_go_match italic_re _ _ _ _ [(1, i)]);
      [|discriminate|now apply italic_exec_span].
    rewrite (replace_go_star_free italic_re _ _ italic_trigger).
    + rewrite expand_em. cbn [cap_str cap Nat.eqb]. flat. reflexivity.
    + reflexivity.
    + rewrite !forallb_app, Hmid, Hb', Hpost. reflexivity.
Qed.

(** The rules after the italic rule find nothing in a text without
    constructs. *)
Lemma spans_rendered (t r : str) :
  italic_rule (bold_rule t) = r ->
  plain_text isWhiteSpace r = true ->
  parseMarkdownToHTML t = r.
Proof.
  intros Hr Hp.
  pose proof (plain_text_parse r Hp) as Hid.
  unfold plain_text in Hp.
  repeat (apply andb_prop in Hp; destruct Hp as [Hp _]).
  apply negb_true_iff in Hp.
  unfold parseMarkdownToHTML in *.
  rewrite (bold_rule_id r Hp), (italic_rule_id r Hp) in Hid.
  now rewrite Hr.
Qed.


(** C6, as amended: when no line but the last of the text that reaches
    the list rule is an asterisk alone, the list rule rewrites that text
    line by line: every line that starts with an asterisk and a whitespace
    character becomes a list of its own around what follows them, the other
    lines and all line terminators stay, and the renderer's result is that
    of the later rules on the text so rewritten.  In a text of line
    constructs the renderer as a whole works line by line, and such a line
    becomes exactly that list, after the lines before it and before the
    lines after it; lines joined by newlines are rendered one by one and
    joined by the same newlines. *)
Theorem list_items_wrapped_separately :
  (forall text,
      at_line_start (bullet_here isLineTerminator) true text = false ->
      ul_rule text = map_lines ul_line [] text)
  /\ (forall b c,
         isWhiteSpace b = true ->
         ul_line (c_star :: b :: c) = lit "<ul><li>" ++ c ++ lit "</li></ul>")
  /\ (forall pre b c tail,
         isWhiteSpace b = true -> bol_after true pre = true ->
         forallb not_lt (b :: c) = true -> line_end tail ->
         at_line_start (bullet_here isLineTerminator) true
                       (pre ++ (c_star :: b :: c) ++ tail) = false ->
         ul_rule (pre ++ (c_star :: b :: c) ++ tail)
         = map_lines ul_line [] pre ++
           (lit "<ul><li>" ++ c ++ lit "</li></ul>") ++
           map_lines ul_line [] tail)
  /\ (forall text,
         at_line_start (bullet_here isLineTerminator) true (before_list text) = false ->
         parseMarkdownToHTML text
         = after_list (map_lines ul_line [] (before_list text)))
  /\ (forall text,
         line_text text = true ->
         parseMarkdownToHTML text = map_lines render_line [] text)
  /\ (forall pre b c tail,
         isWhiteSpace b = true -> bol_after true pre = true ->
         forallb not_lt (b :: c) = true -> line_end tail ->
         line_text (pre ++ (c_star :: b :: c) ++ tail) = true ->
         parseMarkdownToHTML (pre ++ (c_star :: b :: c) ++ tail)
         = map_lines render_line [] pre ++
           (lit "<ul><li>" ++ c ++ lit "</li></ul>") ++
           map_lines render_line [] tail)
  /\ (forall ls,
         ls <> [] -> Forall (fun l => forallb not_lt l = true) ls ->
         line_text (join_nl ls) = true ->
         parseMarkdownToHTML (join_nl ls) = join_nl (List.map render_line ls))
  /\ parseMarkdownToHTML (lit "* item") = lit "<ul><li>item</li></ul>"
  /\ parseMarkdownToHTML (lit "* one" ++ [c_nl] ++ lit "* two")
     = lit "<ul><li>one</li></ul>" ++ [c_nl] ++ lit "<ul><li>two</li></ul>"
  /\ parseMarkdownToHTML (lit "Shopping:" ++ [c_nl] ++ lit "* milk" ++ [c_nl] ++
                          lit "* eggs")
     = lit "Shopping:" ++ [c_nl] ++ lit "<ul><li>milk</li></ul>" ++ [c_nl] ++
       lit "<ul><li>eggs</li></ul>"
  /\ parseMarkdownToHTML (lit "* a ~ b") = lit "<ul><li>a ~ b</li></ul>".
Proof.
  assert (Hitem : forall b c,
             isWhiteSpace b = true ->
             ul_line (c_star :: b :: c) = lit "<ul><li>" ++ c ++ lit "</li></ul>").
  { intros b c Hb. unfold ul_line. unfold is_char at 1.
    now rewrite N.eqb_refl, Hb. }
  split; [exact ul_rule_by_line|].
  split; [exact Hitem|].
  split.
  { intros pre b c tail Hb Hpre Hl Ht H.
    rewrite (ul_rule_by_line _ H).
    rewrite map_lines_at by (auto; cbn [forallb]; now rewrite Hl).
    now rewrite Hitem. }
  split.
  { intros text H.
    change (parseMarkdownToHTML text)
      with (after_list (ul_rule (before_list text))).
    now rewrite (ul_rule_by_line _ H). }
  split; [exact render_by_line|].
  split.
  { intros pre b c tail Hb Hpre Hl Ht H.
    rewrite (render_by_line _ H).
    rewrite map_lines_at by (auto; cbn [forallb]; now rewrite Hl).
    now rewrite render_line_item. }
  split.
  { intros ls Hne Hls H. rewrite (render_by_line _ H).
    now apply map_lines_join_nl. }
  repeat split; vm_compute; reflexivity.
Qed.

Lemma list_items_wrapped_separately_witness :
  ul_rule (lit "* a *b*" ++ [c_nl] ++ lit "*")
  = map_lines ul_line [] (lit "* a *b*" ++ [c_nl] ++ lit "*")
  /\ ul_line (c_star :: c_tab :: lit "x") = lit "<ul><li>" ++ lit "x" ++ lit "</li></ul>"
  /\ ul_rule ((lit "<h1>List</h1>" ++ [c_nl]) ++
              (c_star :: c_space :: lit "<strong>milk</strong>") ++
              ([c_nl] ++ lit "*eggs"))
     = map_lines ul_line [] (lit "<h1>List</h1>" ++ [c_nl]) ++
       (lit "<ul><li>" ++ lit "<strong>milk</strong>" ++ lit "</li></ul>") ++
       map_lines ul_line [] ([c_nl] ++ lit "*eggs")
  /\ parseMarkdownToHTML (lit "* **milk**" ++ [c_nl] ++ lit "* `eggs`")
     = after_list (map_lines ul_line []
                     (before_list (lit "* **milk**" ++ [c_nl] ++ lit "* `eggs`")))
  /\ parseMarkdownToHTML (lit "# List" ++ [c_nl] ++ lit "* milk" ++ [c_nl] ++ lit "2. eggs")
     = map_lines render_line []
         (lit "# List" ++ [c_nl] ++ lit "* milk" ++ [c_nl] ++ lit "2. eggs")
  /\ parseMarkdownToHTML ((lit "Shopping:" ++ [c_nl]) ++
                          (c_star :: c_space :: lit "eggs & <b>bread</b>") ++
                          ([c_nl] ++ lit "> done"))
     = map_lines render_line [] (lit "Shopping:" ++ [c_nl]) ++
       (lit "<ul><li>" ++ lit "eggs & <b>bread</b>" ++ lit "</li></ul>") ++
       map_lines render_line [] ([c_nl] ++ lit "> done")
  /\ parseMarkdownToHTML (join_nl [lit "* milk"; lit "tea"; lit "* eggs"])
     = join_nl (List.map render_line [lit "* milk"; lit "tea"; lit "* eggs"]).
Proof.
  destruct list_items_wrapped_separately
    as (Hall & Hitem & Hrule & Hparse & Hlines & Hrender & Hjoin & _).
  split; [apply Hall; reflexivity|].
  split; [apply Hitem; reflexivity|].
  split; [apply Hrule; reflexivity|].
  split; [apply Hparse; reflexivity|].
  split; [apply Hlines; reflexivity|].
  split; [apply Hrender; reflexivity|].
  apply Hjoin; [discriminate | repeat constructor | reflexivity].
Defined.

(** C6, as stated: a line that starts with an asterisk and a space is not
    made a list when its content holds another asterisk, for the italic
    rule has taken the pair before; and it is taken into the item of the
    line before it when that line is a lone asterisk. *)
Lemma list_items_counterexample :
  parseMarkdownToHTML (lit "* a*") = lit "<em> a</em>"
  /\ parseMarkdownToHTML (lit "* a*" ++ [c_nl] ++ lit "* b")
     = lit "<em> a</em>" ++ [c_nl] ++ lit "<ul><li>b</li></ul>"
  /\ parseMarkdownToHTML (lit "* a*" ++ [c_nl] ++ lit "* b")
     <> lit "<ul><li>a*</li></ul>" ++ [c_nl] ++ lit "<ul><li>b</li></ul>"
  /\ parseMarkdownToHTML (lit "*" ++ [c_nl] ++ lit "* b") = lit "<ul><li>* b</li></ul>".
Proof.
  repeat split; try (vm_compute; reflexivity). vm_compute. discriminate.
Qed.




(** * Further properties *)

(** ** The handler: status codes and the provider *)

(** X1: on a fresh event the handler sends a reply only with the status
    left at 200 and after reading the body, and an error object only with
    status 400 or 500; when it throws it has set no status. *)
Theorem handler_status_discipline
        (generateContent : ChatApi.value -> ChatApi.value -> ChatApi.value ->
                           ChatApi.sdk_result)
        (cfg : option ChatApi.value) (req : ChatApi.body)
        (out : ChatApi.outcome) (ev : ChatApi.event) :
  ChatApi.handler generateContent cfg req ChatApi.fresh = (out, ev) ->
  match out with
  | ChatApi.Returns (ChatApi.Reply _) =>
      ChatApi.status ev = 200 /\ ChatApi.bodyRead ev = true
  | ChatApi.Returns (ChatApi.Error _) =>
      ChatApi.status ev = 400 \/ ChatApi.status ev = 500
  | ChatApi.Throws => ChatApi.status ev = 200
  end.
Proof.
  unfold ChatApi.handler. intro H.
  destruct cfg as [apiKey|]; [|inversion H; reflexivity].
  destruct (ChatApi.truthy apiKey); cbn in H; [|inversion H; auto].
  destruct req as [|userMessage history0]; [inversion H; reflexivity|].
  destruct (ChatApi.truthy userMessage); cbn in H; [|inversion H; auto].
  destruct (generateContent _ _ _) as [text|message blockReason];
    inversion H; subst; cbn; auto.
Qed.

Lemma handler_status_discipline_witness :
  ChatApi.status
    {| ChatApi.status := 500; ChatApi.bodyRead := true |} = 400
  \/ ChatApi.status
       {| ChatApi.status := 500; ChatApi.bodyRead := true |} = 500.
Proof.
  apply (@handler_status_discipline
           (fun _ _ _ => ChatApi.SdkThrows ChatApi.VUndefined (Some (lit "SAFETY")))
           (Some (ChatApi.VString (lit "k")))
           (ChatApi.BodyOf (ChatApi.VString (lit "hi")) ChatApi.VUndefined)
           (ChatApi.Returns
              (ChatApi.Error (ChatApi.VString (ChatApi.msg_blocked (lit "SAFETY")))))
           {| ChatApi.status := 500; ChatApi.bodyRead := true |}).
  reflexivity.
Defined.

(** X2: the provider has no part in the answer unless the key is
    configured, the body is there and the message is truthy; and then the
    answer is made from what the provider gives for the key, the message
    and the history, the history being replaced by an empty array when it
    is falsy. *)
Theorem provider_consulted_only_with_key_and_message
        (g1 g2 : ChatApi.value -> ChatApi.value -> ChatApi.value ->
                 ChatApi.sdk_result)
        (cfg : option ChatApi.value) (req : ChatApi.body) (ev : ChatApi.event) :
  (forall apiKey userMessage history0,
      cfg = Some apiKey -> req = ChatApi.BodyOf userMessage history0 ->
      ChatApi.truthy apiKey = true -> ChatApi.truthy userMessage = true ->
      g1 apiKey userMessage
         (if ChatApi.truthy history0 then history0 else ChatApi.VObject)
      = g2 apiKey userMessage
           (if ChatApi.truthy history0 then history0 else ChatApi.VObject)) ->
  ChatApi.handler g1 cfg req ev = ChatApi.handler g2 cfg req ev.
Proof.
  intro H. unfold ChatApi.handler.
  destruct cfg as [apiKey|]; [|reflexivity].
  destruct (ChatApi.truthy apiKey) eqn:Hk; cbn; [|reflexivity].
  destruct req as [|userMessage history0]; [reflexivity|].
  destruct (ChatApi.truthy userMessage) eqn:Hm; cbn; [|reflexivity].
  now rewrite (H apiKey userMessage history0 eq_refl eq_refl Hk Hm).
Qed.

Lemma provider_consulted_only_with_key_and_message_witness :
  ChatApi.handler (fun _ _ _ => ChatApi.SdkText (ChatApi.VString (lit "a")))
                  (Some (ChatApi.VString (lit "k")))
                  (ChatApi.BodyOf (ChatApi.VString []) ChatApi.VUndefined)
                  ChatApi.fresh
  = ChatApi.handler (fun _ _ _ => ChatApi.SdkThrows ChatApi.VUndefined None)
                    (Some (ChatApi.VString (lit "k")))
                    (ChatApi.BodyOf (ChatApi.VString []) ChatApi.VUndefined)
                    ChatApi.fresh.
Proof.
  apply provider_consulted_only_with_key_and_message.
  intros apiKey userMessage history0 _ Hreq _ Hm.
  inversion Hreq; subst. discriminate Hm.
Defined.

(** ** Trimming *)

Lemma drop_ws_head (s : str) : head_is isWhiteSpace (drop_ws s) = false.
Proof.
  induction s as [|x s IH]; [reflexivity|]. simpl.
  destruct (isWhiteSpace x) eqn:E; [exact IH|]. simpl. exact E.
Qed.

Lemma drop_ws_fix (s : str) :
  head_is isWhiteSpace s = false -> drop_ws s = s.
Proof. destruct s as [|x s]; simpl; [reflexivity|]. now intros ->. Qed.

Lemma drop_ws_nil_iff (s : str) :
  drop_ws s = [] <-> forallb isWhiteSpace s = true.
Proof.
  induction s as [|x s IH]; simpl; [tauto|].
  destruct (isWhiteSpace x); simpl; [exact IH|].
  split; discriminate.
Qed.

Lemma drop_ws_keeps_last (u : str) (x : char) :
  isWhiteSpace x = false -> exists u', drop_ws (u ++ [x]) = u' ++ [x].
Proof.
  intro Hx. induction u as [|y u IH]; simpl.
  - rewrite Hx. now exists [].
  - destruct (isWhiteSpace y); [exact IH|]. now exists (y :: u).
Qed.

Lemma trim_head (s : str) : head_is isWhiteSpace (trim s) = false.
Proof.
  unfold trim. pose proof (drop_ws_head s) as H.
  destruct (drop_ws s) as [|x a]; [reflexivity|]. simpl in H.
  cbn [rev]. destruct (drop_ws_keeps_last (rev a) x H) as [u' E].
  rewrite E, rev_app_distr. simpl. exact H.
Qed.

Lemma trim_last (s : str) : head_is isWhiteSpace (rev (trim s)) = false.
Proof. unfold trim. rewrite rev_involutive. apply drop_ws_head. Qed.

Lemma trim_fix (s : str) :
  head_is isWhiteSpace s = false -> head_is isWhiteSpace (rev s) = false ->
  trim s = s.
Proof.
  intros H1 H2. unfold trim. rewrite (drop_ws_fix s H1), (drop_ws_fix _ H2).
  apply rev_involutive.
Qed.

Lemma trim_idem (s : str) : trim (trim s) = trim s.
Proof. apply trim_fix; [apply trim_head | apply trim_last]. Qed.

Lemma trim_nil_iff (s : str) :
  trim s = [] <-> forallb isWhiteSpace s = true.
Proof.
  unfold trim. split.
  - intro H. apply (f_equal (@rev char)) in H. rewrite rev_involutive in H.
    simpl in H. apply drop_ws_nil_iff in H. rewrite forallb_rev in H.
    pose proof (drop_ws_head s) as Hh.
    destruct (drop_ws s) as [|x a] eqn:E.
    + now apply drop_ws_nil_iff.
    + simpl in H, Hh. rewrite Hh in H. discriminate.
  - intro H. apply drop_ws_nil_iff in H. now rewrite H.
Qed.

(** ** The history of a request *)

Lemma slice_history (A : Type) (old : list A) (m : A) :
  slice (-10) (-1) (old ++ [m]) = skipn (length old - 9) old.
Proof.
  unfold slice. rewrite length_app. cbn [length].
  change (-10 <? 0)%Z with true. change (-1 <? 0)%Z with true. cbv iota.
  replace (Z.to_nat (Z.max (Z.of_nat (length old + 1) + -10) 0))
    with (length old - 9) by lia.
  replace (Z.to_nat
             (Z.max (Z.max (Z.of_nat (length old + 1) + -1) 0 -
                     Z.max (Z.of_nat (length old + 1) + -10) 0) 0))
    with (length old - (length old - 9)) by lia.
  rewrite skipn_app.
  replace (length old - 9 - length old) with 0 by lia. cbn [skipn].
  rewrite firstn_app.
  rewrite length_skipn.
  replace (length old - (length old - 9) - (length old - (length old - 9)))
    with 0 by lia.
  cbn [firstn]. rewrite app_nil_r.
  apply firstn_all2. rewrite length_skipn. lia.
Qed.

(** ** The chat component *)

(** X3: [sendMessage] makes no request exactly when the input consists of
    whitespace only (the empty input included), and then it leaves the
    whole state as it is: no message is pushed and the input is kept. *)
Theorem blank_input_sends_nothing (st : ChatBox.component) :
  (ChatBox.sendMessage_request st = None
   <-> forallb isWhiteSpace (ChatBox.newMessage st) = true)
  /\ (forallb isWhiteSpace (ChatBox.newMessage st) = true ->
      forall fetch, ChatBox.sendMessage fetch st = st).
Proof.
  assert (H : ChatBox.sendMessage_request st = None
              <-> forallb isWhiteSpace (ChatBox.newMessage st) = true).
  { rewrite <- trim_nil_iff. unfold ChatBox.sendMessage_request.
    destruct (trim (ChatBox.newMessage st)); split; try reflexivity; discriminate. }
  split; [exact H|].
  intros Hb fetch. unfold ChatBox.sendMessage.
  apply H in Hb. now rewrite Hb.
Qed.

Lemma blank_input_sends_nothing_witness :
  ChatBox.sendMessage (fun _ => ChatBox.Resolved (lit "hi"))
                      (ChatBox.type_input (lit "   ") ChatBox.initial)
  = ChatBox.type_input (lit "   ") ChatBox.initial.
Proof.
  destruct (blank_input_sends_nothing
              (ChatBox.type_input (lit "   ") ChatBox.initial)) as [_ H].
  apply H. reflexivity.
Defined.

(** X4: the request [sendMessage] makes carries the trimmed input as
    message and, as history, the last nine of the messages that were there
    before the call (all of them when they are fewer): at most nine
    entries, the message being sent not among them. *)
Theorem request_history_last_nine
        (st st1 : ChatBox.component) (req : ChatBox.request) :
  ChatBox.sendMessage_request st = Some (st1, req) ->
  ChatBox.message req = trim (ChatBox.newMessage st)
  /\ ChatBox.history req
     = skipn (length (ChatBox.messages st) - 9) (ChatBox.messages st)
  /\ length (ChatBox.history req) <= 9
  /\ (length (ChatBox.messages st) <= 9 ->
      ChatBox.history req = ChatBox.messages st)
  /\ ChatBox.messages st1
     = ChatBox.messages st ++
       [{| ChatBox.role := ChatBox.User; ChatBox.parts := [ChatBox.message req] |}].
Proof.
  unfold ChatBox.sendMessage_request. intro H.
  destruct (trim (ChatBox.newMessage st)) as [|x t] eqn:E; [discriminate|].
  inversion H; subst; clear H. cbn [ChatBox.message ChatBox.history].
  rewrite slice_history.
  split; [reflexivity|]. split; [reflexivity|]. split; [|split].
  - rewrite length_skipn. lia.
  - intro Hl. replace (length (ChatBox.messages st) - 9) with 0 by lia.
    reflexivity.
  - unfold ChatBox.scrollToBottom. cbn.
    destruct (ChatBox.messageContainer st); reflexivity.
Qed.

Lemma request_history_last_nine_witness :
  length
    (ChatBox.history
       {| ChatBox.message := lit "hi";
          ChatBox.history := slice (-10) (-1)
            (ChatBox.messages (ChatBox.onMounted ChatBox.initial) ++
             [{| ChatBox.role := ChatBox.User; ChatBox.parts := [lit "hi"] |}]) |})
  <= 9.
Proof.
  apply (@request_history_last_nine
           (ChatBox.type_input (lit " hi ") (ChatBox.onMounted ChatBox.initial))
           {| ChatBox.newMessage := [];
              ChatBox.messages :=
                ChatBox.messages (ChatBox.onMounted ChatBox.initial) ++
                [{| ChatBox.role := ChatBox.User; ChatBox.parts := [lit "hi"] |}];
              ChatBox.isTyping := true; ChatBox.errorMessage := [];
              ChatBox.messageContainer := None |}).
  reflexivity.
Defined.

Lemma request_state (st st1 : ChatBox.component) (req : ChatBox.request) :
  ChatBox.sendMessage_request st = Some (st1, req) ->
  ChatBox.messages st1
  = ChatBox.messages st ++
    [{| ChatBox.role := ChatBox.User; ChatBox.parts := [trim (ChatBox.newMessage st)] |}]
  /\ trim (ChatBox.newMessage st) <> []
  /\ ChatBox.isTyping st1 = true.
Proof.
  unfold ChatBox.sendMessage_request. intro H.
  destruct (trim (ChatBox.newMessage st)) as [|x t] eqn:E; [discriminate|].
  inversion H; subst; clear H. unfold ChatBox.scrollToBottom. cbn.
  destruct (ChatBox.messageContainer st); cbn; repeat split; discriminate.
Qed.

Lemma settle_state (res : ChatBox.fetch_result) (st : ChatBox.component) :
  (ChatBox.messages (ChatBox.sendMessage_settle res st) = ChatBox.messages st
   \/ exists reply,
       ChatBox.messages (ChatBox.sendMessage_settle res st)
       = ChatBox.messages st ++
         [{| ChatBox.role := ChatBox.Model; ChatBox.parts := [reply] |}])
  /\ ChatBox.isTyping (ChatBox.sendMessage_settle res st) = false.
Proof.
  unfold ChatBox.sendMessage_settle, ChatBox.scrollToBottom.
  destruct res as [reply|data]; cbn;
    destruct (ChatBox.messageContainer st); cbn; eauto.
Qed.



(** X6: the typing indicator is on only while a request is out; but it can
    be off while one is still out, namely when two requests were made and
    the first of them has settled. *)
Theorem typing_indicator_and_requests :
  (forall n st, ChatBox.reachable n st -> ChatBox.isTyping st = true -> 0 < n)
  /\ (exists st, ChatBox.reachable 1 st /\ ChatBox.isTyping st = false).
Proof.
  split.
  - intros n st H. induction H as [c|n st text H IH|n st c H IH
                                  |n st st1 req H IH Hreq|n st res H IH].
    + unfold ChatBox.onMounted, ChatBox.scrollToBottom. cbn.
      destruct c; cbn; discriminate.
    + exact IH.
    + exact IH.
    + intros _. lia.
    + destruct (settle_state res st) as [_ Ht]. rewrite Ht. discriminate.
  - eexists. split.
    + eapply (@ChatBox.reach_settle 1 _ (ChatBox.Rejected None)).
      eapply ChatBox.reach_request.
      * eapply (@ChatBox.reach_input 1 _ (lit "b")).
        eapply ChatBox.reach_request.
        -- eapply (@ChatBox.reach_input 0 _ (lit "a")).
           apply (ChatBox.reach_mounted None).
        -- reflexivity.
      * reflexivity.
    + reflexivity.
Qed.

Lemma typing_indicator_and_requests_witness :
  0 < 1.
Proof.
  destruct typing_indicator_and_requests as [H _].
  apply (H 1 (ChatBox.scrollToBottom
                {| ChatBox.newMessage := [];
                   ChatBox.messages :=
                     [ChatBox.greeting;
                      {| ChatBox.role := ChatBox.User; ChatBox.parts := [lit "a"] |}];
                   ChatBox.isTyping := true; ChatBox.errorMessage := [];
                   ChatBox.messageContainer := None |})).
  - apply (ChatBox.reach_request
             (st := ChatBox.type_input (lit "a")
                      (ChatBox.onMounted (ChatBox.set_container None ChatBox.initial)))
             (req := {| ChatBox.message := lit "a";
                        ChatBox.history := [ChatBox.greeting] |})).
    + apply ChatBox.reach_input. apply ChatBox.reach_mounted.
    + reflexivity.
  - reflexivity.
Defined.

(** X7: a request made by [sendMessage] is never answered with status 400
    by a handler whose API key is configured: its message is a non-empty
    string, so the handler reads the body and goes on to the provider. *)
Theorem client_request_never_400
        (generateContent : ChatApi.value -> ChatApi.value -> ChatApi.value ->
                           ChatApi.sdk_result)
        (apiKey : ChatApi.value)
        (st st1 : ChatBox.component) (req : ChatBox.request)
        (out : ChatApi.outcome) (ev : ChatApi.event) :
  ChatApi.truthy apiKey = true ->
  ChatBox.sendMessage_request st = Some (st1, req) ->
  ChatApi.handler generateContent (Some apiKey) (ChatBox.body_of_request req)
                  ChatApi.fresh = (out, ev) ->
  ChatApi.status ev <> 400 /\ ChatApi.bodyRead ev = true /\
  out <> ChatApi.Throws.
Proof.
  intros Hk Hreq Hrun.
  destruct (request_history_last_nine _ Hreq) as (Hm & _).
  destruct (request_state _ Hreq) as (_ & Hne & _).
  unfold ChatApi.handler, ChatBox.body_of_request in Hrun.
  rewrite Hk, Hm in Hrun. cbn in Hrun.
  destruct (trim (ChatBox.newMessage st)) as [|x t]; [contradiction|].
  cbn in Hrun.
  destruct (generateContent _ _ _) as [text|message blockReason];
    inversion Hrun; subst; cbn; repeat split; discriminate.
Qed.

Lemma client_request_never_400_witness :
  ChatApi.status {| ChatApi.status := 200; ChatApi.bodyRead := true |} <> 400.
Proof.
  apply (@client_request_never_400
           (fun _ _ _ => ChatApi.SdkText (ChatApi.VString (lit "hello")))
           (ChatApi.VString (lit "k"))
           (ChatBox.type_input (lit " hi ") (ChatBox.onMounted ChatBox.initial))
           {| ChatBox.newMessage := [];
              ChatBox.messages :=
                [ChatBox.greeting;
                 {| ChatBox.role := ChatBox.User; ChatBox.parts := [lit "hi"] |}];
              ChatBox.isTyping := true; ChatBox.errorMessage := [];
              ChatBox.messageContainer := None |}
           {| ChatBox.message := lit "hi"; ChatBox.history := [ChatBox.greeting] |}
           (ChatApi.Returns (ChatApi.Reply (ChatApi.VString (lit "hello"))))
           {| ChatApi.status := 200; ChatApi.bodyRead := true |});
    reflexivity.
Defined.

(** X8: a call of [sendMessage] with a non-blank input, with nothing else
    happening while the request is out, always clears the input and the
    typing flag and keeps the user message in the list; the reply is added
    and no error shown when the request succeeds, and when it fails nothing
    is added and the error message starts with the fixed text, followed by
    the details only if the error data flags an error. *)
Theorem sendMessage_outcome
        (fetch : ChatBox.request -> ChatBox.fetch_result)
        (st st1 : ChatBox.component) (req : ChatBox.request) :
  ChatBox.sendMessage_request st = Some (st1, req) ->
  let st' := ChatBox.sendMessage fetch st in
  let user := {| ChatBox.role := ChatBox.User;
                 ChatBox.parts := [trim (ChatBox.newMessage st)] |} in
  ChatBox.newMessage st' = [] /\ ChatBox.isTyping st' = false /\
  match fetch req with
  | ChatBox.Resolved reply =>
      (ChatBox.messages st'
       = ChatBox.messages st ++
         user :: {| ChatBox.role := ChatBox.Model; ChatBox.parts := [reply] |} :: [])
      /\ ChatBox.errorMessage st' = []
  | ChatBox.Rejected data =>
      (ChatBox.messages st' = ChatBox.messages st ++ [user])
      /\ exists details,
          ChatBox.errorMessage st' = ChatBox.msg_failed ++ details
          /\ (details <> [] ->
              exists d, data = Some d /\ ChatBox.error d = true /\
                        details = lit " Details: " ++ ChatBox.data_message d)
  end.
Proof.
  intro Hreq. cbv zeta. unfold ChatBox.sendMessage. rewrite Hreq.
  unfold ChatBox.sendMessage_request in Hreq.
  destruct (trim (ChatBox.newMessage st)) as [|x t] eqn:E; [discriminate|].
  inversion Hreq; subst; clear Hreq.
  match goal with |- context [fetch ?r] => destruct (fetch r) as [reply|data] end;
    unfold ChatBox.sendMessage_settle, ChatBox.scrollToBottom;
    destruct (ChatBox.messageContainer st); cbn;
    rewrite <- ?app_assoc; repeat split; auto.
  all: eexists; split; [reflexivity|];
    destruct data as [d|]; [destruct (ChatBox.error d) eqn:Ed|];
    intro Hd; try contradiction; eauto.
Qed.

Lemma sendMessage_outcome_witness :
  ChatBox.newMessage
    (ChatBox.sendMessage (fun _ => ChatBox.Rejected None)
       (ChatBox.type_input (lit " hi ") (ChatBox.onMounted ChatBox.initial))) = [].
Proof.
  apply (@sendMessage_outcome (fun _ => ChatBox.Rejected None)
           (ChatBox.type_input (lit " hi ") (ChatBox.onMounted ChatBox.initial))
           {| ChatBox.newMessage := [];
              ChatBox.messages :=
                [ChatBox.greeting;
                 {| ChatBox.role := ChatBox.User; ChatBox.parts := [lit "hi"] |}];
              ChatBox.isTyping := true; ChatBox.errorMessage := [];
              ChatBox.messageContainer := None |}
           {| ChatBox.message := lit "hi"; ChatBox.history := [ChatBox.greeting] |}).
  reflexivity.
Defined.

(** ** Matches and their captures *)

Lemma rmatch_sound_caps (A : Type) (r : regex) :
  forall bol s c (k : bool -> str -> caps -> option A) res,
    rmatch r bol s c k = Some res ->
    exists w rest c',
      s = w ++ rest /\ langc r bol w rest c c' /\
      k (bol_after bol w) rest c' = Some res.
Proof.
  induction r as [a|a lo hi g| | |i r IH|r1 IH1 r2 IH2];
    intros bol s c k res H.
  - destruct (rmatch_sound _ _ _ _ _ H) as (w & rest & c' & Hs & Hl & Hk).
    simpl in H. destruct s as [|x s]; [discriminate|].
    destruct (cset_mem a x) eqn:Ha; [|discriminate].
    exists [x], s, c. simpl. eauto 10.
  - simpl in H.
    assert (Hex : exists w rest,
               s = w ++ rest /\ forallb (cset_mem a) w = true /\ lo <= length w /\
               within hi (length w) /\ k (bol_after bol w) rest c = Some res).
    { destruct g;
        [ apply rep_greedy_sound in H | apply rep_lazy_sound in H ]; exact H. }
    destruct Hex as (w & rest & Hs & Hall & Hlo & Hhi & Hk).
    exists w, rest, c. simpl. repeat split; auto.
  - simpl in H. destruct bol; [|discriminate]. exists [], s, c. simpl.
    repeat split; auto.
  - simpl in H. exists [], s, c. simpl. repeat split; auto.
    + unfold line_end. destruct s as [|x s]; auto.
      destruct (isLineTerminator x); [auto|discriminate].
    + destruct s as [|x s]; auto.
      destruct (isLineTerminator x); [auto|discriminate].
  - simpl in H. destruct (IH _ _ _ _ _ H) as (w & rest & c' & Hs & Hl & Hk).
    exists w, rest, ((i, w) :: c'). subst s. rewrite firstn_app_diff in Hk.
    split; [reflexivity|]. split; [|exact Hk].
    cbn [langc]. exists c'. auto.
  - simpl in H.
    destruct (IH1 _ _ _ _ _ H) as (w1 & rest1 & c1 & Hs1 & Hl1 & Hk1).
    destruct (IH2 _ _ _ _ _ Hk1) as (w2 & rest & c2 & Hs2 & Hl2 & Hk2).
    exists (w1 ++ w2), rest, c2. subst. rewrite <- app_assoc.
    split; [reflexivity|]. split.
    + simpl. exists w1, w2, c1. auto.
    + rewrite bol_after_app. exact Hk2.
Qed.

(** A match found by [exec_at]: the matched word, its length and the
    captures. *)
Lemma exec_at_caps (r : regex) (bol : bool) (s : str) (n : nat) (cp : caps) :
  exec_at r bol s = Some (n, cp) ->
  exists w rest, s = w ++ rest /\ n = length w /\ firstn n s = w /\
                 langc r bol w rest [] cp.
Proof.
  unfold exec_at. intro H.
  destruct (rmatch_sound_caps _ _ _ _ _ H) as (w & rest & c' & Hs & Hl & Hk).
  inversion Hk; subst. exists w, rest.
  rewrite length_app_diff. repeat split; auto. apply firstn_length_app.
Qed.

(** ** Counting characters through a rule *)

Lemma count_char_app (c : char) (a b : str) :
  count_char c (a ++ b) = count_char c a + count_char c b.
Proof. unfold count_char. now rewrite filter_app, length_app. Qed.

Lemma count_char_cons (c x : char) (s : str) :
  count_char c (x :: s) = (if is_char c x then 1 else 0) + count_char c s.
Proof. unfold count_char. simpl. destruct (is_char c x); reflexivity. Qed.

Lemma count_char_none (c : char) (p : char -> bool) (w : str) :
  p c = false -> forallb p w = true -> count_char c w = 0.
Proof.
  intros Hc. induction w as [|x w IH]; [reflexivity|]. simpl. intro H.
  apply andb_prop in H. destruct H as [Hx Hw].
  rewrite count_char_cons, (IH Hw).
  unfold is_char. destruct (N.eqb_spec x c); [subst; congruence|reflexivity].
Qed.

Lemma count_char_firstn_skipn (c : char) (n : nat) (s : str) :
  count_char c s = count_char c (firstn n s) + count_char c (skipn n s).
Proof. now rewrite <- count_char_app, firstn_skipn. Qed.

Section CountThroughRule.

Variable c : char.
Variable r : regex.
Variable f : replacement.

Hypothesis replacement_keeps :
  forall bol s n cp,
    exec_at r bol s = Some (n, cp) ->
    count_char c (firstn n s) <= count_char c (f (firstn n s) cp).

Lemma replace_go_count (s : str) :
  forall skip bol,
    count_char c (skipn skip s) <= count_char c (replace_go r f skip bol s).
Proof.
  induction s as [|x s IH]; intros skip bol.
  - destruct skip; cbn [replace_go skipn]; [|apply Nat.le_refl].
    destruct (exec_at r bol []) as [[len cp]|] eqn:E; [|apply Nat.le_refl].
    rewrite count_char_app. change (count_char c []) with 0. lia.
  - destruct skip as [|skip]; cbn [replace_go skipn]; [|apply IH].
    destruct (exec_at r bol (x :: s)) as [[len cp]|] eqn:E.
    + pose proof (replacement_keeps _ _ E) as Hk.
      rewrite count_char_app.
      rewrite (count_char_firstn_skipn c len (x :: s)).
      destruct len as [|len].
      * cbn [skipn]. rewrite !count_char_cons.
        pose proof (IH 0 (isLineTerminator x)) as H0. cbn [skipn] in H0. lia.
      * cbn [skipn]. pose proof (IH len (isLineTerminator x)). lia.
    + rewrite !count_char_cons.
      pose proof (IH 0 (isLineTerminator x)) as H0. cbn [skipn] in H0. lia.
Qed.

(** A rule whose replacement keeps the occurrences of a character in every
    match keeps them in the whole text. *)
Lemma replace_count (s : str) : count_char c s <= count_char c (replace r f s).
Proof. apply (replace_go_count s 0 true). Qed.

End CountThroughRule.

(** ** What the replacements keep *)

Lemma kept_char_spec (c : char) :
  kept_char c = true ->
  isWhiteSpace c = false /\ isDigit c = false /\
  forall x, In x [c_star; c_tilde; c_lbracket; c_rbracket; c_lparen; c_rparen;
                  c_hash; c_backtick; c_gt; c_dot; c_bang; c_pipe] ->
            is_char c x = false.
Proof.
  unfold kept_char. intro H.
  apply andb_prop in H. destruct H as [H H3].
  apply andb_prop in H. destruct H as [H1 H2].
  apply negb_true_iff in H1, H2, H3.
  split; [exact H1|]. split; [exact H2|].
  intros x Hx. destruct (is_char c x) eqn:E; [|reflexivity].
  assert (Hex : existsb (is_char c)
                  [c_star; c_tilde; c_lbracket; c_rbracket; c_lparen; c_rparen;
                   c_hash; c_backtick; c_gt; c_dot; c_bang; c_pipe] = true).
  { apply existsb_exists. exists x. auto. }
  congruence.
Qed.

Ltac langc_inv H :=
  cbn [langc lang] in H;
  repeat match goal with
         | H0 : exists _, _ |- _ => destruct H0
         | H0 : _ /\ _ |- _ => destruct H0
         end;
  subst.

Ltac open_match H :=
  let w := fresh "w" in
  let rest := fresh "rest" in
  let Hs := fresh "Hs" in
  let Hn := fresh "Hn" in
  let Hf := fresh "Hf" in
  let Hl := fresh "Hl" in
  apply exec_at_caps in H; destruct H as (w & rest & Hs & Hn & Hf & Hl);
  rewrite Hf; clear Hf.

Ltac drop_pieces Hk :=
  cbn [cset_mem] in *;
  repeat match goal with
         | H0 : N.eqb ?x ?d = true |- _ =>
             apply N.eqb_eq in H0; subst x
         end;
  rewrite ?count_char_app, ?count_char_cons;
  repeat match goal with
         | |- context [is_char ?c ?d] =>
             rewrite (Hk d) by (simpl; tauto)
         end;
  repeat match goal with
         | |- context [count_char ?c0 []] => change (count_char c0 []) with 0
         end.

Section Kept.

Variable c : char.
Hypothesis kept : kept_char c = true.

Lemma bold_keeps bol s n cp :
  exec_at bold_re bol s = Some (n, cp) ->
  count_char c (firstn n s)
  <= count_char c (expand (lit "<strong>$1</strong>") (firstn n s) cp).
Proof.
  destruct (kept_char_spec c kept) as (Hw & Hd & Hk).
  intro H. open_match H. unfold bold_re, rch, rstar_lazy in *.
  langc_inv Hl. rewrite expand_strong. cbn [cap_str cap Nat.eqb].
  drop_pieces Hk. lia.
Qed.

Lemma italic_keeps bol s n cp :
  exec_at italic_re bol s = Some (n, cp) ->
  count_char c (firstn n s)
  <= count_char c (expand (lit "<em>$1</em>") (firstn n s) cp).
Proof.
  destruct (kept_char_spec c kept) as (Hw & Hd & Hk).
  intro H. open_match H. unfold italic_re, rch, rstar_lazy in *.
  langc_inv Hl. rewrite expand_em. cbn [cap_str cap Nat.eqb].
  drop_pieces Hk. lia.
Qed.

Lemma strike_keeps bol s n cp :
  exec_at strike_re bol s = Some (n, cp) ->
  count_char c (firstn n s)
  <= count_char c (expand (lit "<del>$1</del>") (firstn n s) cp).
Proof.
  destruct (kept_char_spec c kept) as (Hw & Hd & Hk).
  intro H. open_match H. unfold strike_re, rch, rstar_lazy in *.
  langc_inv Hl. rewrite expand_del. cbn [cap_str cap Nat.eqb].
  drop_pieces Hk. lia.
Qed.

Lemma link_keeps bol s n cp :
  exec_at link_re bol s = Some (n, cp) ->
  count_char c (firstn n s)
  <= count_char c
       (expand (lit "<a href=" ++ [dq] ++ lit "$2" ++ [dq] ++ lit ">$1</a>")
               (firstn n s) cp).
Proof.
  destruct (kept_char_spec c kept) as (Hw & Hd & Hk).
  intro H. open_match H. unfold link_re, rch, rplus in *.
  langc_inv Hl. rewrite expand_a. cbn [cap_str cap Nat.eqb].
  drop_pieces Hk. lia.
Qed.

Lemma heading_keeps bol s n cp :
  exec_at heading_re bol s = Some (n, cp) ->
  count_char c (firstn n s) <= count_char c (heading_cb (firstn n s) cp).
Proof.
  destruct (kept_char_spec c kept) as (Hw & Hd & Hk).
  intro H. open_match H. unfold heading_re, rch, rstar in *.
  langc_inv Hl. unfold heading_cb. cbn [cap_str cap Nat.eqb].
  rewrite ?count_char_app.
  match goal with
  | Hh : forallb (cset_mem (CLit c_hash)) ?h = true |- _ =>
      rewrite (count_char_none c (cset_mem (CLit c_hash)) h) by
        (auto; cbn [cset_mem]; rewrite N.eqb_sym; apply (Hk c_hash); simpl; tauto)
  end.
  match goal with
  | Hs : forallb (cset_mem CSpace) ?h = true |- _ =>
      rewrite (count_char_none c (cset_mem CSpace) h) by auto
  end.
  change (count_char c []) with 0. lia.
Qed.

Lemma code_keeps bol s n cp :
  exec_at code_re bol s = Some (n, cp) ->
  count_char c (firstn n s)
  <= count_char c (expand (lit "<code>$1</code>") (firstn n s) cp).
Proof.
  destruct (kept_char_spec c kept) as (Hw & Hd & Hk).
  intro H. open_match H. unfold code_re, rch, rplus in *.
  langc_inv Hl. rewrite expand_code. cbn [cap_str cap Nat.eqb].
  drop_pieces Hk. lia.
Qed.

Lemma fence_keeps bol s n cp :
  exec_at fence_re bol s = Some (n, cp) ->
  count_char c (firstn n s)
  <= count_char c (expand (lit "<pre><code>$1</code></pre>") (firstn n s) cp).
Proof.
  destruct (kept_char_spec c kept) as (Hw & Hd & Hk).
  intro H. open_match H. unfold fence_re, rch, rplus_lazy in *.
  langc_inv Hl. rewrite expand_pre. cbn [cap_str cap Nat.eqb].
  drop_pieces Hk. lia.
Qed.

Lemma quote_keeps bol s n cp :
  exec_at quote_re bol s = Some (n, cp) ->
  count_char c (firstn n s)
  <= count_char c (expand (lit "<blockquote>$1</blockquote>") (firstn n s) cp).
Proof.
  destruct (kept_char_spec c kept) as (Hw & Hd & Hk).
  intro H. open_match H. unfold quote_re, rch, rstar in *.
  langc_inv Hl. rewrite expand_blockquote. cbn [cap_str cap Nat.eqb].
  match goal with
  | Hs : forallb (cset_mem CSpace) ?h = true |- _ =>
      pose proof (count_char_none c (cset_mem CSpace) h Hw Hs)
  end.
  drop_pieces Hk. lia.
Qed.

Lemma ul_keeps bol s n cp :
  exec_at ul_re bol s = Some (n, cp) ->
  count_char c (firstn n s)
  <= count_char c (expand (lit "<ul><li>$1</li></ul>") (firstn n s) cp).
Proof.
  destruct (kept_char_spec c kept) as (Hw & Hd & Hk).
  intro H. open_match H. unfold ul_re, rch, rstar in *.
  langc_inv Hl. rewrite expand_ul. cbn [cap_str cap Nat.eqb].
  match goal with
  | Hs : cset_mem CSpace ?x = true |- _ =>
      pose proof (count_char_none c (cset_mem CSpace) [x] Hw) as Hsp;
      cbn [forallb] in Hsp; rewrite Hs in Hsp; specialize (Hsp eq_refl)
  end.
  rewrite ?count_char_app in *. drop_pieces Hk.
  rewrite ?count_char_app, ?count_char_cons in *.
  change (count_char c []) with 0 in *. lia.
Qed.

Lemma ol_keeps bol s n cp :
  exec_at ol_re bol s = Some (n, cp) ->
  count_char c (firstn n s)
  <= count_char c (expand (lit "<ol><li>$1</li></ol>") (firstn n s) cp).
Proof.
  destruct (kept_char_spec c kept) as (Hw & Hd & Hk).
  intro H. open_match H. unfold ol_re, rch, rstar, rplus in *.
  langc_inv Hl. rewrite expand_ol. cbn [cap_str cap Nat.eqb].
  match goal with
  | Hs : cset_mem CSpace ?x = true |- _ =>
      pose proof (count_char_none c (cset_mem CSpace) [x] Hw) as Hsp;
      cbn [forallb] in Hsp; rewrite Hs in Hsp; specialize (Hsp eq_refl)
  end.
  match goal with
  | Hs : forallb (cset_mem CDigit) ?h = true |- _ =>
      pose proof (count_char_none c (cset_mem CDigit) h Hd Hs)
  end.
  drop_pieces Hk.
  rewrite ?count_char_app, ?count_char_cons in *.
  change (count_char c []) with 0 in *. lia.
Qed.

Lemma image_keeps bol s n cp :
  exec_at image_re bol s = Some (n, cp) ->
  count_char c (firstn n s)
  <= count_char c
       (expand (lit "<img src=" ++ [dq] ++ lit "$2" ++ [dq] ++ lit " alt=" ++
                [dq] ++ lit "$1" ++ [dq] ++ lit "/>") (firstn n s) cp).
Proof.
  destruct (kept_char_spec c kept) as (Hw & Hd & Hk).
  intro H. open_match H. unfold image_re, rch, rplus, rstar in *.
  langc_inv Hl. rewrite expand_img. cbn [cap_str cap Nat.eqb].
  drop_pieces Hk. lia.
Qed.

Lemma count_char_drop_ws (s : str) :
  count_char c (drop_ws s) = count_char c s.
Proof.
  destruct (kept_char_spec c kept) as (Hw & _).
  induction s as [|x s IH]; [reflexivity|]. simpl.
  destruct (isWhiteSpace x) eqn:E; [|reflexivity].
  rewrite IH, count_char_cons. unfold is_char.
  destruct (N.eqb_spec x c); [subst; congruence|reflexivity].
Qed.

Lemma count_char_rev (s : str) : count_char c (rev s) = count_char c s.
Proof.
  induction s as [|x s IH]; [reflexivity|]. simpl.
  rewrite count_char_app, IH, !count_char_cons.
  change (count_char c []) with 0. lia.
Qed.

Lemma count_char_trim (s : str) : count_char c (trim s) = count_char c s.
Proof.
  unfold trim.
  now rewrite count_char_rev, count_char_drop_ws, count_char_rev,
    count_char_drop_ws.
Qed.

Lemma count_char_split (s : str) :
  count_char c (concat (split c_pipe s)) = count_char c s.
Proof.
  destruct (kept_char_spec c kept) as (_ & _ & Hk).
  assert (Hp : is_char c c_pipe = false) by (apply Hk; simpl; tauto).
  induction s as [|x s IH]; [reflexivity|]. cbn [split].
  destruct (N.eqb_spec x c_pipe) as [->|Hx].
  - cbn [concat app]. rewrite IH, count_char_cons, Hp. reflexivity.
  - destruct (split c_pipe s) as [|h t]; cbn [concat app] in *.
    + rewrite !count_char_cons, <- IH. reflexivity.
    + rewrite !count_char_cons, <- IH. reflexivity.
Qed.

Lemma count_char_cells (tag content : str) :
  count_char c content <= count_char c (cells tag content).
Proof.
  rewrite <- (count_char_split content). unfold cells, join_empty.
  induction (split c_pipe content) as [|cell l IH]; [apply Nat.le_refl|].
  cbn [List.map concat]. rewrite !count_char_app, count_char_trim. lia.
Qed.

Lemma table_head_keeps bol s n cp :
  exec_at table_re bol s = Some (n, cp) ->
  count_char c (firstn n s) <= count_char c (table_head_cb (firstn n s) cp).
Proof.
  destruct (kept_char_spec c kept) as (Hw & Hd & Hk).
  intro H. open_match H. unfold table_re, rch, rplus in *.
  langc_inv Hl. unfold table_head_cb. cbn [cap_str cap Nat.eqb].
  match goal with
  | |- context [cells ?tag ?content] =>
      pose proof (count_char_cells tag content)
  end.
  drop_pieces Hk. lia.
Qed.

Lemma table_row_keeps bol s n cp :
  exec_at table_re bol s = Some (n, cp) ->
  count_char c (firstn n s) <= count_char c (table_row_cb (firstn n s) cp).
Proof.
  destruct (kept_char_spec c kept) as (Hw & Hd & Hk).
  intro H. open_match H. unfold table_re, rch, rplus in *.
  langc_inv Hl. unfold table_row_cb. cbn [cap_str cap Nat.eqb].
  match goal with
  | |- context [cells ?tag ?content] =>
      pose proof (count_char_cells tag content)
  end.
  drop_pieces Hk. lia.
Qed.

(** The renderer keeps every occurrence of a character no pattern
    consumes. *)
Lemma parse_keeps (text : str) :
  count_char c text <= count_char c (parseMarkdownToHTML text).
Proof.
  unfold parseMarkdownToHTML, bold_rule, italic_rule, strike_rule, link_rule,
    heading_rule, code_rule, fence_rule, quote_rule, ul_rule, ol_rule,
    image_rule, table_head_rule, table_row_rule.
  eapply Nat.le_trans; [|apply replace_count, table_row_keeps].
  eapply Nat.le_trans; [|apply replace_count, table_head_keeps].
  eapply Nat.le_trans; [|apply replace_count, image_keeps].
  eapply Nat.le_trans; [|apply replace_count, ol_keeps].
  eapply Nat.le_trans; [|apply replace_count, ul_keeps].
  eapply Nat.le_trans; [|apply replace_count, quote_keeps].
  eapply Nat.le_trans; [|apply replace_count, fence_keeps].
  eapply Nat.le_trans; [|apply replace_count, code_keeps].
  eapply Nat.le_trans; [|apply replace_count, heading_keeps].
  eapply Nat.le_trans; [|apply replace_count, link_keeps].
  eapply Nat.le_trans; [|apply replace_count, strike_keeps].
  eapply Nat.le_trans; [|apply replace_count, italic_keeps].
  apply replace_count, bold_keeps.
Qed.

End Kept.



(** ** A rule on a text that is one construct *)

Lemma replace_hit (r : regex) (f : replacement) (t : trigger)
      (p w : str) (cp : caps) :
  (forall bol x s res, exec_at r bol (x :: s) = Some res -> t bol x = true) ->
  quiet t true p = true ->
  w <> [] ->
  exec_at r (bol_after true p) (w ++ []) = Some (length w, cp) ->
  (forall bol, exec_at r bol [] = None) ->
  replace r f (p ++ w) = p ++ f w cp.
Proof.
  intros Ht Hq Hw He Hend. unfold replace.
  rewrite <- (app_nil_r w) at 1.
  rewrite (replace_go_quiet r f t Ht p true (w ++ []) Hq).
  rewrite (@replace_go_match r f _ w [] cp Hw He).
  cbn [replace_go]. rewrite Hend. now rewrite app_nil_r.
Qed.

Lemma replace_hit_whole (r : regex) (f : replacement) (w : str) (cp : caps) :
  w <> [] ->
  exec_at r true (w ++ []) = Some (length w, cp) ->
  (forall bol, exec_at r bol [] = None) ->
  replace r f w = f w cp.
Proof.
  intros Hw He Hend. unfold replace.
  rewrite <- (app_nil_r w) at 1.
  rewrite (@replace_go_match r f _ w [] cp Hw He).
  cbn [replace_go]. rewrite Hend. apply app_nil_r.
Qed.

(** ** Rules that find nothing in a line *)

Lemma item_char_no (d : char) (v : str) :
  item_char d = false -> forallb item_char v = true ->
  existsb (is_char d) v = false.
Proof.
  intros Hd. apply forallb_existsb_false. intros x Hx.
  unfold is_char. destruct (N.eqb_spec x d); [subst; congruence|reflexivity].
Qed.

Lemma item_char_not_lt (v : str) :
  forallb item_char v = true -> forallb not_lt v = true.
Proof.
  apply forallb_impl. intros x Hx. now apply item_char_spec in Hx.
Qed.

Lemma no_star_rules (t : str) :
  existsb (is_char c_star) t = false -> bold_rule t = t /\ italic_rule t = t.
Proof.
  intro H.
  pose proof (anywhere_none_of_char asterisk_pair (is_char c_star) t
                asterisk_pair_has_star H) as Ha.
  split; [now apply bold_rule_id | now apply italic_rule_id].
Qed.

Lemma no_tilde_rule (t : str) :
  existsb (is_char c_tilde) t = false -> strike_rule t = t.
Proof.
  intro H. apply strike_rule_id.
  now apply (anywhere_none_of_char _ _ _ strike_span_has_tilde).
Qed.

Lemma no_bracket_rules (t : str) :
  existsb (is_char c_lbracket) t = false -> link_rule t = t /\ image_rule t = t.
Proof.
  intro H. split.
  - apply link_rule_id. now apply (anywhere_none_of_char _ _ _ link_form_has_bracket).
  - apply image_rule_id. now apply (anywhere_none_of_char _ _ _ image_form_has_bracket).
Qed.

Lemma no_backtick_rules (t : str) :
  existsb (is_char c_backtick) t = false -> code_rule t = t /\ fence_rule t = t.
Proof.
  intro H.
  pose proof (anywhere_none_of_char _ _ _ backtick_here_has_backtick H) as Ha.
  split; [now apply code_rule_id | now apply fence_rule_id].
Qed.

Lemma line_start_single (q : char -> bool) (l : str) :
  forallb not_lt l = true -> head_is q l = false ->
  at_line_start (head_is q) true l = false.
Proof.
  intros Hl Hq. destruct l as [|x l]; [reflexivity|].
  cbn [at_line_start]. rewrite Hq. cbn [andb orb].
  simpl in Hl. apply andb_prop in Hl. destruct Hl as [Hx Hl].
  unfold not_lt in Hx. apply negb_true_iff in Hx. rewrite Hx.
  rewrite <- (app_nil_r l). now rewrite at_line_start_in_line.
Qed.

Lemma heading_rule_line (l : str) :
  forallb not_lt l = true -> head_is (is_char c_hash) l = false ->
  heading_rule l = l.
Proof.
  intros Hl Hq. apply heading_rule_id. now apply (line_start_single (is_char c_hash)).
Qed.

Lemma quote_rule_line (l : str) :
  forallb not_lt l = true -> head_is (is_char c_gt) l = false ->
  quote_rule l = l.
Proof.
  intros Hl Hq. apply quote_rule_id. now apply (line_start_single (is_char c_gt)).
Qed.

Lemma ul_rule_line (l : str) :
  forallb not_lt l = true -> head_is (is_char c_star) l = false ->
  ul_rule l = l.
Proof.
  intros Hl Hq. apply ul_rule_id.
  apply (at_line_start_mono _ (head_is (is_char c_star)));
    [apply bullet_here_head | now apply line_start_single].
Qed.

Lemma ol_rule_line (l : str) :
  forallb not_lt l = true -> head_is isDigit l = false ->
  ol_rule l = l.
Proof.
  intros Hl Hq. apply ol_rule_id.
  apply (at_line_start_mono _ (head_is isDigit));
    [apply number_here_head | now apply line_start_single].
Qed.

Lemma table_rules_line (l : str) :
  forallb not_lt l = true -> head_is (is_char c_pipe) l = false ->
  table_head_rule l = l /\ table_row_rule l = l.
Proof.
  intros Hl Hq.
  assert (H : at_line_start row_here true l = false).
  { apply (at_line_start_mono _ (head_is (is_char c_pipe)));
      [apply row_here_head | now apply line_start_single]. }
  split; [now apply table_head_rule_id | now apply table_row_rule_id].
Qed.

(** The rules from the heading rule on find nothing in a line that starts
    with the angle bracket of a tag and holds no backtick and no opening
    bracket: the shape of what the rules produce from plain contents. *)
Lemma tag_line_settled (l : str) :
  forallb not_lt l = true ->
  head_is (is_char 60%N) l = true ->
  existsb (is_char c_backtick) l = false ->
  existsb (is_char c_lbracket) l = false ->
  after_heading (heading_rule l) = l.
Proof.
  intros Hl Hh Ht Hb.
  assert (Hq : forall q, q 60%N = false -> head_is q l = false).
  { intros q Hq. destruct l as [|x l]; [reflexivity|]. simpl in *.
    unfold is_char in Hh. apply N.eqb_eq in Hh. now subst x. }
  unfold after_heading.
  rewrite (@heading_rule_line l) by (auto; apply Hq; reflexivity).
  destruct (no_backtick_rules l Ht) as [-> ->].
  rewrite (@quote_rule_line l) by (auto; apply Hq; reflexivity).
  rewrite (@ul_rule_line l) by (auto; apply Hq; reflexivity).
  rewrite (@ol_rule_line l) by (auto; apply Hq; reflexivity).
  destruct (no_bracket_rules l Hb) as [_ ->].
  destruct (table_rules_line l Hl (Hq _ eq_refl)) as [-> ->].
  reflexivity.
Qed.

(** ** Links and images *)

Lemma not_lit_of_existsb (d : char) (v : str) :
  existsb (is_char d) v = false -> forallb (cset_mem (CNotLit d)) v = true.
Proof.
  induction v as [|x v IH]; [reflexivity|]. simpl. intro H.
  apply orb_false_elim in H. destruct H as [Hx Hv].
  unfold is_char in Hx. now rewrite Hx, IH.
Qed.

Lemma stops_at_lit (d : char) (rest : str) :
  stops (cset_mem (CNotLit d)) (d :: rest).
Proof. simpl. now rewrite N.eqb_refl. Qed.

Lemma link_exec (bol : bool) (T U rest : str) :
  existsb (is_char c_rbracket) T = false -> T <> [] ->
  existsb (is_char c_rparen) U = false -> U <> [] ->
  exec_at link_re bol
          ((c_lbracket :: T ++ c_rbracket :: c_lparen :: U ++ [c_rparen]) ++ rest)
  = Some (length (c_lbracket :: T ++ c_rbracket :: c_lparen :: U ++ [c_rparen]),
          [(2, U); (1, T)]).
Proof.
  intros HT HneT HU HneU. unfold exec_at, link_re, rch, rplus.
  flat. cbn [rmatch].
  unfold cset_mem at 1. rewrite N.eqb_refl.
  apply rep_greedy_max.
  - now apply not_lit_of_existsb.
  - destruct T; [contradiction|simpl; lia].
  - exact I.
  - right. apply stops_at_lit.
  - unfold cset_mem at 1. rewrite N.eqb_refl.
    unfold cset_mem at 1. rewrite N.eqb_refl.
    apply rep_greedy_max.
    + now apply not_lit_of_existsb.
    + destruct U; [contradiction|simpl; lia].
    + exact I.
    + right. apply stops_at_lit.
    + unfold cset_mem at 1. rewrite N.eqb_refl.
      rewrite (firstn_app_diff U (c_rparen :: rest)).
      rewrite (firstn_app_diff T (c_rbracket :: c_lparen :: U ++ c_rparen :: rest)).
      f_equal. f_equal. cbn [length]. rewrite !length_app. cbn [length].
      rewrite !length_app. cbn [length]. lia.
Qed.

Lemma image_exec (bol : bool) (T U rest : str) :
  existsb (is_char c_rbracket) T = false ->
  existsb (is_char c_rparen) U = false -> U <> [] ->
  exec_at image_re bol
          ((c_bang :: c_lbracket :: T ++ c_rbracket :: c_lparen :: U ++ [c_rparen])
             ++ rest)
  = Some (length (c_bang :: c_lbracket :: T ++ c_rbracket :: c_lparen :: U ++
                  [c_rparen]),
          [(2, U); (1, T)]).
Proof.
  intros HT HU HneU. unfold exec_at, image_re, rch, rplus, rstar.
  flat. cbn [rmatch].
  unfold cset_mem at 1. rewrite N.eqb_refl.
  unfold cset_mem at 1. rewrite N.eqb_refl.
  apply rep_greedy_max.
  - now apply not_lit_of_existsb.
  - lia.
  - exact I.
  - right. apply stops_at_lit.
  - unfold cset_mem at 1. rewrite N.eqb_refl.
    unfold cset_mem at 1. rewrite N.eqb_refl.
    apply rep_greedy_max.
    + now apply not_lit_of_existsb.
    + destruct U; [contradiction|simpl; lia].
    + exact I.
    + right. apply stops_at_lit.
    + unfold cset_mem at 1. rewrite N.eqb_refl.
      rewrite (firstn_app_diff U (c_rparen :: rest)).
      rewrite (firstn_app_diff T (c_rbracket :: c_lparen :: U ++ c_rparen :: rest)).
      f_equal. f_equal. cbn [length]. rewrite !length_app. cbn [length].
      rewrite !length_app. cbn [length]. lia.
Qed.

Ltac no_char :=
  repeat (rewrite ?existsb_app; cbn [existsb]);
  repeat match goal with
         | H : forallb item_char ?v = true |- context [existsb (is_char ?d) ?v] =>
             rewrite (@item_char_no d v eq_refl H)
         end;
  reflexivity.

Ltac no_lt :=
  repeat (rewrite ?forallb_app; cbn [forallb]);
  repeat match goal with
         | H : forallb item_char ?v = true |- context [forallb not_lt ?v] =>
             rewrite (item_char_not_lt v H)
         end;
  reflexivity.

Lemma quiet_no_char (d : char) (p : str) :
  existsb (is_char d) p = false -> forall bol, quiet (trig_char d) bol p = true.
Proof.
  induction p as [|x p IH]; intros H bol; [reflexivity|].
  simpl in H. apply orb_false_elim in H. destruct H as [Hx Hp].
  cbn [quiet]. unfold trig_char at 1. rewrite Hx. now apply IH.
Qed.

Lemma link_rule_hit (p T U : str) :
  existsb (is_char c_lbracket) p = false ->
  T <> [] -> existsb (is_char c_rbracket) T = false ->
  U <> [] -> existsb (is_char c_rparen) U = false ->
  link_rule (p ++ lit "[" ++ T ++ lit "](" ++ U ++ lit ")")
  = p ++ lit "<a href=" ++ [dq] ++ U ++ [dq] ++ lit ">" ++ T ++ lit "</a>".
Proof.
  intros Hp HneT HT HneU HU. unfold link_rule.
  change (lit "[" ++ T ++ lit "](" ++ U ++ lit ")")
    with (c_lbracket :: T ++ c_rbracket :: c_lparen :: U ++ [c_rparen]).
  rewrite (@replace_hit link_re _ (trig_char c_lbracket) p _ [(2, U); (1, T)]
             link_trigger).
  - rewrite expand_a. reflexivity.
  - now apply quiet_no_char.
  - discriminate.
  - now apply link_exec.
  - reflexivity.
Qed.

(** X10: a link whose text and address hold no line terminator, asterisk,
    tilde, opening bracket or backtick, the text no closing bracket and the
    address no closing parenthesis, both non-empty, is rendered as an
    anchor with the address as its href and the text as its content, both
    copied as they are: a double quote in the address ends the attribute. *)
Theorem link_rendered_verbatim (T U : str) :
  forallb item_char T = true -> T <> [] ->
  existsb (is_char c_rbracket) T = false ->
  forallb item_char U = true -> U <> [] ->
  existsb (is_char c_rparen) U = false ->
  parseMarkdownToHTML (lit "[" ++ T ++ lit "](" ++ U ++ lit ")")
  = lit "<a href=" ++ [dq] ++ U ++ [dq] ++ lit ">" ++ T ++ lit "</a>".
Proof.
  intros HT HneT HbT HU HneU HpU.
  change (parseMarkdownToHTML (lit "[" ++ T ++ lit "](" ++ U ++ lit ")"))
    with (after_heading (heading_rule (before_heading
            (lit "[" ++ T ++ lit "](" ++ U ++ lit ")")))).
  unfold before_heading.
  destruct (no_star_rules (lit "[" ++ T ++ lit "](" ++ U ++ lit ")"))
    as [-> ->]; [no_char|].
  rewrite no_tilde_rule by no_char.
  assert (Hl : link_rule (lit "[" ++ T ++ lit "](" ++ U ++ lit ")")
               = lit "<a href=" ++ [dq] ++ U ++ [dq] ++ lit ">" ++ T ++ lit "</a>")
    by exact (@link_rule_hit [] T U eq_refl HneT HbT HneU HpU).
  rewrite Hl.
  apply tag_line_settled; [no_lt | reflexivity | no_char | no_char].
Qed.

Lemma link_rendered_verbatim_witness :
  parseMarkdownToHTML
    (lit "[" ++ lit "site" ++ lit "](" ++
     (lit "http://x.com" ++ [dq] ++ lit " onclick=" ++ [dq] ++ lit "go") ++ lit ")")
  = lit "<a href=" ++ [dq] ++
    (lit "http://x.com" ++ [dq] ++ lit " onclick=" ++ [dq] ++ lit "go") ++
    [dq] ++ lit ">" ++ lit "site" ++ lit "</a>".
Proof.
  apply link_rendered_verbatim; try reflexivity; discriminate.
Defined.

(** X11: an image with a non-empty alternative text, text and address as
    for a link, is not rendered as an image: the result is the exclamation
    mark followed by the anchor the link rule makes of the rest. *)
Theorem image_with_alt_becomes_link (T U : str) :
  forallb item_char T = true -> T <> [] ->
  existsb (is_char c_rbracket) T = false ->
  forallb item_char U = true -> U <> [] ->
  existsb (is_char c_rparen) U = false ->
  parseMarkdownToHTML (lit "![" ++ T ++ lit "](" ++ U ++ lit ")")
  = lit "!<a href=" ++ [dq] ++ U ++ [dq] ++ lit ">" ++ T ++ lit "</a>".
Proof.
  intros HT HneT HbT HU HneU HpU.
  change (parseMarkdownToHTML (lit "![" ++ T ++ lit "](" ++ U ++ lit ")"))
    with (after_heading (heading_rule (before_heading
            (lit "![" ++ T ++ lit "](" ++ U ++ lit ")")))).
  unfold before_heading.
  destruct (no_star_rules (lit "![" ++ T ++ lit "](" ++ U ++ lit ")"))
    as [-> ->]; [no_char|].
  rewrite no_tilde_rule by no_char.
  assert (Hl : link_rule (lit "![" ++ T ++ lit "](" ++ U ++ lit ")")
               = lit "!<a href=" ++ [dq] ++ U ++ [dq] ++ lit ">" ++ T ++ lit "</a>")
    by exact (@link_rule_hit (lit "!") T U eq_refl HneT HbT HneU HpU).
  rewrite Hl.
  unfold after_heading.
  rewrite (@heading_rule_line (lit "!<a href=" ++ [dq] ++ U ++ [dq] ++ lit ">" ++ T ++ lit "</a>")) by (no_lt || reflexivity).
  destruct (no_backtick_rules
              (lit "!<a href=" ++ [dq] ++ U ++ [dq] ++ lit ">" ++ T ++ lit "</a>"))
    as [-> ->]; [no_char|].
  rewrite (@quote_rule_line (lit "!<a href=" ++ [dq] ++ U ++ [dq] ++ lit ">" ++ T ++ lit "</a>")) by (no_lt || reflexivity).
  rewrite (@ul_rule_line (lit "!<a href=" ++ [dq] ++ U ++ [dq] ++ lit ">" ++ T ++ lit "</a>")) by (no_lt || reflexivity).
  rewrite (@ol_rule_line (lit "!<a href=" ++ [dq] ++ U ++ [dq] ++ lit ">" ++ T ++ lit "</a>")) by (no_lt || reflexivity).
  destruct (no_bracket_rules
              (lit "!<a href=" ++ [dq] ++ U ++ [dq] ++ lit ">" ++ T ++ lit "</a>"))
    as [_ ->]; [no_char|].
  destruct (table_rules_line
              (lit "!<a href=" ++ [dq] ++ U ++ [dq] ++ lit ">" ++ T ++ lit "</a>"))
    as [-> ->]; [no_lt|reflexivity|reflexivity].
Qed.

Lemma image_with_alt_becomes_link_witness :
  parseMarkdownToHTML (lit "![" ++ lit "a cat" ++ lit "](" ++ lit "cat.png" ++ lit ")")
  = lit "!<a href=" ++ [dq] ++ lit "cat.png" ++ [dq] ++ lit ">" ++ lit "a cat" ++
    lit "</a>".
Proof.
  apply image_with_alt_becomes_link; try reflexivity; discriminate.
Defined.

(** X12: an image with an empty alternative text and an address as for a
    link is rendered as an img element with the address as its src, copied
    as it is, and an empty alt. *)
Theorem image_without_alt_rendered (U : str) :
  forallb item_char U = true -> U <> [] ->
  existsb (is_char c_rparen) U = false ->
  parseMarkdownToHTML (lit "![](" ++ U ++ lit ")")
  = lit "<img src=" ++ [dq] ++ U ++ [dq] ++ lit " alt=" ++ [dq] ++ [dq] ++ lit "/>".
Proof.
  intros HU HneU HpU.
  assert (Hline : forallb not_lt (lit "![](" ++ U ++ lit ")") = true) by no_lt.
  unfold parseMarkdownToHTML.
  destruct (no_star_rules (lit "![](" ++ U ++ lit ")")) as [-> ->]; [no_char|].
  rewrite no_tilde_rule by no_char.
  rewrite link_rule_id.
  2:{ change (lit "![](" ++ U ++ lit ")")
        with (c_bang :: c_lbracket :: c_rbracket :: c_lparen :: U ++ lit ")").
      assert (Hr : anywhere link_form (c_rbracket :: c_lparen :: U ++ lit ")")
                   = false).
      { apply (anywhere_none_of_char _ _ _ link_form_has_bracket). no_char. }
      cbn [anywhere] in Hr |- *.
      apply orb_false_elim in Hr. destruct Hr as [_ Hr]. rewrite Hr.
      reflexivity. }
  rewrite (@heading_rule_line (lit "![](" ++ U ++ lit ")")) by (assumption || reflexivity).
  destruct (no_backtick_rules (lit "![](" ++ U ++ lit ")")) as [-> ->]; [no_char|].
  rewrite (@quote_rule_line (lit "![](" ++ U ++ lit ")")) by (assumption || reflexivity).
  rewrite (@ul_rule_line (lit "![](" ++ U ++ lit ")")) by (assumption || reflexivity).
  rewrite (@ol_rule_line (lit "![](" ++ U ++ lit ")")) by (assumption || reflexivity).
  unfold image_rule.
  change (lit "![](" ++ U ++ lit ")")
    with (c_bang :: c_lbracket :: [] ++ c_rbracket :: c_lparen :: U ++ [c_rparen]).
  rewrite (@replace_hit_whole image_re _ _ [(2, U); (1, [])]);
    [|discriminate|now apply image_exec|reflexivity].
  rewrite expand_img. cbn [cap_str cap Nat.eqb app].
  destruct (table_rules_line
              (lit "<img src=" ++ [dq] ++ U ++ [dq] ++ lit " alt=" ++ [dq] ++
               [dq] ++ lit "/>")) as [H1 H2]; [no_lt|reflexivity|].
  cbn [app] in H1, H2. now rewrite H1, H2.
Qed.

Lemma image_without_alt_rendered_witness :
  parseMarkdownToHTML (lit "![](" ++ lit "cat.png" ++ lit ")")
  = lit "<img src=" ++ [dq] ++ lit "cat.png" ++ [dq] ++ lit " alt=" ++ [dq] ++
    [dq] ++ lit "/>".
Proof.
  apply image_without_alt_rendered; try reflexivity; discriminate.
Defined.
(** ** Headings, quotations and numbered items in their text *)

Lemma drop_while_blank (ws c : str) :
  forallb isWhiteSpace ws = true -> stops isWhiteSpace c ->
  drop_while isWhiteSpace (ws ++ c) = c.
Proof.
  intros Hws Hc. induction ws as [|y ws IH]; cbn [app].
  - destruct c as [|x c]; [reflexivity|]. simpl in *. now rewrite Hc.
  - simpl in Hws. apply andb_prop in Hws. destruct Hws as [Hy Hws].
    cbn [drop_while]. rewrite Hy. now apply IH.
Qed.

Lemma heading_line_level (n : nat) (ws c : str) :
  1 <= n <= 6 ->
  forallb isWhiteSpace ws = true -> stops isWhiteSpace c ->
  n = 6 \/ stops (is_char c_hash) (ws ++ c) ->
  heading_line (hashes n ++ ws ++ c)
  = lit "<h" ++ number_to_str n ++ lit ">" ++ c ++
    lit "</h" ++ number_to_str n ++ lit ">".
Proof.
  intros Hn Hws Hc Hh. unfold heading_line.
  assert (Hmin : Nat.min (length (take_while (is_char c_hash) (hashes n ++ ws ++ c))) 6
                 = n).
  { rewrite (take_while_app_all (is_char c_hash) (hashes n) (ws ++ c))
      by now apply forallb_hashes.
    rewrite length_app, hashes_length.
    destruct Hh as [->|Hh]; [lia|].
    destruct (ws ++ c) as [|x r]; [simpl; lia|].
    simpl in Hh. cbn [take_while]. rewrite Hh. simpl. lia. }
  assert (Hz : (length (take_while (is_char c_hash) (hashes n ++ ws ++ c)) =? 0)
               = false).
  { apply Nat.eqb_neq. lia. }
  rewrite Hz, Hmin, skipn_hashes, drop_while_blank by assumption.
  reflexivity.
Qed.

Lemma render_line_heading (n : nat) (ws c : str) :
  1 <= n <= 6 ->
  forallb isWhiteSpace ws = true -> stops isWhiteSpace c ->
  n = 6 \/ stops (is_char c_hash) (ws ++ c) ->
  render_line (hashes n ++ ws ++ c)
  = lit "<h" ++ number_to_str n ++ lit ">" ++ c ++
    lit "</h" ++ number_to_str n ++ lit ">".
Proof.
  intros Hn Hws Hc Hh. unfold render_line.
  rewrite heading_line_level by assumption. now apply tag_line_rendered.
Qed.

Lemma render_line_quote (ws c : str) :
  forallb isWhiteSpace ws = true -> stops isWhiteSpace c ->
  render_line (c_gt :: ws ++ c) = lit "<blockquote>" ++ c ++ lit "</blockquote>".
Proof.
  intros Hws Hc. unfold render_line.
  change (heading_line (c_gt :: ws ++ c)) with (c_gt :: ws ++ c).
  unfold quote_line. unfold is_char at 1. rewrite N.eqb_refl.
  rewrite drop_while_blank by assumption.
  exact (tag_line_rendered (lit "<blockquote>" ++ c ++ lit "</blockquote>") eq_refl).
Qed.

Lemma ol_line_item (d : str) (b : char) (c : str) :
  d <> [] -> forallb isDigit d = true -> isWhiteSpace b = true ->
  ol_line (d ++ c_dot :: b :: c) = lit "<ol><li>" ++ c ++ lit "</li></ol>".
Proof.
  intros Hne Hd Hb. unfold ol_line, ol_line_caps.
  rewrite (take_while_app_stop isDigit d c_dot (b :: c)) by (auto; reflexivity).
  rewrite (drop_while_app_stop isDigit d c_dot (b :: c)) by (auto; reflexivity).
  destruct d as [|x d]; [contradiction|]. cbn [nonempty].
  unfold is_char at 1. now rewrite N.eqb_refl, Hb.
Qed.

Lemma digit_line_start (x : char) (l : str) :
  isDigit x = true ->
  ul_line (quote_line (heading_line (x :: l))) = x :: l.
Proof.
  intro Hx.
  assert (H1 : is_char c_hash x = false).
  { unfold is_char. destruct (N.eqb_spec x c_hash); [subst; discriminate|reflexivity]. }
  assert (H2 : is_char c_gt x = false).
  { unfold is_char. destruct (N.eqb_spec x c_gt); [subst; discriminate|reflexivity]. }
  assert (H3 : is_char c_star x = false).
  { unfold is_char. destruct (N.eqb_spec x c_star); [subst; discriminate|reflexivity]. }
  unfold heading_line. cbn [take_while]. rewrite H1. cbn [length Nat.eqb].
  unfold quote_line. rewrite H2.
  unfold ul_line. destruct l as [|b c]; [reflexivity|]. now rewrite H3.
Qed.

Lemma render_line_numbered (d : str) (b : char) (c : str) :
  d <> [] -> forallb isDigit d = true -> isWhiteSpace b = true ->
  render_line (d ++ c_dot :: b :: c) = lit "<ol><li>" ++ c ++ lit "</li></ol>".
Proof.
  intros Hne Hd Hb. unfold render_line.
  assert (E : ul_line (quote_line (heading_line (d ++ c_dot :: b :: c)))
              = d ++ c_dot :: b :: c).
  { destruct d as [|x d]; [contradiction|]. cbn [app].
    apply digit_line_start. simpl in Hd. apply andb_prop in Hd. tauto. }
  rewrite E, ol_line_item by assumption.
  destruct c; reflexivity.
Qed.

Lemma digits_line (d : str) : forallb isDigit d = true -> forallb not_lt d = true.
Proof.
  apply forallb_impl. intros x Hx. unfold not_lt.
  destruct (isLineTerminator x) eqn:E; [|reflexivity].
  apply lt_not_digit in E. congruence.
Qed.

(** X13: in a text of line constructs a line of one to six hashes,
    whitespace if any, and a content becomes the heading of that level
    around the content, with the hashes and the whitespace gone; the lines
    before and after it are rendered on their own.  The content starts
    with a character other than whitespace, and with a hash only after
    whitespace or six hashes. *)
Theorem heading_levels (pre : str) (n : nat) (ws c tail : str) :
  1 <= n <= 6 ->
  forallb isWhiteSpace ws = true -> stops isWhiteSpace c ->
  n = 6 \/ stops (is_char c_hash) (ws ++ c) ->
  bol_after true pre = true -> forallb not_lt (ws ++ c) = true -> line_end tail ->
  line_text (pre ++ (hashes n ++ ws ++ c) ++ tail) = true ->
  parseMarkdownToHTML (pre ++ (hashes n ++ ws ++ c) ++ tail)
  = map_lines render_line [] pre ++
    (lit "<h" ++ number_to_str n ++ lit ">" ++ c ++
     lit "</h" ++ number_to_str n ++ lit ">") ++
    map_lines render_line [] tail.
Proof.
  intros Hn Hws Hc Hh Hpre Hl Ht H.
  rewrite (render_by_line _ H).
  rewrite map_lines_at by (auto; now apply hashes_line).
  now rewrite render_line_heading.
Qed.

Lemma heading_levels_witness :
  parseMarkdownToHTML ((lit "Intro" ++ [c_nl]) ++
                       (hashes 3 ++ lit "  " ++ lit "Setup & <b>run</b>") ++
                       ([c_nl] ++ lit "* first"))
  = map_lines render_line [] (lit "Intro" ++ [c_nl]) ++
    (lit "<h" ++ number_to_str 3 ++ lit ">" ++ lit "Setup & <b>run</b>" ++
     lit "</h" ++ number_to_str 3 ++ lit ">") ++
    map_lines render_line [] ([c_nl] ++ lit "* first").
Proof.
  apply (@heading_levels (lit "Intro" ++ [c_nl]) 3 (lit "  ")
           (lit "Setup & <b>run</b>") ([c_nl] ++ lit "* first"));
    try reflexivity; [lia | right; reflexivity].
Defined.

(** X14: in a text of line constructs a line of digits, a dot, a
    whitespace character and a content becomes an ordered list of its own
    with the content as its one item: the number is dropped, and
    consecutive items are not gathered into one list. *)
Theorem numbered_items_lose_numbers (pre d : str) (b : char) (c tail : str) :
  d <> [] -> forallb isDigit d = true -> isWhiteSpace b = true ->
  bol_after true pre = true -> forallb not_lt (b :: c) = true -> line_end tail ->
  line_text (pre ++ (d ++ c_dot :: b :: c) ++ tail) = true ->
  parseMarkdownToHTML (pre ++ (d ++ c_dot :: b :: c) ++ tail)
  = map_lines render_line [] pre ++
    (lit "<ol><li>" ++ c ++ lit "</li></ol>") ++
    map_lines render_line [] tail.
Proof.
  intros Hne Hd Hb Hpre Hl Ht H.
  rewrite (render_by_line _ H).
  rewrite map_lines_at.
  - now rewrite render_line_numbered.
  - reflexivity.
  - exact Hpre.
  - rewrite forallb_app, (digits_line d Hd). cbn [forallb andb] in *. exact Hl.
  - exact Ht.
Qed.

Lemma numbered_items_lose_numbers_witness :
  parseMarkdownToHTML ((lit "1. tea" ++ [c_nl]) ++
                       (lit "27" ++ c_dot :: c_space :: lit "milk") ++
                       ([c_nl] ++ lit "3. bread"))
  = map_lines render_line [] (lit "1. tea" ++ [c_nl]) ++
    (lit "<ol><li>" ++ lit "milk" ++ lit "</li></ol>") ++
    map_lines render_line [] ([c_nl] ++ lit "3. bread")
  /\ parseMarkdownToHTML (lit "1. tea" ++ [c_nl] ++ lit "27. milk" ++ [c_nl] ++
                          lit "3. bread")
     = lit "<ol><li>tea</li></ol>" ++ [c_nl] ++ lit "<ol><li>milk</li></ol>" ++
       [c_nl] ++ lit "<ol><li>bread</li></ol>".
Proof.
  split.
  - apply (@numbered_items_lose_numbers (lit "1. tea" ++ [c_nl]) (lit "27")
             c_space (lit "milk") ([c_nl] ++ lit "3. bread"));
      try reflexivity; discriminate.
  - vm_compute. reflexivity.
Defined.

(** X15: in a text of line constructs a line of a greater-than sign,
    whitespace if any, and a content that starts with a character other
    than whitespace becomes a quotation of its own around the content;
    consecutive quoted lines are not gathered into one quotation. *)
Theorem quotations_by_line (pre ws c tail : str) :
  forallb isWhiteSpace ws = true -> stops isWhiteSpace c ->
  bol_after true pre = true -> forallb not_lt (ws ++ c) = true -> line_end tail ->
  line_text (pre ++ (c_gt :: ws ++ c) ++ tail) = true ->
  parseMarkdownToHTML (pre ++ (c_gt :: ws ++ c) ++ tail)
  = map_lines render_line [] pre ++
    (lit "<blockquote>" ++ c ++ lit "</blockquote>") ++
    map_lines render_line [] tail.
Proof.
  intros Hws Hc Hpre Hl Ht H.
  rewrite (render_by_line _ H).
  rewrite map_lines_at by (auto; cbn [forallb]; now rewrite Hl).
  now rewrite render_line_quote.
Qed.

Lemma quotations_by_line_witness :
  parseMarkdownToHTML ((lit "> one" ++ [c_nl]) ++
                       (c_gt :: lit " " ++ lit "two > 1") ++
                       ([c_nl] ++ lit "end"))
  = map_lines render_line [] (lit "> one" ++ [c_nl]) ++
    (lit "<blockquote>" ++ lit "two > 1" ++ lit "</blockquote>") ++
    map_lines render_line [] ([c_nl] ++ lit "end").
Proof.
  apply (@quotations_by_line (lit "> one" ++ [c_nl]) (lit " ") (lit "two > 1")
           ([c_nl] ++ lit "end")); reflexivity.
Defined.
